(** * Commute-Live/Server: the MTA core GTFS importer

    A shallow embedding of [src/scripts/mta_import_core_partridge.py]:
    the row normalizers, the station clusterer, the route merger, the
    route-stop sequencer, the emission of the three row sets and the
    transactional sink driven by [main]; and of the row loop of
    [data/cta-subway/reduce_stop_times.py].

    Conventions of the embedding.
    - A Python [str] is a Rocq [string]; only the ASCII range is interpreted
      (whitespace, letter case, digits), other characters are opaque.
    - A Python [int] is a [Z]; an [Optional] value is an [option]; counters
      that only count up from zero and lengths are [nat].
    - A [dict] is a [gmap], a [set] a [gset]; every [sorted] of the program
      sorts by a key that is injective on its input, so the iteration order
      of the container does not show in the result.
    - A raised exception is the [Raise] case of [result]; [try]/[except]
      is [catch_ValueError]. *)

From Stdlib Require Import ZArith Ascii String List Bool Lia.
From stdpp Require Import base option gmap sets list strings sorting fin_maps.

Local Open Scope string_scope.
Local Open Scope Z_scope.
#[local] Set Warnings "-clear-no-such-hyp".

(** ** Python primitives used by the importer *)

Module Py.

(** Exceptions that can reach the importer's code. *)
Inductive exn : Type :=
| ValueError
| OverflowError
| KeyError
| RuntimeError
| DatabaseError.

Inductive result (A : Type) : Type :=
| Ok (a : A)
| Raise (e : exn).
Arguments Ok {A} a.
Arguments Raise {A} e.

Definition bind {A B} (m : result A) (k : A → result B) : result B :=
  match m with
  | Ok a => k a
  | Raise e => Raise e
  end.

#[global] Instance result_ret : MRet result := @Ok.
#[global] Instance result_bind : MBind result := λ A B k m, bind m k.

(** [try: m except ValueError: h] *)
Definition catch_ValueError {A} (m : result A) (h : result A) : result A :=
  match m with
  | Raise ValueError => h
  | _ => m
  end.

(** A scalar cell as the normalizers see it: they only test [is None],
    [pd.isna] and take [str(value)]. [PyObj s] is any other scalar whose
    [str()] is [s] (a string cell is its own [str()]). *)
Inductive value : Type :=
| PyNone
| PyNaN
| PyObj (str : string).

(** *** str.strip() and str.upper() *)

Definition isspace (c : ascii) : bool :=
  let n := N_of_ascii c in
  ((9 <=? n) && (n <=? 13) || (28 <=? n) && (n <=? 32))%N.

Fixpoint lstrip (s : string) : string :=
  match s with
  | EmptyString => EmptyString
  | String c s' => if isspace c then lstrip s' else s
  end.

Fixpoint rstrip (s : string) : string :=
  match s with
  | EmptyString => EmptyString
  | String c s' =>
      match rstrip s' with
      | EmptyString => if isspace c then EmptyString else String c EmptyString
      | r => String c r
      end
  end.

Definition strip (s : string) : string := rstrip (lstrip s).

Definition upper_char (c : ascii) : ascii :=
  let n := N_of_ascii c in
  if ((97 <=? n) && (n <=? 122))%N then ascii_of_N (n - 32) else c.

Definition lower_char (c : ascii) : ascii :=
  let n := N_of_ascii c in
  if ((65 <=? n) && (n <=? 90))%N then ascii_of_N (n + 32) else c.

Fixpoint upper (s : string) : string :=
  match s with
  | EmptyString => EmptyString
  | String c s' => String (upper_char c) (upper s')
  end.

Fixpoint lower (s : string) : string :=
  match s with
  | EmptyString => EmptyString
  | String c s' => String (lower_char c) (lower s')
  end.

(** Truthiness of a [str], of an [Optional[str]] and of an
    [Optional[int]]. *)
Definition truthy_str (s : string) : bool :=
  match s with EmptyString => false | _ => true end.

Definition truthy_opt_str (o : option string) : bool :=
  match o with Some s => truthy_str s | None => false end.

Definition truthy_opt_int (o : option Z) : bool :=
  match o with Some z => negb (z =? 0) | None => false end.

(** *** float(str) and int(float)

    A finite double is [m * 2^e] with a sign; [float] of a decimal
    literal is the literal's exact value rounded to nearest, ties to
    even, on 53 bits with exponents of binary64, overflowing to
    infinity. *)
Inductive float : Type :=
| FNan
| FInf (neg : bool)
| FFin (neg : bool) (m : Z) (e : Z).

Definition isdigit (c : ascii) : bool :=
  let n := N_of_ascii c in ((48 <=? n) && (n <=? 57))%N.

Definition digit_val (c : ascii) : Z := Z.of_N (N_of_ascii c) - 48.

Definition is_underscore (c : ascii) : bool := (N_of_ascii c =? 95)%N.

(** PEP 515: an underscore is accepted only between two digits; the
    accepted underscores are dropped before the literal is read. *)
Fixpoint drop_underscores (prev_digit : bool) (s : string) : option string :=
  match s with
  | EmptyString => Some EmptyString
  | String c s' =>
      if is_underscore c then
        match s' with
        | String d _ =>
            if prev_digit && isdigit d then drop_underscores false s' else None
        | EmptyString => None
        end
      else
        r ← drop_underscores (isdigit c) s'; Some (String c r)
  end.

(** Leading run of digits and the rest. *)
Fixpoint span_digits (s : string) : list ascii * string :=
  match s with
  | String c s' =>
      if isdigit c then let '(ds, r) := span_digits s' in (c :: ds, r)
      else ([], s)
  | EmptyString => ([], EmptyString)
  end.

Definition digits_val (ds : list ascii) : Z :=
  fold_left (λ acc c, 10 * acc + digit_val c) ds 0.

Definition take_sign (s : string) : bool * string :=
  match s with
  | String "-" s' => (true, s')
  | String "+" s' => (false, s')
  | _ => (false, s)
  end.

(** floor (log2 (n / d)) for positive [n] and [d]. *)
Definition binade (n d : Z) : Z :=
  let l := Z.log2 n - Z.log2 d in
  if d * 2 ^ Z.max 0 l <=? n * 2 ^ Z.max 0 (- l) then l else l - 1.

(** Quotient rounded to nearest, ties to even. *)
Definition div_half_even (n d : Z) : Z :=
  let q := n / d in
  let r := n mod d in
  match 2 * r ?= d with
  | Lt => q
  | Gt => q + 1
  | Eq => if Z.even q then q else q + 1
  end.

(** The double nearest to [n / d] (with [0 <= n], [0 < d]). *)
Definition round_double (neg : bool) (n d : Z) : float :=
  if n =? 0 then FFin neg 0 0
  else
    let e := Z.max (binade n d) (-1022) in
    let s := e - 52 in
    let m := div_half_even (n * 2 ^ Z.max 0 (- s)) (d * 2 ^ Z.max 0 s) in
    if m =? 0 then FFin neg 0 0
    else if 1024 <=? Z.log2 m + s then FInf neg
    else FFin neg m s.

(** The optional exponent part of a literal: [Some 0] when absent. *)
Definition read_exponent (s : string) : option Z :=
  match s with
  | EmptyString => Some 0
  | String c s' =>
      if (N_of_ascii (lower_char c) =? 101)%N then
        let '(eneg, s'') := take_sign s' in
        match span_digits s'' with
        | ((_ :: _) as ds, EmptyString) =>
            Some (if eneg then - digits_val ds else digits_val ds)
        | _ => None
        end
      else None
  end.

Definition read_decimal (neg : bool) (s : string) : option float :=
  let '(ip, r1) := span_digits s in
  let '(fp, r2) :=
    match r1 with
    | String "." r => span_digits r
    | _ => ([], r1)
    end in
  match (ip ++ fp)%list with
  | [] => None
  | ds =>
      x ← read_exponent r2;
      let e10 := x - Z.of_nat (length fp) in
      let n := digits_val ds in
      Some (if 0 <=? e10 then round_double neg (n * 10 ^ e10) 1
            else round_double neg n (10 ^ (- e10)))
  end.

Definition float_of_str (s : string) : result float :=
  match drop_underscores false s with
  | None => Raise ValueError
  | Some t =>
      let '(neg, body) := take_sign t in
      let low := lower body in
      if String.eqb low "inf" || String.eqb low "infinity" then Ok (FInf neg)
      else if String.eqb low "nan" then Ok FNan
      else match read_decimal neg body with
           | Some f => Ok f
           | None => Raise ValueError
           end
  end.

(** [int(f)]: truncation toward zero; NaN and the infinities raise. *)
Definition int_of_float (f : float) : result Z :=
  match f with
  | FNan => Raise ValueError
  | FInf _ => Raise OverflowError
  | FFin neg m e =>
      let a := if 0 <=? e then m * 2 ^ e else m / 2 ^ (- e) in
      Ok (if neg then - a else a)
  end.

End Py.

Import Py.

(** ** Row normalizer *)

Definition normalize_text (v : value) : string :=
  match v with
  | PyNone => ""
  | PyNaN => ""
  | PyObj s => strip s
  end.

Definition normalize_optional_text (v : value) : option string :=
  let normalized := normalize_text v in
  if truthy_str normalized then Some normalized else None.

Definition normalize_route_id (v : value) : string :=
  upper (normalize_text v).

Definition parse_int_or_none (v : value) : result (option Z) :=
  let normalized := normalize_text v in
  if negb (truthy_str normalized) then Ok None
  else
    catch_ValueError
      (f ← float_of_str normalized; z ← int_of_float f; Ok (Some z))
      (Ok None).

Definition parse_direction_id (v : value) : result Z :=
  let raw := upper (normalize_text v) in
  if negb (truthy_str raw) then Ok 0
  else if String.eqb raw "N" then Ok 0
  else if String.eqb raw "S" then Ok 1
  else
    parsed ← parse_int_or_none (PyObj raw);
    match parsed with
    | Some 0 => Ok 0
    | Some 1 => Ok 1
    | _ => Ok 0
    end.

Definition parse_numeric_or_none (v : value) : option string :=
  let normalized := normalize_text v in
  if negb (truthy_str normalized) then None
  else
    match float_of_str normalized with
    | Ok _ => Some normalized
    | Raise _ => None
    end.

(** ** Data model *)

(** A value of [station_map]. *)
Record station : Type := Station {
  stop_id : string;
  stop_name : string;
  stop_lat : option string;
  stop_lon : option string;
  parent_station : option string;
  child_stop_ids : gset string
}.

(** A value of [route_map]; the emitted route rows carry the same fields. *)
Record route : Type := Route {
  route_id : string;
  agency_id : option string;
  route_short_name : string;
  route_long_name : string;
  route_desc : option string;
  route_type : Z;
  route_url : option string;
  route_color : option string;
  route_text_color : option string;
  route_sort_order : option Z
}.

(** Key of [route_stop_map]: (route id, direction, station id). *)
Abbreviation route_stop_key := (string * Z * string)%type.

(** An emitted station row. *)
Record station_row : Type := StationRow {
  sr_stop_id : string;
  sr_stop_name : string;
  sr_stop_lat : option string;
  sr_stop_lon : option string;
  sr_parent_station : option string;
  sr_child_stop_ids_json : list string
}.

(** An emitted route-stop row. *)
Record route_stop_row : Type := RouteStopRow {
  rs_route_id : string;
  rs_direction_id : Z;
  rs_stop_id : string;
  rs_route_stop_sort_order : option Z
}.

(** A pandas frame: its column names and its rows; a cell that a row
    does not carry reads as a missing value. *)
Record DataFrame : Type := {
  df_columns : list string;
  df_rows : list (gmap string value)
}.

Definition cell (row : gmap string value) (column : string) : value :=
  default PyNaN (row !! column).

(** [if column not in df.columns: df[column] = None] *)
Definition default_column (column : string) (df : DataFrame) : DataFrame :=
  if decide (column ∈ df_columns df) then df
  else {| df_columns := (df_columns df ++ [column])%list;
          df_rows := (λ row, <[column := PyNone]> row) <$> df_rows df |}.

(** What [ptg.load_feed] hands to the pass. *)
Record Feed : Type := {
  stops : DataFrame;
  routes : DataFrame;
  trips : DataFrame;
  stop_times : DataFrame
}.

Definition MODE_DEFAULT_ROUTE_TYPE : list (string * Z) :=
  [("subway", 1); ("bus", 3); ("lirr", 2); ("mnr", 2)].

(** [MODE_DEFAULT_ROUTE_TYPE[mode]] *)
Definition default_route_type (mode : string) : result Z :=
  match list_find (λ kv, kv.1 = mode) MODE_DEFAULT_ROUTE_TYPE with
  | Some (_, (_, t)) => Ok t
  | None => Raise KeyError
  end.

Definition require_columns (df : DataFrame) (required : list string) : result unit :=
  match filter (λ column, column ∉ df_columns df) required with
  | [] => Ok tt
  | _ => Raise RuntimeError
  end.

(** ** Station clusterer: the loop over [stops_df] *)

(** [value or fallback] on strings. *)
Definition str_or (s fallback : string) : string :=
  if truthy_str s then s else fallback.

Definition station_id_of (mode raw_stop_id normalized_parent : string) : string :=
  if String.eqb mode "bus" then raw_stop_id
  else str_or normalized_parent raw_stop_id.

(** The [else] branch of [if station is None]: fill what is still empty. *)
Definition refresh_station (st : station) (normalized_name : string)
    (lat lon : value) : station :=
  {| stop_id := stop_id st;
     stop_name :=
       if negb (truthy_str (stop_name st)) || String.eqb (stop_name st) (stop_id st)
       then normalized_name else stop_name st;
     stop_lat :=
       match stop_lat st with
       | None => parse_numeric_or_none lat
       | Some x => Some x
       end;
     stop_lon :=
       match stop_lon st with
       | None => parse_numeric_or_none lon
       | Some x => Some x
       end;
     parent_station := parent_station st;
     child_stop_ids := child_stop_ids st |}.

Definition add_child (mode raw_stop_id : string) (st : station) : station :=
  if String.eqb mode "bus" then st
  else {| stop_id := stop_id st;
          stop_name := stop_name st;
          stop_lat := stop_lat st;
          stop_lon := stop_lon st;
          parent_station := parent_station st;
          child_stop_ids := {[raw_stop_id]} ∪ child_stop_ids st |}.

Abbreviation stop_tuple := (value * value * value * value * value)%type.

(** One iteration over (stop_id, stop_name, stop_lat, stop_lon,
    parent_station); the state is [station_map] and the dataset's
    [raw_stop_to_station]. *)
Definition process_stop_row (mode : string)
    (acc : gmap string station * gmap string string) (row : stop_tuple)
    : gmap string station * gmap string string :=
  let '(station_map, raw_stop_to_station) := acc in
  let '(sid, sname, slat, slon, sparent) := row in
  let raw_stop_id := normalize_text sid in
  if negb (truthy_str raw_stop_id) then acc
  else
    let normalized_name := str_or (normalize_text sname) raw_stop_id in
    let normalized_parent := normalize_text sparent in
    let station_id := station_id_of mode raw_stop_id normalized_parent in
    let raw_stop_to_station := <[raw_stop_id := station_id]> raw_stop_to_station in
    let st :=
      match station_map !! station_id with
      | None =>
          {| stop_id := station_id;
             stop_name := normalized_name;
             stop_lat := parse_numeric_or_none slat;
             stop_lon := parse_numeric_or_none slon;
             parent_station :=
               if truthy_str normalized_parent then Some normalized_parent else None;
             child_stop_ids := ∅ |}
      | Some st => refresh_station st normalized_name slat slon
      end in
    (<[station_id := add_child mode raw_stop_id st]> station_map, raw_stop_to_station).

Definition stops_loop (mode : string) (station_map : gmap string station)
    (rows : list stop_tuple) : gmap string station * gmap string string :=
  fold_left (process_stop_row mode) rows (station_map, ∅).

(** ** Route merger: the loop over [routes_df] *)

Abbreviation route_tuple :=
  (value * value * value * value * value * value * value * value * value * value)%type.

(** The [incoming] dict of one route row, fields evaluated in source
    order. *)
Definition incoming_route (mode normalized_route_id : string) (row : route_tuple)
    : result route :=
  let '(_, agency, short, long, desc, rtype, url, color, text_color, sort_order) := row in
  parsed_type ← parse_int_or_none rtype;
  rt ← (if truthy_opt_int parsed_type then Ok (default 0 parsed_type)
        else default_route_type mode);
  so ← parse_int_or_none sort_order;
  Ok {| route_id := normalized_route_id;
        agency_id := normalize_optional_text agency;
        route_short_name := normalize_text short;
        route_long_name := normalize_text long;
        route_desc := normalize_optional_text desc;
        route_type := rt;
        route_url := normalize_optional_text url;
        route_color := normalize_optional_text color;
        route_text_color := normalize_optional_text text_color;
        route_sort_order := so |}.

(** [if not existing[f] and incoming[f]: existing[f] = incoming[f]] *)
Definition keep_opt (existing incoming : option string) : option string :=
  if negb (truthy_opt_str existing) && truthy_opt_str incoming then incoming
  else existing.

Definition keep_str (existing incoming : string) : string :=
  if negb (truthy_str existing) && truthy_str incoming then incoming
  else existing.

(** The [else] branch of [if existing is None], with the mode default
    [d] already looked up. *)
Definition merge_fields (d : Z) (existing incoming : route) : route :=
  {| route_id := route_id existing;
     agency_id := keep_opt (agency_id existing) (agency_id incoming);
     route_short_name := keep_str (route_short_name existing) (route_short_name incoming);
     route_long_name := keep_str (route_long_name existing) (route_long_name incoming);
     route_desc := keep_opt (route_desc existing) (route_desc incoming);
     route_type :=
       if (route_type existing =? d) && negb (route_type incoming =? d)
       then route_type incoming else route_type existing;
     route_url := keep_opt (route_url existing) (route_url incoming);
     route_color := keep_opt (route_color existing) (route_color incoming);
     route_text_color := keep_opt (route_text_color existing) (route_text_color incoming);
     route_sort_order :=
       match route_sort_order existing with
       | None => route_sort_order incoming
       | Some x => Some x
       end |}.

Definition merge_route (mode : string) (existing incoming : route) : result route :=
  d ← default_route_type mode;
  Ok (merge_fields d existing incoming).

Definition process_route_row (mode : string) (route_map : gmap string route)
    (row : route_tuple) : result (gmap string route) :=
  let normalized_route_id := normalize_route_id (row.1.1.1.1.1.1.1.1.1) in
  if negb (truthy_str normalized_route_id) then Ok route_map
  else
    incoming ← incoming_route mode normalized_route_id row;
    match route_map !! normalized_route_id with
    | None => Ok (<[normalized_route_id := incoming]> route_map)
    | Some existing =>
        merged ← merge_route mode existing incoming;
        Ok (<[normalized_route_id := merged]> route_map)
    end.

(** A [for] loop whose body can raise. *)
Fixpoint for_each {S R : Type} (body : S → R → result S) (rows : list R) (s : S)
    : result S :=
  match rows with
  | [] => Ok s
  | row :: rows' => s' ← body s row; for_each body rows' s'
  end.

Definition routes_loop (mode : string) (route_map : gmap string route)
    (rows : list route_tuple) : result (gmap string route) :=
  for_each (process_route_row mode) rows route_map.

(** ** Route-stop sequencer: the loops over [trips_df] and [stop_times_df] *)

Abbreviation trip_tuple := (value * value * value)%type.

Definition process_trip_row (trip_map : gmap string (string * Z)) (row : trip_tuple)
    : result (gmap string (string * Z)) :=
  let '(tid, rid, direction) := row in
  let normalized_trip_id := normalize_text tid in
  let normalized_route_id := normalize_route_id rid in
  if negb (truthy_str normalized_trip_id) || negb (truthy_str normalized_route_id)
  then Ok trip_map
  else
    d ← parse_direction_id direction;
    Ok (<[normalized_trip_id := (normalized_route_id, d)]> trip_map).

Definition trips_loop (rows : list trip_tuple) : result (gmap string (string * Z)) :=
  for_each process_trip_row rows ∅.

(** [route_stop_map.get(key)]: an absent key and a stored [None] read
    alike. *)
Definition get_sequence (route_stop_map : gmap route_stop_key (option Z))
    (key : route_stop_key) : option Z :=
  mjoin (route_stop_map !! key).

(** The minimum-preferring update of one assignment. *)
Definition update_sequence (route_stop_map : gmap route_stop_key (option Z))
    (key : route_stop_key) (next_sequence : option Z)
    : gmap route_stop_key (option Z) :=
  match get_sequence route_stop_map key with
  | None => <[key := next_sequence]> route_stop_map
  | Some existing_sequence =>
      match next_sequence with
      | Some n =>
          if n <? existing_sequence then <[key := Some n]> route_stop_map
          else route_stop_map
      | None => route_stop_map
      end
  end.

(** What the stop-times loop reads but does not change. *)
Record lookups : Type := {
  lk_station_map : gmap string station;
  lk_raw_stop_to_station : gmap string string;
  lk_trip_map : gmap string (string * Z)
}.

(** What the stop-times loop changes. *)
Record sequencer : Type := {
  route_stop_map : gmap route_stop_key (option Z);
  missing_trip_refs : nat;
  missing_stop_ids : gset string
}.

Abbreviation stop_time_tuple := (value * value * value)%type.

Definition process_stop_time_row (lk : lookups) (sq : sequencer) (row : stop_time_tuple)
    : result sequencer :=
  let '(tid, sid, stop_sequence) := row in
  let normalized_trip_id := normalize_text tid in
  let raw_stop_id := normalize_text sid in
  if negb (truthy_str normalized_trip_id) || negb (truthy_str raw_stop_id) then Ok sq
  else
    match lk_trip_map lk !! normalized_trip_id with
    | None =>
        Ok {| route_stop_map := route_stop_map sq;
              missing_trip_refs := S (missing_trip_refs sq);
              missing_stop_ids := missing_stop_ids sq |}
    | Some (route_id_value, direction_id_value) =>
        let station_stop_id :=
          default raw_stop_id (lk_raw_stop_to_station lk !! raw_stop_id) in
        match lk_station_map lk !! station_stop_id with
        | None =>
            Ok {| route_stop_map := route_stop_map sq;
                  missing_trip_refs := missing_trip_refs sq;
                  missing_stop_ids := {[raw_stop_id]} ∪ missing_stop_ids sq |}
        | Some _ =>
            let route_stop_key := (route_id_value, direction_id_value, station_stop_id) in
            next_sequence ← parse_int_or_none stop_sequence;
            Ok {| route_stop_map :=
                    update_sequence (route_stop_map sq) route_stop_key next_sequence;
                  missing_trip_refs := missing_trip_refs sq;
                  missing_stop_ids := missing_stop_ids sq |}
        end
    end.

Definition stop_times_loop (lk : lookups) (sq : sequencer) (rows : list stop_time_tuple)
    : result sequencer :=
  for_each (process_stop_time_row lk) rows sq.

(** ** One dataset of the pass *)

(** The accumulators of [process_mode] that live across datasets. *)
Record pass : Type := {
  station_map : gmap string station;
  route_map : gmap string route;
  seq_state : sequencer
}.

Definition initial_pass : pass :=
  {| station_map := ∅;
     route_map := ∅;
     seq_state := {| route_stop_map := ∅; missing_trip_refs := 0%nat; missing_stop_ids := ∅ |} |}.

(** [df[[c1, ..., cn]].itertuples(index=False, name=None)] for the four
    frames. *)
Definition stop_tuples (df : DataFrame) : list stop_tuple :=
  (λ r, (cell r "stop_id", cell r "stop_name", cell r "stop_lat", cell r "stop_lon",
         cell r "parent_station")) <$> df_rows df.

Definition route_tuples (df : DataFrame) : list route_tuple :=
  (λ r, (cell r "route_id", cell r "agency_id", cell r "route_short_name",
         cell r "route_long_name", cell r "route_desc", cell r "route_type",
         cell r "route_url", cell r "route_color", cell r "route_text_color",
         cell r "route_sort_order")) <$> df_rows df.

Definition trip_tuples (df : DataFrame) : list trip_tuple :=
  (λ r, (cell r "trip_id", cell r "route_id", cell r "direction_id")) <$> df_rows df.

Definition stop_time_tuples (df : DataFrame) : list stop_time_tuple :=
  (λ r, (cell r "trip_id", cell r "stop_id", cell r "stop_sequence")) <$> df_rows df.

Definition optional_stop_columns : list string :=
  ["stop_lat"; "stop_lon"; "parent_station"].

Definition optional_route_columns : list string :=
  ["agency_id"; "route_short_name"; "route_long_name"; "route_desc"; "route_type";
   "route_url"; "route_color"; "route_text_color"; "route_sort_order"].

Definition default_columns (columns : list string) (df : DataFrame) : DataFrame :=
  fold_left (λ d c, default_column c d) columns df.

(** The body of [for dataset_dir in dataset_dirs], on the loaded feed. *)
Definition process_dataset (mode : string) (p : pass) (feed : Feed) : result pass :=
  _ ← require_columns (stops feed) ["stop_id"; "stop_name"];
  _ ← require_columns (routes feed) ["route_id"];
  _ ← require_columns (trips feed) ["trip_id"; "route_id"];
  _ ← require_columns (stop_times feed) ["trip_id"; "stop_id"];
  let stops_df := default_columns optional_stop_columns (stops feed) in
  let routes_df := default_columns optional_route_columns (routes feed) in
  let trips_df := default_column "direction_id" (trips feed) in
  let stop_times_df := default_column "stop_sequence" (stop_times feed) in
  let '(station_map', raw_stop_to_station) :=
    stops_loop mode (station_map p) (stop_tuples stops_df) in
  route_map' ← routes_loop mode (route_map p) (route_tuples routes_df);
  trip_map ← trips_loop (trip_tuples trips_df);
  sq ← stop_times_loop
          {| lk_station_map := station_map';
             lk_raw_stop_to_station := raw_stop_to_station;
             lk_trip_map := trip_map |}
          (seq_state p) (stop_time_tuples stop_times_df);
  Ok {| station_map := station_map'; route_map := route_map'; seq_state := sq |}.

(** ** Emission: [sorted] and the three row sets *)

(** [sorted(l, key=...)] as a stable insertion sort; [le] compares the
    keys of two elements. *)
Fixpoint insert_sorted {A : Type} (le : A → A → bool) (x : A) (l : list A) : list A :=
  match l with
  | [] => [x]
  | y :: l' => if le x y then x :: y :: l' else y :: insert_sorted le x l'
  end.

Definition sorted {A : Type} (le : A → A → bool) (l : list A) : list A :=
  foldr (insert_sorted le) [] l.

Abbreviation sort_key := (string * Z * Z * string)%type.

(** Order of Python tuples [(str, int, int, str)]: lexicographic. *)
Definition sort_key_compare (a b : sort_key) : comparison :=
  let '(r1, d1, s1, t1) := a in
  let '(r2, d2, s2, t2) := b in
  match String.compare r1 r2 with
  | Eq =>
      match d1 ?= d2 with
      | Eq =>
          match s1 ?= s2 with
          | Eq => String.compare t1 t2
          | c => c
          end
      | c => c
      end
  | c => c
  end.

Definition sort_key_leb (a b : sort_key) : bool :=
  match sort_key_compare a b with Gt => false | _ => true end.

Definition route_stop_sort_key (item : route_stop_key * option Z) : sort_key :=
  let '((route_id, direction_id, stop_id), stop_sequence) := item in
  let sequence := match stop_sequence with Some s => s | None => 2 ^ 31 - 1 end in
  (route_id, direction_id, sequence, stop_id).

Definition emit_station (mode : string) (st : station) : station_row :=
  let child_ids :=
    if String.eqb mode "bus" then []
    else
      match sorted String.leb (elements (child_stop_ids st)) with
      | [] => [stop_id st]
      | ids => ids
      end in
  {| sr_stop_id := stop_id st;
     sr_stop_name := str_or (stop_name st) (stop_id st);
     sr_stop_lat := stop_lat st;
     sr_stop_lon := stop_lon st;
     sr_parent_station := parent_station st;
     sr_child_stop_ids_json := child_ids |}.

Definition emit_stations (mode : string) (station_map : gmap string station)
    : list station_row :=
  emit_station mode <$>
    sorted (λ a b, String.leb (stop_id a) (stop_id b)) (map_to_list station_map).*2.

Definition emit_routes (route_map : gmap string route) : list route :=
  sorted (λ a b, String.leb (route_id a) (route_id b)) (map_to_list route_map).*2.

Definition emit_route_stop (item : route_stop_key * option Z) : route_stop_row :=
  let '((route_id, direction_id, stop_id), stop_sequence) := item in
  {| rs_route_id := route_id;
     rs_direction_id := direction_id;
     rs_stop_id := stop_id;
     rs_route_stop_sort_order := stop_sequence |}.

Definition sorted_route_stops (route_stop_map : gmap route_stop_key (option Z))
    : list (route_stop_key * option Z) :=
  sorted (λ a b, sort_key_leb (route_stop_sort_key a) (route_stop_sort_key b))
         (map_to_list route_stop_map).

Definition emit_route_stops (route_stop_map : gmap route_stop_key (option Z))
    : list route_stop_row :=
  emit_route_stop <$> sorted_route_stops route_stop_map.

Record counts : Type := {
  c_stations : nat;
  c_routes : nat;
  c_routeStops : nat
}.

Record warnings : Type := {
  missingTripRefs : nat;
  missingStopRefs : nat;
  sampleMissingStopIds : list string
}.

(** The dict returned by [process_mode]. *)
Record mode_result : Type := {
  res_counts : counts;
  res_warnings : warnings;
  res_missing_stop_ids : gset string;
  stations_rows : list station_row;
  routes_rows : list route;
  route_stops_rows : list route_stop_row
}.

Definition report_warnings (missing_trip_refs : nat) (missing_stop_ids : gset string)
    : warnings :=
  {| missingTripRefs := missing_trip_refs;
     missingStopRefs := size missing_stop_ids;
     sampleMissingStopIds := take 50 (sorted String.leb (elements missing_stop_ids)) |}.

Definition emit (mode : string) (p : pass) : mode_result :=
  let stations_rows := emit_stations mode (station_map p) in
  let routes_rows := emit_routes (route_map p) in
  let route_stops_rows := emit_route_stops (route_stop_map (seq_state p)) in
  {| res_counts :=
       {| c_stations := length stations_rows;
          c_routes := length routes_rows;
          c_routeStops := length route_stops_rows |};
     res_warnings :=
       report_warnings (missing_trip_refs (seq_state p)) (missing_stop_ids (seq_state p));
     res_missing_stop_ids := missing_stop_ids (seq_state p);
     stations_rows := stations_rows;
     routes_rows := routes_rows;
     route_stops_rows := route_stops_rows |}.

Definition process_mode (mode : string) (datasets : list Feed) : result mode_result :=
  p ← for_each (process_dataset mode) datasets initial_pass;
  Ok (emit mode p).

(** ** The sink: one psycopg2 transaction *)

(** The twelve tables, by mode name; a table that was never written reads
    as empty. The [imported_at] column (a wall-clock default) is left out. *)
Record database : Type := {
  db_stations : gmap string (list station_row);
  db_routes : gmap string (list route);
  db_route_stops : gmap string (list route_stop_row)
}.

Definition table {A : Type} (tables : gmap string (list A)) (mode : string) : list A :=
  default [] (tables !! mode).

Definition MODES : list string := ["subway"; "bus"; "lirr"; "mnr"].

(** A cursor inside the open transaction: the uncommitted contents and
    the number of statements executed so far. *)
Record cursor : Type := {
  working : database;
  executed : nat
}.

Section Sink.

(** Whether the server rejects the statement executed at this position
    against this table (constraint violation, lost connection, ...):
    decided by the environment. *)
Variable fails : nat → string → bool.

(** [cursor.execute] / [execute_values]: on rejection the statement
    raises and changes nothing. *)
Definition execute (target : string) (effect : database → database) (c : cursor)
    : result cursor :=
  if fails (executed c) target then Raise DatabaseError
  else Ok {| working := effect (working c); executed := S (executed c) |}.

Definition execute_values_if_rows {R : Type} (target : string) (rows : list R)
    (effect : database → database) (c : cursor) : result cursor :=
  match rows with
  | [] => Ok c
  | _ => execute target effect c
  end.

(** [TRUNCATE TABLE] over the twelve tables. *)
Definition clear_mta_tables (c : cursor) : result cursor :=
  execute "TRUNCATE"
    (λ _, {| db_stations := list_to_map ((., []) <$> MODES);
             db_routes := list_to_map ((., []) <$> MODES);
             db_route_stops := list_to_map ((., []) <$> MODES) |}) c.

Definition insert_rows {A : Type} (mode : string) (rows : list A)
    (tables : gmap string (list A)) : gmap string (list A) :=
  <[mode := (table tables mode ++ rows)%list]> tables.

Definition insert_non_bus_mode (mode : string) (res : mode_result) (c : cursor)
    : result cursor :=
  c ← execute_values_if_rows ("mta_" +:+ mode +:+ "_stations") (stations_rows res)
        (λ d, {| db_stations := insert_rows mode (stations_rows res) (db_stations d);
                 db_routes := db_routes d;
                 db_route_stops := db_route_stops d |}) c;
  c ← execute_values_if_rows ("mta_" +:+ mode +:+ "_routes") (routes_rows res)
        (λ d, {| db_stations := db_stations d;
                 db_routes := insert_rows mode (routes_rows res) (db_routes d);
                 db_route_stops := db_route_stops d |}) c;
  execute_values_if_rows ("mta_" +:+ mode +:+ "_route_stops") (route_stops_rows res)
        (λ d, {| db_stations := db_stations d;
                 db_routes := db_routes d;
                 db_route_stops :=
                   insert_rows mode (route_stops_rows res) (db_route_stops d) |}) c.

(** [INSERT ... ON CONFLICT]: the row that conflicts with [new] is
    rewritten by [resolve old new], a row without conflict is added. *)
Fixpoint upsert {A : Type} (conflict : A → A → bool) (resolve : A → A → A)
    (new : A) (rows : list A) : list A :=
  match rows with
  | [] => [new]
  | old :: rows' =>
      if conflict old new then resolve old new :: rows'
      else old :: upsert conflict resolve new rows'
  end.

Definition upsert_rows {A : Type} (conflict : A → A → bool) (resolve : A → A → A)
    (news : list A) (tables : gmap string (list A)) : gmap string (list A) :=
  <["bus" := fold_left (λ t new, upsert conflict resolve new t) news (table tables "bus")]>
    tables.

(** [COALESCE(EXCLUDED.x, table.x)] *)
Definition coalesce {A : Type} (excluded current : option A) : option A :=
  match excluded with Some x => Some x | None => current end.

(** [COALESCE(NULLIF(EXCLUDED.x, ''), table.x)] on a text column. *)
Definition coalesce_nullif (excluded current : string) : string :=
  match excluded with EmptyString => current | _ => excluded end.

Definition upsert_station (old new : station_row) : station_row :=
  {| sr_stop_id := sr_stop_id old;
     sr_stop_name := sr_stop_name new;
     sr_stop_lat := coalesce (sr_stop_lat new) (sr_stop_lat old);
     sr_stop_lon := coalesce (sr_stop_lon new) (sr_stop_lon old);
     sr_parent_station := coalesce (sr_parent_station new) (sr_parent_station old);
     sr_child_stop_ids_json := sr_child_stop_ids_json new |}.

Definition upsert_route (old new : route) : route :=
  {| route_id := route_id old;
     agency_id := coalesce (agency_id new) (agency_id old);
     route_short_name := coalesce_nullif (route_short_name new) (route_short_name old);
     route_long_name := coalesce_nullif (route_long_name new) (route_long_name old);
     route_desc := coalesce (route_desc new) (route_desc old);
     route_type := route_type new;
     route_url := coalesce (route_url new) (route_url old);
     route_color := coalesce (route_color new) (route_color old);
     route_text_color := coalesce (route_text_color new) (route_text_color old);
     route_sort_order := coalesce (route_sort_order new) (route_sort_order old) |}.

(** Modelled from the spec: the SQL schema is not among the sources; the
    assignment upsert is insert-or-ignore on the assignment key
    (route id, direction, station id), first writer wins. *)
Definition same_assignment (old new : route_stop_row) : bool :=
  String.eqb (rs_route_id old) (rs_route_id new)
  && (rs_direction_id old =? rs_direction_id new)
  && String.eqb (rs_stop_id old) (rs_stop_id new).

Definition upsert_bus_mode (res : mode_result) (c : cursor) : result cursor :=
  c ← execute_values_if_rows "mta_bus_stations" (stations_rows res)
        (λ d, {| db_stations :=
                   upsert_rows (λ old new, String.eqb (sr_stop_id old) (sr_stop_id new))
                     upsert_station (stations_rows res) (db_stations d);
                 db_routes := db_routes d;
                 db_route_stops := db_route_stops d |}) c;
  c ← execute_values_if_rows "mta_bus_routes" (routes_rows res)
        (λ d, {| db_stations := db_stations d;
                 db_routes :=
                   upsert_rows (λ old new, String.eqb (route_id old) (route_id new))
                     upsert_route (routes_rows res) (db_routes d);
                 db_route_stops := db_route_stops d |}) c;
  execute_values_if_rows "mta_bus_route_stops" (route_stops_rows res)
        (λ d, {| db_stations := db_stations d;
                 db_routes := db_routes d;
                 db_route_stops :=
                   upsert_rows same_assignment (λ old _, old) (route_stops_rows res)
                     (db_route_stops d) |}) c.

(** The cumulative bus counters of [main]. *)
Record bus_totals : Type := {
  bus_station_ids : gset string;
  bus_route_ids : gset string;
  bus_route_stop_keys : gset route_stop_key;
  bus_missing_stop_ids : gset string;
  bus_missing_trip_refs : nat
}.

Definition bus_step (acc : cursor * bus_totals) (feed : Feed)
    : result (cursor * bus_totals) :=
  let '(c, t) := acc in
  bus ← process_mode "bus" [feed];
  c ← upsert_bus_mode bus c;
  Ok (c,
      {| bus_station_ids :=
           list_to_set (sr_stop_id <$> stations_rows bus) ∪ bus_station_ids t;
         bus_route_ids :=
           list_to_set (route_id <$> routes_rows bus) ∪ bus_route_ids t;
         bus_route_stop_keys :=
           list_to_set ((λ r, (rs_route_id r, rs_direction_id r, rs_stop_id r))
                          <$> route_stops_rows bus) ∪ bus_route_stop_keys t;
         bus_missing_stop_ids := res_missing_stop_ids bus ∪ bus_missing_stop_ids t;
         bus_missing_trip_refs :=
           (bus_missing_trip_refs t + missingTripRefs (res_warnings bus))%nat |}).

(** The [counts] and [warnings] dicts printed by [main]. *)
Record report : Type := {
  rep_counts : gmap string counts;
  rep_warnings : gmap string warnings
}.

(** The block under [with conn.cursor() as cursor]. *)
Definition main_body (subway lirr mnr : Feed) (bus_feeds : list Feed) (c : cursor)
    : result (cursor * report) :=
  c ← clear_mta_tables c;
  r_subway ← process_mode "subway" [subway];
  c ← insert_non_bus_mode "subway" r_subway c;
  r_lirr ← process_mode "lirr" [lirr];
  c ← insert_non_bus_mode "lirr" r_lirr c;
  r_mnr ← process_mode "mnr" [mnr];
  c ← insert_non_bus_mode "mnr" r_mnr c;
  '(c, t) ← for_each bus_step bus_feeds
              (c, {| bus_station_ids := ∅; bus_route_ids := ∅; bus_route_stop_keys := ∅;
                     bus_missing_stop_ids := ∅; bus_missing_trip_refs := 0%nat |});
  Ok (c,
      {| rep_counts :=
           <["bus" := {| c_stations := size (bus_station_ids t);
                         c_routes := size (bus_route_ids t);
                         c_routeStops := size (bus_route_stop_keys t) |}]>
           (<["mnr" := res_counts r_mnr]>
           (<["lirr" := res_counts r_lirr]>
           (<["subway" := res_counts r_subway]> ∅)));
         rep_warnings :=
           <["bus" := report_warnings (bus_missing_trip_refs t) (bus_missing_stop_ids t)]>
           (<["mnr" := res_warnings r_mnr]>
           (<["lirr" := res_warnings r_lirr]>
           (<["subway" := res_warnings r_subway]> ∅))) |}).

(** [with conn:] with [autocommit = False]: the block's statements are
    committed together when it ends normally and rolled back together
    when it raises; the exception then propagates. *)
Definition with_conn {A : Type} (body : cursor → result (cursor * A))
    (committed : database) : database * result A :=
  match body {| working := committed; executed := 0%nat |} with
  | Ok (c, a) => (working c, Ok a)
  | Raise e => (committed, Raise e)
  end.

(** [main], from the resolved datasets on: the database the run leaves
    behind and the report or the exception. *)
Definition main (subway lirr mnr : Feed) (bus_feeds : list Feed) (db : database)
    : database * result report :=
  match bus_feeds with
  | [] => (db, Raise RuntimeError)
  | _ => with_conn (main_body subway lirr mnr bus_feeds) db
  end.

End Sink.

(** ** Orders used to state the emission order *)

(** A comparison function that decides a strict total order. *)
Class CmpOrder {A : Type} (cmp : A → A → comparison) : Prop := {
  cmp_eq a b : cmp a b = Eq → a = b;
  cmp_refl a : cmp a a = Eq;
  cmp_antisym a b : cmp a b = CompOpp (cmp b a);
  cmp_trans a b c : cmp a b = Lt → cmp b c = Lt → cmp a c = Lt
}.

Definition cmp_leb {A : Type} (cmp : A → A → comparison) (a b : A) : bool :=
  match cmp a b with Gt => false | _ => true end.

Definition lex_compare {A B : Type} (cmpA : A → A → comparison)
    (cmpB : B → B → comparison) (x y : A * B) : comparison :=
  match cmpA x.1 y.1 with
  | Eq => cmpB x.2 y.2
  | c => c
  end.

(** Order of two Python strings: by code points. *)
Definition str_lt (a b : string) : Prop := String.compare a b = Lt.

(** The strict lexicographic order on emitted assignment rows by
    (route id, direction, sequence, station id), for a given reading
    [seq_lt]/[seq_eq] of the order on nullable sequences. *)
Definition assignment_lt (seq_lt seq_eq : option Z → option Z → Prop)
    (a b : route_stop_row) : Prop :=
  str_lt (rs_route_id a) (rs_route_id b)
  ∨ rs_route_id a = rs_route_id b
    ∧ (rs_direction_id a < rs_direction_id b
       ∨ rs_direction_id a = rs_direction_id b
         ∧ (seq_lt (rs_route_stop_sort_order a) (rs_route_stop_sort_order b)
            ∨ seq_eq (rs_route_stop_sort_order a) (rs_route_stop_sort_order b)
              ∧ str_lt (rs_stop_id a) (rs_stop_id b))).

(** An absent sequence read as the value [2^31 - 1]. *)
Definition sentinel (o : option Z) : Z := default (2 ^ 31 - 1) o.

Definition assignment_lt_sentinel : relation route_stop_row :=
  assignment_lt (λ a b, sentinel a < sentinel b) (λ a b, sentinel a = sentinel b).

(** An absent sequence read as +infinity: after every concrete value. *)
Definition seq_lt_inf (a b : option Z) : Prop :=
  match a, b with
  | Some x, Some y => x < y
  | Some _, None => True
  | None, _ => False
  end.

Definition assignment_lt_inf : relation route_stop_row :=
  assignment_lt seq_lt_inf eq.

(** ** Invariants of a pass *)

(** A station map grows: stations stay, child sets only gain members. *)
Definition station_le (sm sm' : gmap string station) : Prop :=
  ∀ k st, sm !! k = Some st →
    ∃ st', sm' !! k = Some st' ∧ child_stop_ids st ⊆ child_stop_ids st'.

(** Every station is stored under its own id. *)
Definition keyed (sm : gmap string station) : Prop :=
  ∀ k st, sm !! k = Some st → stop_id st = k.

(** Every assignment key names a station of the station map. *)
Definition references_ok (sm : gmap string station)
    (rsm : gmap route_stop_key (option Z)) : Prop :=
  ∀ key v, rsm !! key = Some v → is_Some (sm !! key.2).

(** ** Vocabulary of the route merge and of the sequencer *)

(** Emptiness of an optional text field: absent or the empty string. *)
Definition empty_opt (o : option string) : Prop := o = None ∨ o = Some "".

(** The assignment key a stop-time row updates, when it gets that far:
    both ids present, the trip known, the station known. *)
Definition resolve (lk : lookups) (row : stop_time_tuple) : option route_stop_key :=
  let '(tid, sid, _) := row in
  let normalized_trip_id := normalize_text tid in
  let raw_stop_id := normalize_text sid in
  if negb (truthy_str normalized_trip_id) || negb (truthy_str raw_stop_id) then None
  else
    '(route_id_value, direction_id_value) ← lk_trip_map lk !! normalized_trip_id;
    let station_stop_id :=
      default raw_stop_id (lk_raw_stop_to_station lk !! raw_stop_id) in
    _ ← lk_station_map lk !! station_stop_id;
    Some (route_id_value, direction_id_value, station_stop_id).

(** The concrete sequence values that the rows bring for [key]. *)
Definition observed (lk : lookups) (key : route_stop_key) (rows : list stop_time_tuple)
    : list Z :=
  rows ≫= λ row,
    if decide (resolve lk row = Some key) then
      match parse_int_or_none row.2 with
      | Ok (Some n) => [n]
      | _ => []
      end
    else [].

(** Minimum of two nullable sequences, null being no information. *)
Definition min_seq (a b : option Z) : option Z :=
  match a, b with
  | Some x, Some y => Some (Z.min x y)
  | Some x, None => Some x
  | None, _ => b
  end.

Definition minimum (l : list Z) : option Z := foldr (λ x, min_seq (Some x)) None l.

(** Whether a stop-time row counts as a missing trip reference: both ids
    present, trip id unknown. *)
Definition missing_trip (lk : lookups) (row : stop_time_tuple) : bool :=
  let '(tid, sid, _) := row in
  truthy_str (normalize_text tid) && truthy_str (normalize_text sid)
  && bool_decide (lk_trip_map lk !! normalize_text tid = None).

(** The raw stop id a stop-time row reports as missing: both ids present,
    trip known, station unknown. *)
Definition missing_stop (lk : lookups) (row : stop_time_tuple) : option string :=
  let '(tid, sid, _) := row in
  let raw_stop_id := normalize_text sid in
  if truthy_str (normalize_text tid) && truthy_str raw_stop_id
     && bool_decide (is_Some (lk_trip_map lk !! normalize_text tid))
     && bool_decide (lk_station_map lk
                       !! default raw_stop_id (lk_raw_stop_to_station lk !! raw_stop_id)
                     = None)
  then Some raw_stop_id else None.

(** ** Readings of the sink *)

(** The three tables of one mode. *)
Definition view (d : database) (mode : string)
    : list station_row * list route * list route_stop_row :=
  (table (db_stations d) mode, table (db_routes d) mode, table (db_route_stops d) mode).

Definition rows_of (res : mode_result)
    : list station_row * list route * list route_stop_row :=
  (stations_rows res, routes_rows res, route_stops_rows res).

(** "A row whose normalized trip id is absent from the trip table
    increments the missing-trip-reference counter by exactly one and
    produces no assignment", read for every row. *)
Definition counts_unknown_trip (lk : lookups) (sq : sequencer) (row : stop_time_tuple)
    : Prop :=
  lk_trip_map lk !! normalize_text row.1.1 = None →
  ∃ sq', process_stop_time_row lk sq row = Ok sq'
         ∧ missing_trip_refs sq' = S (missing_trip_refs sq)
         ∧ route_stop_map sq' = route_stop_map sq.

(** "When a later mode's write fails, the successful writes of earlier
    modes remain committed", read for the subway write. *)
Definition subway_write_survives (fails : nat → string → bool)
    (subway lirr mnr : Feed) (bus_feeds : list Feed) (db : database) : Prop :=
  ∀ r c,
    process_mode "subway" [subway] = Ok r →
    clear_mta_tables fails {| working := db; executed := 0%nat |}
      ≫= insert_non_bus_mode fails "subway" r = Ok c →
    (main fails subway lirr mnr bus_feeds db).2 = Raise DatabaseError →
    view (main fails subway lirr mnr bus_feeds db).1 "subway" = rows_of r.

(** ** Example data *)

(** Rows built from literal cells. *)
Definition mkrow (cells : list (string * string)) : gmap string value :=
  list_to_map (prod_map id PyObj <$> cells).

Definition frame (columns : list string) (rows : list (list string)) : DataFrame :=
  {| df_columns := columns;
     df_rows := (λ cells, mkrow (zip columns cells)) <$> rows |}.

(** A subway bundle: two platforms of station 101, one plain station,
    one route given twice, three trips' worth of stop times. *)
Definition demo_feed : Feed :=
  {| stops := frame ["stop_id"; "stop_name"; "parent_station"]
       [["101N"; "Times Sq"; "101"];
        ["101S"; ""; "101"];
        ["201"; "Wall St"; ""]];
     routes := frame ["route_id"; "route_long_name"; "route_type"; "route_sort_order"]
       [["a"; ""; ""; "0"];
        ["A"; "8 Avenue Express"; "1"; "7"]];
     trips := frame ["trip_id"; "route_id"; "direction_id"]
       [["T1"; "A"; "N"];
        ["T2"; "a"; "0"]];
     stop_times := frame ["trip_id"; "stop_id"; "stop_sequence"]
       [["T1"; "101N"; "3"];
        ["T2"; "101S"; "1"];
        ["T1"; "201"; ""];
        ["T9"; "201"; "4"];
        ["T1"; "999"; "5"]] |}.

(** A bundle whose only open-ended stop sequence sits next to a
    sequence number beyond [2^31 - 1]. *)
Definition large_sequence_feed : Feed :=
  {| stops := frame ["stop_id"; "stop_name"] [["X"; "First"]; ["Y"; "Second"]];
     routes := frame ["route_id"] [["A"]];
     trips := frame ["trip_id"; "route_id"] [["T1"; "A"]];
     stop_times := frame ["trip_id"; "stop_id"; "stop_sequence"]
       [["T1"; "X"; ""]; ["T1"; "Y"; "3000000000"]] |}.

Definition demo_result : mode_result :=
  Eval vm_compute in
    match process_mode "subway" [demo_feed] with
    | Ok res => res
    | Raise _ => emit "subway" initial_pass
    end.

(** The lookups and the accumulators the stop-time loop of [demo_feed]
    starts from. *)
Definition demo_lookups : lookups :=
  let sl := stops_loop "subway" ∅
              (stop_tuples (default_columns optional_stop_columns (stops demo_feed))) in
  {| lk_station_map := sl.1;
     lk_raw_stop_to_station := sl.2;
     lk_trip_map :=
       match trips_loop (trip_tuples (default_column "direction_id" (trips demo_feed))) with
       | Ok trip_map => trip_map
       | Raise _ => ∅
       end |}.

Definition demo_rows : list stop_time_tuple :=
  stop_time_tuples (default_column "stop_sequence" (stop_times demo_feed)).

Definition empty_database : database :=
  {| db_stations := ∅; db_routes := ∅; db_route_stops := ∅ |}.

(** A server that rejects the first write of the LIRR mode. *)
Definition lirr_rejected (position : nat) (target : string) : bool :=
  String.eqb target "mta_lirr_stations".

(** A server that accepts everything. *)
Definition accepting (position : nat) (target : string) : bool := false.

Definition demo_pass : pass :=
  Eval vm_compute in
    match for_each (process_dataset "subway") [demo_feed] initial_pass with
    | Ok p => p
    | Raise _ => initial_pass
    end.

Definition demo_sequencer : sequencer :=
  Eval vm_compute in
    match stop_times_loop demo_lookups (seq_state initial_pass) demo_rows with
    | Ok sq => sq
    | Raise _ => seq_state initial_pass
    end.

(** A stored route and a later row for the same id. *)
Definition stored_route : route :=
  {| route_id := "A"; agency_id := Some "MTA NYCT"; route_short_name := "A";
     route_long_name := ""; route_desc := None; route_type := 1; route_url := None;
     route_color := Some "0039A6"; route_text_color := None;
     route_sort_order := Some 0 |}.

Definition later_route_row : route_tuple :=
  (PyObj " a ", PyObj "other", PyObj "A8", PyObj "8 Avenue Express", PyNaN, PyObj "0.0",
   PyNone, PyObj "FFFFFF", PyObj "FFFFFF", PyObj "7").

Definition merged_route_map : gmap string route :=
  Eval vm_compute in
    match process_route_row "subway" {[ "A" := stored_route ]} later_route_row with
    | Ok m => m
    | Raise _ => ∅
    end.

(** A route row of a tram line: GTFS route type 0, sort order 0. *)
Definition tram_route_row : route_tuple :=
  (PyObj "T", PyNone, PyObj "T", PyObj "Tram", PyNone, PyObj "0", PyNone, PyNone,
   PyNone, PyObj "0").

Definition empty_lookups : lookups :=
  {| lk_station_map := ∅; lk_raw_stop_to_station := ∅; lk_trip_map := ∅ |}.

(** ** Vocabulary of the row normalizer *)


Definition first_char (s : string) : option ascii :=
  match s with
  | EmptyString => None
  | String c _ => Some c
  end.

Fixpoint last_char (s : string) : option ascii :=
  match s with
  | EmptyString => None
  | String c EmptyString => Some c
  | String _ s' => last_char s'
  end.

(** Neither the first nor the last character is whitespace. *)
Definition trimmed (s : string) : Prop :=
  (∀ c, first_char s = Some c → isspace c = false)
  ∧ (∀ c, last_char s = Some c → isspace c = false).

Fixpoint all_digits (s : string) : Prop :=
  match s with
  | EmptyString => True
  | String c s' => isdigit c = true ∧ all_digits s'
  end.

(** The number a string of decimal digits denotes. *)
Definition decimal_value (s : string) : Z := digits_val (list_ascii_of_string s).

(** ** Vocabulary of the dataset checks *)

(** The columns [process_mode] requires of the four frames. *)
Definition has_required_columns (feed : Feed) : Prop :=
  ["stop_id"; "stop_name"] ⊆ df_columns (stops feed)
  ∧ ["route_id"] ⊆ df_columns (routes feed)
  ∧ ["trip_id"; "route_id"] ⊆ df_columns (trips feed)
  ∧ ["trip_id"; "stop_id"] ⊆ df_columns (stop_times feed).

(** ** Further invariants of the station clusterer *)

(** The raw-stop lookup only names stations of the station map. *)
Definition lookup_ok (sm : gmap string station) (lk : gmap string string) : Prop :=
  ∀ raw sid, lk !! raw = Some sid → is_Some (sm !! sid).

(** No station is stored under the empty id. *)
Definition nonblank_keys {V : Type} (m : gmap string V) : Prop :=
  ∀ k, is_Some (m !! k) → k ≠ "".

(** What a later sighting may change of a station: it fills an absent
    coordinate, replaces a name that is empty or equal to the id, and adds
    children. *)
Definition station_kept (st st' : station) : Prop :=
  stop_id st' = stop_id st
  ∧ parent_station st' = parent_station st
  ∧ (stop_lat st ≠ None → stop_lat st' = stop_lat st)
  ∧ (stop_lon st ≠ None → stop_lon st' = stop_lon st)
  ∧ (stop_name st ≠ "" → stop_name st ≠ stop_id st → stop_name st' = stop_name st)
  ∧ child_stop_ids st ⊆ child_stop_ids st'.

(** ** Further invariants of the route merger *)

(** Every route is stored under its own id, and the id is a non-empty
    normalized route id. *)
Definition route_keyed (rm : gmap string route) : Prop :=
  ∀ k r, rm !! k = Some r →
    route_id r = k ∧ k ≠ "" ∧ normalize_route_id (PyObj k) = k.

(** What later rows may change of a stored route, [d] being the mode
    default type: they fill empty fields and replace a type that is still
    the default. *)
Definition route_kept (d : Z) (r r' : route) : Prop :=
  route_id r' = route_id r
  ∧ (¬ empty_opt (agency_id r) → agency_id r' = agency_id r)
  ∧ (route_short_name r ≠ "" → route_short_name r' = route_short_name r)
  ∧ (route_long_name r ≠ "" → route_long_name r' = route_long_name r)
  ∧ (¬ empty_opt (route_desc r) → route_desc r' = route_desc r)
  ∧ (route_type r ≠ d → route_type r' = route_type r)
  ∧ (¬ empty_opt (route_url r) → route_url r' = route_url r)
  ∧ (¬ empty_opt (route_color r) → route_color r' = route_color r)
  ∧ (¬ empty_opt (route_text_color r) → route_text_color r' = route_text_color r)
  ∧ (route_sort_order r ≠ None → route_sort_order r' = route_sort_order r).

(** ** Further vocabulary of the sequencer *)

(** Every trip of the trip table has a non-empty id, a non-empty route
    id and a direction that is 0 or 1. *)
Definition trips_ok (tm : gmap string (string * Z)) : Prop :=
  ∀ t r d, tm !! t = Some (r, d) → t ≠ "" ∧ r ≠ "" ∧ (d = 0 ∨ d = 1).

(** Every assignment key has a non-empty route id and a direction that
    is 0 or 1. *)
Definition assignment_keys_ok (rsm : gmap route_stop_key (option Z)) : Prop :=
  ∀ r d s v, rsm !! (r, d, s) = Some v → r ≠ "" ∧ (d = 0 ∨ d = 1).

(** What one stop-time row does to the accumulators of the loop. *)
Inductive effect : Type :=
| Skip
| CountTrip
| AddStop (raw_stop_id : string)
| Update (key : route_stop_key) (next_sequence : option Z).

Definition apply_effect (e : effect) (sq : sequencer) : sequencer :=
  match e with
  | Skip => sq
  | CountTrip =>
      {| route_stop_map := route_stop_map sq;
         missing_trip_refs := S (missing_trip_refs sq);
         missing_stop_ids := missing_stop_ids sq |}
  | AddStop raw_stop_id =>
      {| route_stop_map := route_stop_map sq;
         missing_trip_refs := missing_trip_refs sq;
         missing_stop_ids := {[raw_stop_id]} ∪ missing_stop_ids sq |}
  | Update key next_sequence =>
      {| route_stop_map := update_sequence (route_stop_map sq) key next_sequence;
         missing_trip_refs := missing_trip_refs sq;
         missing_stop_ids := missing_stop_ids sq |}
  end.

(** The effect of a row, which the lookups decide alone. *)
Definition row_effect (lk : lookups) (row : stop_time_tuple) : result effect :=
  let '(tid, sid, stop_sequence) := row in
  let normalized_trip_id := normalize_text tid in
  let raw_stop_id := normalize_text sid in
  if negb (truthy_str normalized_trip_id) || negb (truthy_str raw_stop_id) then Ok Skip
  else
    match lk_trip_map lk !! normalized_trip_id with
    | None => Ok CountTrip
    | Some (route_id_value, direction_id_value) =>
        let station_stop_id :=
          default raw_stop_id (lk_raw_stop_to_station lk !! raw_stop_id) in
        match lk_station_map lk !! station_stop_id with
        | None => Ok (AddStop raw_stop_id)
        | Some _ =>
            next_sequence ← parse_int_or_none stop_sequence;
            Ok (Update (route_id_value, direction_id_value, station_stop_id) next_sequence)
        end
    end.

(** ** Further vocabulary of the sink *)

(** [upsert] of a batch of rows, one after the other. *)
Definition upsert_all {A : Type} (conflict : A → A → bool) (resolve : A → A → A)
    (news : list A) (rows : list A) : list A :=
  fold_left (λ t new, upsert conflict resolve new t) news rows.

Definition assignment_key (r : route_stop_row) : route_stop_key :=
  (rs_route_id r, rs_direction_id r, rs_stop_id r).

(** What the three statements of [upsert_bus_mode] do to the database
    when none is rejected: a statement without rows is not executed. *)
Definition bus_upserted (res : mode_result) (d : database) : database :=
  {| db_stations :=
       match stations_rows res with
       | [] => db_stations d
       | _ => upsert_rows (λ old new, String.eqb (sr_stop_id old) (sr_stop_id new))
                upsert_station (stations_rows res) (db_stations d)
       end;
     db_routes :=
       match routes_rows res with
       | [] => db_routes d
       | _ => upsert_rows (λ old new, String.eqb (route_id old) (route_id new))
                upsert_route (routes_rows res) (db_routes d)
       end;
     db_route_stops :=
       match route_stops_rows res with
       | [] => db_route_stops d
       | _ => upsert_rows same_assignment (λ old _, old) (route_stops_rows res)
                (db_route_stops d)
       end |}.

(** A station row may be refreshed but a known value of a nullable
    column stays known. *)
Definition station_row_kept (old new : station_row) : Prop :=
  sr_stop_id new = sr_stop_id old
  ∧ (is_Some (sr_stop_lat old) → is_Some (sr_stop_lat new))
  ∧ (is_Some (sr_stop_lon old) → is_Some (sr_stop_lon new))
  ∧ (is_Some (sr_parent_station old) → is_Some (sr_parent_station new)).

Definition route_row_kept (old new : route) : Prop :=
  route_id new = route_id old
  ∧ (is_Some (agency_id old) → is_Some (agency_id new))
  ∧ (route_short_name old ≠ "" → route_short_name new ≠ "")
  ∧ (route_long_name old ≠ "" → route_long_name new ≠ "")
  ∧ (is_Some (route_desc old) → is_Some (route_desc new))
  ∧ (is_Some (route_url old) → is_Some (route_url new))
  ∧ (is_Some (route_color old) → is_Some (route_color new))
  ∧ (is_Some (route_text_color old) → is_Some (route_text_color new))
  ∧ (is_Some (route_sort_order old) → is_Some (route_sort_order new)).

(** ** The stop-time reducer

    The loop of [main] in [data/cta-subway/reduce_stop_times.py], from
    the point where both files are open. The reader is [csv.DictReader]:
    [fieldnames] is [None] for an empty file, and a row maps each field
    name to its text, or to [None] where the line is too short. The
    writer's rows are the list [written]. *)

Abbreviation csv_row := (gmap string (option string)).

(** [row.get(column)] *)
Definition row_get (row : csv_row) (column : string) : option string :=
  row !! column ≫= id.

(** [value or ""] *)
Definition or_empty (value : option string) : string :=
  match value with
  | Some s => if truthy_str s then s else ""
  | None => ""
  end.

(** The local variables of the loop that outlive an iteration, and the
    rows handed to the writer so far. *)
Record reducer : Type := {
  seen : gset (string * string);
  rows_in : nat;
  rows_out : nat;
  written : list (string * string)
}.

(** The body of [for row in reader]. *)
Definition reduce_row (dedupe : bool) (st : reducer) (row : csv_row) : reducer :=
  let st := {| seen := seen st; rows_in := S (rows_in st);
               rows_out := rows_out st; written := written st |} in
  let trip_id := strip (or_empty (row_get row "trip_id")) in
  let stop_id := strip (or_empty (row_get row "stop_id")) in
  if negb (truthy_str trip_id) || negb (truthy_str stop_id) then st
  else
    let key := (trip_id, stop_id) in
    if dedupe && bool_decide (key ∈ seen st) then st
    else
      {| seen := if dedupe then {[ key ]} ∪ seen st else seen st;
         rows_in := rows_in st;
         rows_out := S (rows_out st);
         written := written st ++ [key] |}.

Definition reduce_stop_times (dedupe : bool) (fieldnames : option (list string))
    (rows : list csv_row) : result reducer :=
  match fieldnames with
  | None => Raise ValueError
  | Some names =>
      if negb (bool_decide ("trip_id" ∈ names)) || negb (bool_decide ("stop_id" ∈ names))
      then Raise ValueError
      else Ok (fold_left (reduce_row dedupe) rows
                 {| seen := ∅; rows_in := 0; rows_out := 0; written := [] |})
  end.

(** ** Vocabulary of the stop-time reducer *)

(** The pair a row stands for. *)
Definition row_key (row : csv_row) : string * string :=
  (strip (or_empty (row_get row "trip_id")), strip (or_empty (row_get row "stop_id"))).

Definition nonblank_key (key : string * string) : bool :=
  truthy_str key.1 && truthy_str key.2.

(** The header names both columns. *)
Definition has_header (fieldnames : option (list string)) : Prop :=
  ∃ names, fieldnames = Some names ∧ "trip_id" ∈ names ∧ "stop_id" ∈ names.

(** The keys of a list that are not in [known] and did not occur
    earlier in the list, in the order of the list. *)
Fixpoint first_occurrences (known : gset (string * string))
    (keys : list (string * string)) : list (string * string) :=
  match keys with
  | [] => []
  | key :: keys' =>
      if bool_decide (key ∈ known) then first_occurrences known keys'
      else key :: first_occurrences ({[ key ]} ∪ known) keys'
  end.

(** A written row as the reader gives it back. *)
Definition key_row (key : string * string) : csv_row :=
  {[ "trip_id" := Some key.1; "stop_id" := Some key.2 ]}.

(** Rows of a small file: a repeated pair, a padded pair, a row without
    a stop id and a short row. *)
Definition demo_csv_rows : list csv_row :=
  [ {[ "trip_id" := Some "T1"; "stop_id" := Some "101N"; "arrival_time" := Some "08:00:00" ]};
    {[ "trip_id" := Some "T2"; "stop_id" := Some "201"; "arrival_time" := Some "08:05:00" ]};
    {[ "trip_id" := Some " T1 "; "stop_id" := Some "101N "; "arrival_time" := Some "09:00:00" ]};
    {[ "trip_id" := Some "T3"; "stop_id" := Some "  "; "arrival_time" := Some "" ]};
    {[ "trip_id" := Some "T4"; "stop_id" := None; "arrival_time" := None ]} ].

(** * Properties *)

(** ** The exception monad and [for] loops *)

Lemma bind_Ok {A B} (m : result A) (k : A → result B) (b : B) :
  m ≫= k = Ok b ↔ ∃ a, m = Ok a ∧ k a = Ok b.
Proof.
  split.
  - destruct m as [a|e]; [intros H; by exists a | discriminate].
  - intros (a & -> & H). exact H.
Qed.

Lemma bind_Raise {A B} (m : result A) (k : A → result B) (e : exn) :
  m ≫= k = Raise e ↔ m = Raise e ∨ ∃ a, m = Ok a ∧ k a = Raise e.
Proof.
  split.
  - destruct m as [a|e']; [intros H; right; by exists a | intros [= ->]; by left].
  - intros [-> | (a & -> & H)]; [reflexivity | exact H].
Qed.

(** Splits every successful bind among the hypotheses. *)
Ltac ok_inv :=
  repeat match goal with
         | H : _ ≫= _ = Ok _ |- _ =>
             let a := fresh "a" in
             let Ha := fresh "Ha" in
             apply bind_Ok in H as (a & Ha & H)
         | H : Ok _ = Ok _ |- _ => injection H as H
         | H : Raise _ = Ok _ |- _ => discriminate H
         end.

Section ForEach.
Context {S R : Type} (body : S → R → result S).

Lemma for_each_app rows1 rows2 s :
  for_each body (rows1 ++ rows2)%list s = for_each body rows1 s ≫= for_each body rows2.
Proof.
  revert s. induction rows1 as [|row rows1 IH]; intros s; simpl; [done|].
  destruct (body s row) as [s'|e]; simpl; [apply IH | done].
Qed.

(** A property kept by every iteration that returns holds when the
    loop returns. *)
Lemma for_each_invariant (P : S → Prop) rows :
  (∀ s row s', row ∈ rows → P s → body s row = Ok s' → P s') →
  ∀ s s', P s → for_each body rows s = Ok s' → P s'.
Proof.
  induction rows as [|row rows IH]; intros Hstep s s' Hs Hloop; simpl in Hloop.
  - by injection Hloop as <-.
  - ok_inv. eapply IH; [| |exact Hloop].
    + intros ? ? ? ? ? ?. eapply Hstep; [by right | done..].
    + eapply Hstep; [by left | done..].
Qed.
End ForEach.

(** ** [sorted] *)

Section Sorted.
Context {A : Type} (le : A → A → bool).

Lemma insert_sorted_Permutation x l : insert_sorted le x l ≡ₚ x :: l.
Proof.
  induction l as [|y l IH]; simpl; [done|].
  destruct (le x y); [done|]. rewrite IH. apply Permutation_swap.
Qed.

Lemma sorted_Permutation l : sorted le l ≡ₚ l.
Proof.
  induction l as [|x l IH]; simpl; [done|].
  unfold sorted in *. simpl. by rewrite insert_sorted_Permutation, IH.
Qed.

Lemma elem_of_sorted x l : x ∈ sorted le l ↔ x ∈ l.
Proof. by rewrite sorted_Permutation. Qed.

Hypothesis le_total : ∀ a b, le a b = true ∨ le b a = true.
Hypothesis le_trans : ∀ a b c, le a b = true → le b c = true → le a c = true.

Lemma insert_sorted_Sorted x l :
  Sorted (λ a b, le a b = true) l → Sorted (λ a b, le a b = true) (insert_sorted le x l).
Proof.
  induction 1 as [|y l Hl IH Hhd]; simpl; [repeat constructor|].
  destruct (le x y) eqn:Hxy.
  - constructor; [by constructor | by constructor].
  - constructor; [exact IH|].
    destruct (le_total x y) as [Hc|Hyx]; [congruence|].
    destruct Hhd as [|z l' Hyz]; simpl; [by constructor|].
    destruct (le x z); by constructor.
Qed.

Lemma sorted_StronglySorted l : StronglySorted (λ a b, le a b = true) (sorted le l).
Proof.
  apply Sorted_StronglySorted; [intros a b c; apply le_trans|].
  induction l as [|x l IH]; [constructor|].
  apply insert_sorted_Sorted, IH.
Qed.
End Sorted.

(** A sorted list without repeated keys is strictly sorted. *)
Lemma StronglySorted_strict {A : Type} (R S : relation A) (l : list A) :
  (∀ a b, a ∈ l → b ∈ l → R a b → a ≠ b → S a b) →
  NoDup l → StronglySorted R l → StronglySorted S l.
Proof.
  induction l as [|x l IH]; intros HRS Hnd Hs; [constructor|].
  apply NoDup_cons in Hnd as [Hx Hnd]. apply StronglySorted_inv in Hs as [Hs Hall].
  constructor.
  - apply IH; [|done..]. intros a b Ha Hb. apply HRS; by right.
  - rewrite Forall_forall in Hall |- *. intros y Hy.
    apply HRS; [by left | by right | by apply Hall |].
    intros ->. by apply Hx.
Qed.

(** ** Comparison functions *)

#[global] Instance Z_compare_order : CmpOrder Z.compare.
Proof.
  split.
  - intros a b. apply Z.compare_eq.
  - apply Z.compare_refl.
  - intros a b. apply Z.compare_antisym.
  - intros a b c. rewrite !Z.compare_lt_iff. lia.
Qed.

#[global] Instance string_compare_order : CmpOrder String.compare.
Proof.
  split.
  - apply String.compare_eq_iff.
  - intros a. induction a as [|c a IH]; simpl; [done|].
    unfold Ascii.compare. by rewrite N.compare_refl.
  - apply String.compare_antisym.
  - intros a. induction a as [|x a IH]; intros [|y b] [|z c]; simpl; try done.
    destruct (Ascii.compare x y) eqn:Hxy; try done.
    + apply Ascii.compare_eq_iff in Hxy as ->.
      destruct (Ascii.compare y z); try done. apply IH.
    + destruct (Ascii.compare y z) eqn:Hyz; try done.
      * apply Ascii.compare_eq_iff in Hyz as ->. by rewrite Hxy.
      * intros _ _. unfold Ascii.compare in *.
        rewrite N.compare_lt_iff in Hxy, Hyz.
        assert ((N_of_ascii x ?= N_of_ascii z)%N = Lt) as ->; [|done].
        apply N.compare_lt_iff. by etrans.
Qed.

#[global] Instance lex_compare_order {A B : Type} (cmpA : A → A → comparison)
    (cmpB : B → B → comparison) `{!CmpOrder cmpA, !CmpOrder cmpB} :
  CmpOrder (lex_compare cmpA cmpB).
Proof.
  split.
  - intros [a1 b1] [a2 b2]. unfold lex_compare. simpl.
    destruct (cmpA a1 a2) eqn:Ha; try done.
    intros Hb. by rewrite (cmp_eq _ _ Ha), (cmp_eq _ _ Hb).
  - intros [a b]. unfold lex_compare. simpl. rewrite cmp_refl. apply cmp_refl.
  - intros [a1 b1] [a2 b2]. unfold lex_compare. simpl.
    rewrite (cmp_antisym a1 a2). destruct (cmpA a2 a1); simpl; try done.
    apply cmp_antisym.
  - intros [a1 b1] [a2 b2] [a3 b3]. unfold lex_compare. simpl.
    destruct (cmpA a1 a2) eqn:H12; try done.
    + apply cmp_eq in H12 as ->. destruct (cmpA a2 a3); try done. apply cmp_trans.
    + destruct (cmpA a2 a3) eqn:H23; try done.
      * apply cmp_eq in H23 as ->. by rewrite H12.
      * by rewrite (cmp_trans _ _ _ H12 H23).
Qed.

Section CmpLeb.
Context {A : Type} (cmp : A → A → comparison) `{!CmpOrder cmp}.

Lemma cmp_leb_total a b : cmp_leb cmp a b = true ∨ cmp_leb cmp b a = true.
Proof.
  unfold cmp_leb. rewrite (cmp_antisym a b). destruct (cmp b a); auto.
Qed.

Lemma cmp_leb_trans a b c :
  cmp_leb cmp a b = true → cmp_leb cmp b c = true → cmp_leb cmp a c = true.
Proof.
  unfold cmp_leb.
  destruct (cmp a b) eqn:Hab; try done; destruct (cmp b c) eqn:Hbc; try done; intros _ _.
  - apply cmp_eq in Hab as ->. by rewrite Hbc.
  - apply cmp_eq in Hab as ->. by rewrite Hbc.
  - apply cmp_eq in Hbc as ->. by rewrite Hab.
  - by rewrite (cmp_trans _ _ _ Hab Hbc).
Qed.

Lemma cmp_leb_lt a b : cmp_leb cmp a b = true → a ≠ b → cmp a b = Lt.
Proof.
  unfold cmp_leb. destruct (cmp a b) eqn:Hab; try done.
  intros _ Hne. by apply cmp_eq in Hab.
Qed.
End CmpLeb.

Lemma sort_key_compare_lex (a b : sort_key) :
  sort_key_compare a b =
  lex_compare (lex_compare (lex_compare String.compare Z.compare) Z.compare)
    String.compare a b.
Proof.
  destruct a as [[[r1 d1] s1] t1], b as [[[r2 d2] s2] t2].
  unfold lex_compare. simpl.
  destruct (String.compare r1 r2); try done.
  destruct (d1 ?= d2); done.
Qed.

#[global] Instance sort_key_compare_order : CmpOrder sort_key_compare.
Proof.
  pose proof (lex_compare_order
    (lex_compare (lex_compare String.compare Z.compare) Z.compare) String.compare) as H.
  split; intros *; rewrite !sort_key_compare_lex; apply H.
Qed.

(** ** Emission order of the assignments *)

Lemma route_stop_sort_key_inj (m : gmap route_stop_key (option Z)) a b :
  a ∈ map_to_list m → b ∈ map_to_list m →
  route_stop_sort_key a = route_stop_sort_key b → a = b.
Proof.
  destruct a as [[[r1 d1] t1] v1], b as [[[r2 d2] t2] v2].
  intros Ha%elem_of_map_to_list Hb%elem_of_map_to_list. simpl.
  intros [= -> -> _ ->]. congruence.
Qed.

Lemma sort_key_compare_Lt r1 d1 s1 t1 r2 d2 s2 t2 :
  sort_key_compare (r1, d1, s1, t1) (r2, d2, s2, t2) = Lt →
  str_lt r1 r2
  ∨ r1 = r2 ∧ (d1 < d2 ∨ d1 = d2 ∧ (s1 < s2 ∨ s1 = s2 ∧ str_lt t1 t2)).
Proof.
  unfold str_lt. simpl.
  destruct (String.compare r1 r2) eqn:Hr; try done; [|by left].
  apply String.compare_eq_iff in Hr as ->. intros H. right. split; [done|].
  destruct (Z.compare_spec d1 d2) as [->| |]; try done; [|by left].
  right. split; [done|].
  destruct (Z.compare_spec s1 s2) as [->| |]; try done; [by right | by left].
Qed.

Lemma sort_key_lt_assignment a b :
  sort_key_compare (route_stop_sort_key a) (route_stop_sort_key b) = Lt →
  assignment_lt_sentinel (emit_route_stop a) (emit_route_stop b).
Proof.
  destruct a as [[[r1 d1] t1] v1], b as [[[r2 d2] t2] v2].
  intros H%sort_key_compare_Lt. exact H.
Qed.

Lemma sorted_route_stops_strict (m : gmap route_stop_key (option Z)) :
  StronglySorted
    (λ a b, sort_key_compare (route_stop_sort_key a) (route_stop_sort_key b) = Lt)
    (sorted_route_stops m).
Proof.
  unfold sorted_route_stops.
  set (le := λ a b : route_stop_key * option Z,
               sort_key_leb (route_stop_sort_key a) (route_stop_sort_key b)).
  eapply (StronglySorted_strict (λ a b, le a b = true)).
  - intros a b Ha%elem_of_sorted Hb%elem_of_sorted Hle Hne.
    apply (cmp_leb_lt sort_key_compare); [exact Hle|].
    intros Heq. apply Hne. by eapply route_stop_sort_key_inj.
  - rewrite sorted_Permutation. apply NoDup_map_to_list.
  - apply sorted_StronglySorted.
    + intros a b. apply (cmp_leb_total sort_key_compare).
    + intros a b c. apply (cmp_leb_trans sort_key_compare).
Qed.

Lemma StronglySorted_fmap_2 {A B : Type} (R : relation A) (S : relation B)
    (f : A → B) (l : list A) :
  (∀ a b, R a b → S (f a) (f b)) → StronglySorted R l → StronglySorted S (f <$> l).
Proof.
  intros HRS. induction 1 as [|x l Hl IH Hall]; simpl; constructor; [done|].
  apply Forall_fmap. eapply Forall_impl; [exact Hall|]. intros y. apply HRS.
Qed.

Lemma emit_route_stops_sorted (m : gmap route_stop_key (option Z)) :
  StronglySorted assignment_lt_sentinel (emit_route_stops m).
Proof.
  eapply StronglySorted_fmap_2; [|apply sorted_route_stops_strict].
  apply sort_key_lt_assignment.
Qed.

Lemma StronglySorted_impl_elem {A : Type} (R S : relation A) (l : list A) :
  (∀ a b, a ∈ l → b ∈ l → R a b → S a b) → StronglySorted R l → StronglySorted S l.
Proof.
  induction l as [|x l IH]; intros HRS Hs; [constructor|].
  apply StronglySorted_inv in Hs as [Hs Hall]. constructor.
  - apply IH; [|done]. intros a b Ha Hb. apply HRS; by right.
  - rewrite Forall_forall in Hall |- *. intros y Hy.
    apply HRS; [by left | by right | by apply Hall].
Qed.

Lemma sentinel_lt_inf (a b : option Z) :
  (∀ n, a = Some n → n < 2 ^ 31 - 1) → (∀ n, b = Some n → n < 2 ^ 31 - 1) →
  (sentinel a < sentinel b → seq_lt_inf a b) ∧ (sentinel a = sentinel b → a = b).
Proof.
  intros Ha Hb. unfold sentinel.
  destruct a as [x|], b as [y|]; simpl; split; try done; try lia.
  - congruence.
  - specialize (Ha x eq_refl). lia.
  - specialize (Hb y eq_refl). lia.
  - specialize (Hb y eq_refl). lia.
Qed.

(** C4 (as amended): the emitted assignment rows are strictly ascending
    by (route id, direction, sequence, station id) where an absent
    sequence sorts as the value 2^31 - 1; when every concrete sequence of
    the rows is below 2^31 - 1, this is the order in which an absent
    sequence sorts after every concrete one. *)
Theorem emitted_assignments_sorted (mode : string) (p : pass) :
  StronglySorted assignment_lt_sentinel (route_stops_rows (emit mode p))
  ∧ ((∀ r n, r ∈ route_stops_rows (emit mode p) →
             rs_route_stop_sort_order r = Some n → n < 2 ^ 31 - 1) →
     StronglySorted assignment_lt_inf (route_stops_rows (emit mode p))).
Proof.
  simpl. split; [apply emit_route_stops_sorted|].
  intros Hsmall.
  eapply StronglySorted_impl_elem; [|apply emit_route_stops_sorted].
  intros a b Ha Hb.
  destruct (sentinel_lt_inf (rs_route_stop_sort_order a) (rs_route_stop_sort_order b))
    as [Hlt Heq]; [by eauto..|].
  unfold assignment_lt_sentinel, assignment_lt_inf, assignment_lt.
  intros [?|[? [?|[? [?%Hlt|[?%Heq ?]]]]]]; tauto.
Qed.

(** ** Station clusterer *)

Lemma truthy_str_true (s : string) : truthy_str s = true ↔ s ≠ "".
Proof. destruct s; simpl; split; congruence. Qed.

Lemma str_or_truthy (s fallback : string) : s ≠ "" → str_or s fallback = s.
Proof. intros H. unfold str_or. by apply truthy_str_true in H as ->. Qed.

Lemma eqb_bus (mode : string) : String.eqb mode "bus" = bool_decide (mode = "bus").
Proof.
  destruct (String.eqb_spec mode "bus") as [->|H].
  - by rewrite bool_decide_eq_true_2.
  - by rewrite bool_decide_eq_false_2.
Qed.

#[global] Instance station_le_preorder : PreOrder station_le.
Proof.
  split.
  - intros sm k st H. by exists st.
  - intros sm1 sm2 sm3 H12 H23 k st H.
    destruct (H12 k st H) as (st2 & H2 & Hsub2).
    destruct (H23 k st2 H2) as (st3 & H3 & Hsub3).
    exists st3. split; [done|]. set_solver.
Qed.

Lemma child_stop_ids_add_child mode raw st :
  child_stop_ids st ⊆ child_stop_ids (add_child mode raw st).
Proof. unfold add_child. destruct (String.eqb mode "bus"); simpl; set_solver. Qed.

Lemma stop_id_add_child mode raw st : stop_id (add_child mode raw st) = stop_id st.
Proof. unfold add_child. by destruct (String.eqb mode "bus"). Qed.

Lemma elem_of_add_child mode raw st :
  mode ≠ "bus" → raw ∈ child_stop_ids (add_child mode raw st).
Proof.
  intros H. unfold add_child. rewrite eqb_bus, bool_decide_eq_false_2 by done.
  simpl. set_solver.
Qed.

Section StopRow.
Context (mode : string) (sm : gmap string station) (lk : gmap string string).
Context (sid sname slat slon sparent : value).

Let row : stop_tuple := (sid, sname, slat, slon, sparent).
Let raw := normalize_text sid.
Let canonical := station_id_of mode raw (normalize_text sparent).

Lemma process_stop_row_blank :
  raw = "" → process_stop_row mode (sm, lk) row = (sm, lk).
Proof.
  intros H. unfold row, raw in *. simpl. by rewrite H.
Qed.

(** What one iteration on a row with a stop id leaves behind. *)
Lemma process_stop_row_present :
  raw ≠ "" →
  ∃ st, (process_stop_row mode (sm, lk) row).1 !! canonical = Some st
        ∧ (process_stop_row mode (sm, lk) row).2 = <[raw := canonical]> lk
        ∧ (process_stop_row mode (sm, lk) row).1 = <[canonical := st]> sm
        ∧ stop_id st = default canonical (stop_id <$> sm !! canonical)
        ∧ default ∅ (child_stop_ids <$> sm !! canonical) ⊆ child_stop_ids st
        ∧ (mode ≠ "bus" → raw ∈ child_stop_ids st).
Proof.
  intros H%truthy_str_true. unfold row, raw, canonical in *. simpl. rewrite H. simpl.
  eexists. split; [apply lookup_insert_eq|]. split; [done|]. split; [done|].
  rewrite stop_id_add_child. split; [|split].
  - by destruct (sm !! _).
  - etrans; [|apply child_stop_ids_add_child]. by destruct (sm !! _).
  - apply elem_of_add_child.
Qed.

Lemma process_stop_row_le : station_le sm (process_stop_row mode (sm, lk) row).1.
Proof.
  destruct (decide (raw = "")) as [H|H].
  - by rewrite process_stop_row_blank.
  - destruct (process_stop_row_present H) as (st & _ & _ & -> & _ & Hsub & _).
    intros k st0 Hk. destruct (decide (canonical = k)) as [<-|Hne].
    + exists st. rewrite lookup_insert_eq. split; [done|]. by rewrite Hk in Hsub.
    + exists st0. by rewrite lookup_insert_ne.
Qed.

Lemma process_stop_row_keyed : keyed sm → keyed (process_stop_row mode (sm, lk) row).1.
Proof.
  intros Hkeyed. destruct (decide (raw = "")) as [H|H].
  - by rewrite process_stop_row_blank.
  - destruct (process_stop_row_present H) as (st & _ & _ & -> & Hid & _).
    intros k st0. destruct (decide (canonical = k)) as [<-|Hne].
    + rewrite lookup_insert_eq. intros [= <-]. rewrite Hid.
      destruct (sm !! canonical) as [st1|] eqn:H1; [|done]. by apply Hkeyed.
    + rewrite lookup_insert_ne by done. apply Hkeyed.
Qed.
End StopRow.

Lemma fold_stop_rows_le mode rows acc :
  station_le acc.1 (fold_left (process_stop_row mode) rows acc).1.
Proof.
  revert acc. induction rows as [|row rows IH]; intros [sm lk]; simpl; [done|].
  etrans; [|apply IH]. destruct row as [[[[? ?] ?] ?] ?]. apply process_stop_row_le.
Qed.

Lemma fold_stop_rows_keyed mode rows acc :
  keyed acc.1 → keyed (fold_left (process_stop_row mode) rows acc).1.
Proof.
  revert acc. induction rows as [|row rows IH]; intros [sm lk]; simpl; [done|].
  intros H. apply IH. destruct row as [[[[? ?] ?] ?] ?]. by apply process_stop_row_keyed.
Qed.

(** After the loop, the station chosen for any of its rows is in the map
    and, outside bus mode, has the row's stop id among its children. *)
Lemma stops_loop_clusters mode sm rows sid sname slat slon sparent :
  (sid, sname, slat, slon, sparent) ∈ rows →
  normalize_text sid ≠ "" →
  ∃ st, (stops_loop mode sm rows).1
          !! station_id_of mode (normalize_text sid) (normalize_text sparent) = Some st
        ∧ (mode ≠ "bus" → normalize_text sid ∈ child_stop_ids st).
Proof.
  intros (rows1 & rows2 & ->)%list_elem_of_split Hraw. unfold stops_loop.
  rewrite fold_left_app. simpl.
  destruct (fold_left (process_stop_row mode) rows1 (sm, ∅)) as [sm1 lk1].
  destruct (process_stop_row_present mode sm1 lk1 sid sname slat slon sparent Hraw)
    as (st & Hst & _ & _ & _ & _ & Hchild).
  destruct (fold_stop_rows_le mode rows2
              (process_stop_row mode (sm1, lk1) (sid, sname, slat, slon, sparent))
              _ _ Hst) as (st' & Hst' & Hsub).
  exists st'. split; [done|]. intros Hmode. apply Hsub, Hchild, Hmode.
Qed.

(** ** One dataset, and the whole pass *)

Lemma process_dataset_Ok mode p feed p' :
  process_dataset mode p feed = Ok p' →
  let sl := stops_loop mode (station_map p)
              (stop_tuples (default_columns optional_stop_columns (stops feed))) in
  station_map p' = sl.1
  ∧ routes_loop mode (route_map p)
      (route_tuples (default_columns optional_route_columns (routes feed)))
    = Ok (route_map p')
  ∧ ∃ trip_map,
      trips_loop (trip_tuples (default_column "direction_id" (trips feed))) = Ok trip_map
      ∧ stop_times_loop
          {| lk_station_map := sl.1; lk_raw_stop_to_station := sl.2; lk_trip_map := trip_map |}
          (seq_state p)
          (stop_time_tuples (default_column "stop_sequence" (stop_times feed)))
        = Ok (seq_state p').
Proof.
  unfold process_dataset. intros H. cbv zeta.
  do 4 apply bind_Ok in H as ([] & _ & H).
  destruct (stops_loop _ _ _) as [sm' lk'] eqn:Hsl.
  apply bind_Ok in H as (rm & Hrm & H).
  apply bind_Ok in H as (tm & Htm & H).
  apply bind_Ok in H as (sq1 & Hsq & H).
  injection H as <-. cbn [station_map route_map seq_state fst snd].
  split; [reflexivity|]. split; [exact Hrm|].
  exists tm. split; [exact Htm | exact Hsq].
Qed.

Lemma update_sequence_lookup rsm key next key' v :
  update_sequence rsm key next !! key' = Some v → key' = key ∨ rsm !! key' = Some v.
Proof.
  unfold update_sequence.
  destruct (get_sequence rsm key) as [existing|]; [destruct next as [n|]|].
  - destruct (n <? existing); [|by right].
    destruct (decide (key = key')) as [->|Hne]; [by left|].
    rewrite lookup_insert_ne by done. by right.
  - by right.
  - destruct (decide (key = key')) as [->|Hne]; [by left|].
    rewrite lookup_insert_ne by done. by right.
Qed.

Lemma process_stop_time_row_references lk sq row sq' :
  process_stop_time_row lk sq row = Ok sq' →
  references_ok (lk_station_map lk) (route_stop_map sq) →
  references_ok (lk_station_map lk) (route_stop_map sq').
Proof.
  destruct row as [[tid sid] sseq]. unfold process_stop_time_row.
  destruct (negb _ || negb _); [by intros [= <-]|].
  destruct (lk_trip_map lk !! _) as [[r d]|]; [|by intros [= <-]].
  destruct (lk_station_map lk !! _) as [st|] eqn:Hst; [|by intros [= <-]].
  intros H Href. ok_inv. subst sq'. simpl.
  intros key v [->|Hold]%update_sequence_lookup; [simpl; by rewrite Hst | by eapply Href].
Qed.

Lemma references_ok_le sm sm' rsm :
  station_le sm sm' → references_ok sm rsm → references_ok sm' rsm.
Proof.
  intros Hle Href key v Hkey. destruct (Href key v Hkey) as [st Hst].
  destruct (Hle _ _ Hst) as (st' & -> & _). by eexists.
Qed.

(** The invariants of the accumulators across datasets. *)
Lemma process_dataset_invariant mode p feed p' :
  process_dataset mode p feed = Ok p' →
  keyed (station_map p) →
  references_ok (station_map p) (route_stop_map (seq_state p)) →
  station_le (station_map p) (station_map p')
  ∧ keyed (station_map p')
  ∧ references_ok (station_map p') (route_stop_map (seq_state p')).
Proof.
  intros (Hsm & _ & trip_map & _ & Hst)%process_dataset_Ok Hkeyed Href.
  rewrite Hsm. unfold stops_loop in *.
  split; [apply (fold_stop_rows_le mode _ (station_map p, ∅))|].
  split; [by apply (fold_stop_rows_keyed mode _ (station_map p, ∅))|].
  revert Hst. apply (for_each_invariant _
    (λ sq, references_ok (fold_left (process_stop_row mode) _ (station_map p, ∅)).1
                         (route_stop_map sq))).
  - intros sq row sq' _ Hsq Hrow.
    by apply (process_stop_time_row_references _ _ _ _ Hrow).
  - eapply references_ok_le; [|exact Href].
    apply (fold_stop_rows_le mode _ (station_map p, ∅)).
Qed.

Lemma pass_invariant mode datasets p :
  for_each (process_dataset mode) datasets initial_pass = Ok p →
  keyed (station_map p) ∧ references_ok (station_map p) (route_stop_map (seq_state p)).
Proof.
  apply (for_each_invariant _
    (λ p, keyed (station_map p)
          ∧ references_ok (station_map p) (route_stop_map (seq_state p)))).
  - intros p1 feed p2 _ [Hk Hr] Hstep.
    by destruct (process_dataset_invariant _ _ _ _ Hstep Hk Hr) as (_ & ? & ?).
  - split; intros ? ? H; simpl in H; by rewrite lookup_empty in H.
Qed.

Lemma process_dataset_le mode p feed p' :
  process_dataset mode p feed = Ok p' → station_le (station_map p) (station_map p').
Proof.
  intros (-> & _)%process_dataset_Ok.
  apply (fold_stop_rows_le mode _ (station_map p, ∅)).
Qed.

Lemma pass_station_le mode datasets p p' :
  for_each (process_dataset mode) datasets p = Ok p' →
  station_le (station_map p) (station_map p').
Proof.
  apply (for_each_invariant _ (λ q, station_le (station_map p) (station_map q))); [|done].
  intros p1 feed p2 _ Hle Hstep. etrans; [exact Hle|]. by eapply process_dataset_le.
Qed.

(** ** Emitted rows *)

Lemma elem_of_emit_stations mode sm srow :
  srow ∈ emit_stations mode sm ↔ ∃ k st, sm !! k = Some st ∧ srow = emit_station mode st.
Proof.
  unfold emit_stations. rewrite list_elem_of_fmap. split.
  - intros (st & -> & Hst). rewrite elem_of_sorted in Hst.
    apply list_elem_of_fmap in Hst as ([k st'] & -> & Hk%elem_of_map_to_list). eauto.
  - intros (k & st & Hk & ->). exists st. split; [done|].
    rewrite elem_of_sorted. apply list_elem_of_fmap. exists (k, st).
    by rewrite elem_of_map_to_list.
Qed.

Lemma elem_of_emit_route_stops rsm r :
  r ∈ emit_route_stops rsm ↔ ∃ key v, rsm !! key = Some v ∧ r = emit_route_stop (key, v).
Proof.
  unfold emit_route_stops, sorted_route_stops. rewrite list_elem_of_fmap. split.
  - intros ([key v] & -> & H). rewrite elem_of_sorted, elem_of_map_to_list in H. eauto.
  - intros (key & v & H & ->). exists (key, v). split; [done|].
    by rewrite elem_of_sorted, elem_of_map_to_list.
Qed.

Lemma process_mode_Ok mode datasets res :
  process_mode mode datasets = Ok res ↔
  ∃ p, for_each (process_dataset mode) datasets initial_pass = Ok p ∧ res = emit mode p.
Proof.
  unfold process_mode. rewrite bind_Ok. split; intros (p & Hp & H); exists p.
  - by injection H as <-.
  - by subst res.
Qed.

(** C10: within one pass every emitted assignment row names the station
    of some emitted station row. *)
Theorem assignments_reference_emitted_stations (mode : string) (datasets : list Feed)
    (res : mode_result) :
  process_mode mode datasets = Ok res →
  ∀ r, r ∈ route_stops_rows res →
       ∃ s, s ∈ stations_rows res ∧ sr_stop_id s = rs_stop_id r.
Proof.
  intros (p & Hp & ->)%process_mode_Ok r. simpl.
  destruct (pass_invariant _ _ _ Hp) as [Hkeyed Href].
  intros ([[rid d] sid] & v & Hkey & ->)%elem_of_emit_route_stops.
  destruct (Href _ _ Hkey) as [st Hst]. simpl in Hst.
  exists (emit_station mode st). split.
  - apply elem_of_emit_stations. eauto.
  - simpl. by apply Hkeyed.
Qed.

Lemma emit_station_child mode st x :
  mode ≠ "bus" → x ∈ child_stop_ids st → x ∈ sr_child_stop_ids_json (emit_station mode st).
Proof.
  intros Hmode Hx. unfold emit_station. simpl.
  rewrite eqb_bus, bool_decide_eq_false_2 by done.
  assert (x ∈ sorted String.leb (elements (child_stop_ids st))) as Hin.
  { rewrite elem_of_sorted. by apply elem_of_elements. }
  destruct (sorted String.leb (elements (child_stop_ids st)));
    [by apply elem_of_nil in Hin | done].
Qed.

(** The station chosen for a stop row of a dataset of the pass is still
    in the station map when the pass ends, with the children it had. *)
Lemma pass_clusters mode datasets p feed sid sname slat slon sparent :
  for_each (process_dataset mode) datasets initial_pass = Ok p →
  feed ∈ datasets →
  (sid, sname, slat, slon, sparent)
    ∈ stop_tuples (default_columns optional_stop_columns (stops feed)) →
  normalize_text sid ≠ "" →
  ∃ st, station_map p
          !! station_id_of mode (normalize_text sid) (normalize_text sparent) = Some st
        ∧ (mode ≠ "bus" → normalize_text sid ∈ child_stop_ids st).
Proof.
  intros Hp (d1 & d2 & ->)%list_elem_of_split Hrow Hraw.
  rewrite for_each_app in Hp. apply bind_Ok in Hp as (p1 & _ & Hp). simpl in Hp.
  apply bind_Ok in Hp as (p2 & Hfeed & Hp).
  apply process_dataset_Ok in Hfeed as (Hsm & _).
  destruct (stops_loop_clusters mode (station_map p1) _ _ _ _ _ _ Hrow Hraw)
    as (st & Hst & Hchild).
  rewrite <- Hsm in Hst.
  destruct (pass_station_le _ _ _ _ Hp _ _ Hst) as (st' & Hst' & Hsub).
  exists st'. split; [done|]. intros Hmode. apply Hsub, Hchild, Hmode.
Qed.

(** C1: in a non-bus mode a stop row with a stop id and a non-blank
    parent is clustered under the normalized parent value, and the station
    row emitted for that id lists the row's raw stop id among its
    children; in bus mode the row is its own station, and every emitted
    station row carries an empty child list. *)
Theorem station_clustering (mode : string) (datasets : list Feed) (res : mode_result)
    (feed : Feed) (sid sname slat slon sparent : value) :
  process_mode mode datasets = Ok res →
  feed ∈ datasets →
  (sid, sname, slat, slon, sparent)
    ∈ stop_tuples (default_columns optional_stop_columns (stops feed)) →
  normalize_text sid ≠ "" →
  let raw := normalize_text sid in
  let parent := normalize_text sparent in
  (mode ≠ "bus" → parent ≠ "" →
     station_id_of mode raw parent = parent
     ∧ ∃ srow, srow ∈ stations_rows res ∧ sr_stop_id srow = parent
               ∧ raw ∈ sr_child_stop_ids_json srow)
  ∧ (mode = "bus" →
     station_id_of mode raw parent = raw
     ∧ (∃ srow, srow ∈ stations_rows res ∧ sr_stop_id srow = raw)
     ∧ ∀ srow, srow ∈ stations_rows res → sr_child_stop_ids_json srow = []).
Proof.
  intros (p & Hp & ->)%process_mode_Ok Hfeed Hrow Hraw raw parent. simpl.
  destruct (pass_clusters _ _ _ _ _ _ _ _ _ Hp Hfeed Hrow Hraw) as (st & Hst & Hchild).
  destruct (pass_invariant _ _ _ Hp) as [Hkeyed _].
  fold raw parent in Hst, Hchild. split.
  - intros Hmode Hparent.
    assert (station_id_of mode raw parent = parent) as Hid.
    { unfold station_id_of. rewrite eqb_bus, bool_decide_eq_false_2 by done.
      by apply str_or_truthy. }
    split; [done|]. exists (emit_station mode st). rewrite Hid in Hst.
    split; [apply elem_of_emit_stations; eauto|].
    split; [simpl; by apply Hkeyed|]. apply emit_station_child; auto.
  - intros ->. assert (station_id_of "bus" raw parent = raw) as Hid by done.
    split; [done|]. rewrite Hid in Hst. split.
    + exists (emit_station "bus" st). split; [apply elem_of_emit_stations; eauto|].
      simpl. by apply Hkeyed.
    + by intros srow (k & st' & _ & ->)%elem_of_emit_stations.
Qed.

(** ** Route merger *)

Lemma keep_opt_populated existing incoming :
  ¬ empty_opt existing → keep_opt existing incoming = existing.
Proof.
  unfold empty_opt, keep_opt. destruct existing as [[|c s]|]; simpl; tauto.
Qed.

Lemma keep_str_populated existing incoming :
  existing ≠ "" → keep_str existing incoming = existing.
Proof. unfold keep_str. by destruct existing. Qed.

(** C2: when a route row meets a record already stored under its
    normalized id, no populated field of the record is replaced, and the
    route type is replaced exactly when the stored type is the mode default
    and the incoming type is not. *)
Theorem route_merge_precedence (mode : string) (route_map route_map' : gmap string route)
    (existing : route)
    (rid agency short long desc rtype url color text_color sort_order : value) :
  let row : route_tuple :=
    (rid, agency, short, long, desc, rtype, url, color, text_color, sort_order) in
  normalize_route_id rid ≠ "" →
  route_map !! normalize_route_id rid = Some existing →
  process_route_row mode route_map row = Ok route_map' →
  ∃ incoming d merged,
    incoming_route mode (normalize_route_id rid) row = Ok incoming
    ∧ default_route_type mode = Ok d
    ∧ route_map' = <[normalize_route_id rid := merged]> route_map
    ∧ route_id merged = route_id existing
    ∧ (¬ empty_opt (agency_id existing) → agency_id merged = agency_id existing)
    ∧ (route_short_name existing ≠ "" →
       route_short_name merged = route_short_name existing)
    ∧ (route_long_name existing ≠ "" → route_long_name merged = route_long_name existing)
    ∧ (¬ empty_opt (route_desc existing) → route_desc merged = route_desc existing)
    ∧ (¬ empty_opt (route_url existing) → route_url merged = route_url existing)
    ∧ (¬ empty_opt (route_color existing) → route_color merged = route_color existing)
    ∧ (¬ empty_opt (route_text_color existing) →
       route_text_color merged = route_text_color existing)
    ∧ (route_sort_order existing ≠ None →
       route_sort_order merged = route_sort_order existing)
    ∧ (route_type existing = d ∧ route_type incoming ≠ d →
       route_type merged = route_type incoming)
    ∧ (¬ (route_type existing = d ∧ route_type incoming ≠ d) →
       route_type merged = route_type existing).
Proof.
  intros row Hrid Hexisting. unfold process_route_row. simpl.
  apply truthy_str_true in Hrid as Htruthy. rewrite Htruthy. simpl.
  intros H. apply bind_Ok in H as (incoming & Hincoming & H).
  rewrite Hexisting in H. apply bind_Ok in H as (merged & Hmerged & H).
  injection H as <-. unfold merge_route in Hmerged.
  apply bind_Ok in Hmerged as (d & Hd & Hmerged). injection Hmerged as <-.
  exists incoming, d, (merge_fields d existing incoming).
  repeat (split; [first [done | by apply keep_opt_populated
                         | by apply keep_str_populated]|]); simpl.
  - split; [by destruct (route_sort_order existing)|].
    split.
    + intros [-> Hne]. rewrite Z.eqb_refl. simpl.
      by apply Z.eqb_neq in Hne as ->.
    + intros Hnot.
      destruct (Z.eqb_spec (route_type existing) d) as [He|He]; [|done].
      destruct (Z.eqb_spec (route_type incoming) d) as [Hi|Hi]; [done|tauto].
Qed.

(** ** Route-stop sequencer *)

Lemma get_sequence_Some rsm key x :
  get_sequence rsm key = Some x ↔ rsm !! key = Some (Some x).
Proof.
  unfold get_sequence. destruct (rsm !! key) as [[y|]|]; simpl; split; congruence.
Qed.

Lemma get_sequence_insert rsm key v key' :
  get_sequence (<[key := v]> rsm) key' =
  if decide (key = key') then v else get_sequence rsm key'.
Proof.
  unfold get_sequence. rewrite lookup_insert. by destruct (decide (key = key')).
Qed.

(** The update stores the minimum of what was stored and what comes in. *)
Lemma get_sequence_update rsm key next key' :
  get_sequence (update_sequence rsm key next) key' =
  if decide (key = key') then min_seq (get_sequence rsm key) next
  else get_sequence rsm key'.
Proof.
  unfold update_sequence.
  destruct (get_sequence rsm key) as [existing|] eqn:Hget.
  - destruct next as [n|]; simpl.
    + destruct (Z.ltb_spec n existing).
      * rewrite get_sequence_insert. case_decide; [|done]. f_equal. lia.
      * case_decide; [subst key'; rewrite Hget; f_equal; lia | done].
    + case_decide; [by subst key' | done].
  - rewrite get_sequence_insert. by case_decide.
Qed.

Lemma is_Some_update rsm key next key' :
  is_Some (update_sequence rsm key next !! key') ↔ key = key' ∨ is_Some (rsm !! key').
Proof.
  unfold update_sequence.
  destruct (get_sequence rsm key) as [existing|] eqn:Hget.
  - apply get_sequence_Some in Hget.
    assert (key = key' ∨ is_Some (rsm !! key') ↔ is_Some (rsm !! key')) as ->.
    { split; [intros [<-|?]; [by rewrite Hget | done] | by right]. }
    destruct next as [n|]; [|done]. destruct (n <? existing); [|done].
    rewrite lookup_insert. case_decide; [subst key'; rewrite Hget; split; eauto | done].
  - rewrite lookup_insert. case_decide; [split; eauto | tauto].
Qed.

Lemma min_seq_assoc a b c : min_seq (min_seq a b) c = min_seq a (min_seq b c).
Proof. destruct a, b, c; simpl; try done. f_equal. lia. Qed.

Lemma min_seq_None_r a : min_seq a None = a.
Proof. by destruct a. Qed.

Lemma minimum_app l1 l2 : minimum (l1 ++ l2) = min_seq (minimum l1) (minimum l2).
Proof.
  induction l1 as [|x l1 IH]; [done|].
  change (min_seq (Some x) (minimum (l1 ++ l2)) =
          min_seq (min_seq (Some x) (minimum l1)) (minimum l2)).
  by rewrite IH, min_seq_assoc.
Qed.

(** One iteration, read through [resolve]. *)
Lemma process_stop_time_row_resolve lk sq row sq' :
  process_stop_time_row lk sq row = Ok sq' →
  match resolve lk row with
  | Some key =>
      ∃ next, parse_int_or_none row.2 = Ok next
              ∧ route_stop_map sq' = update_sequence (route_stop_map sq) key next
  | None => route_stop_map sq' = route_stop_map sq
  end.
Proof.
  destruct row as [[tid sid] sseq]. unfold process_stop_time_row, resolve.
  destruct (negb _ || negb _); [by intros [= <-]|].
  destruct (lk_trip_map lk !! _) as [[r d]|]; simpl; [|by intros [= <-]].
  destruct (lk_station_map lk !! _) as [st|]; simpl; [|by intros [= <-]].
  intros H. apply bind_Ok in H as (next & Hnext & [= <-]). by exists next.
Qed.

Lemma observed_cons lk key row rows :
  observed lk key (row :: rows) = (observed lk key [row] ++ observed lk key rows)%list.
Proof. unfold observed. simpl. by rewrite app_nil_r. Qed.

(** What one returning iteration does to the sequence stored for [key]. *)
Lemma process_stop_time_row_sequence lk sq row sq' key :
  process_stop_time_row lk sq row = Ok sq' →
  get_sequence (route_stop_map sq') key
  = min_seq (get_sequence (route_stop_map sq) key) (minimum (observed lk key [row]))
  ∧ (is_Some (route_stop_map sq' !! key)
     ↔ is_Some (route_stop_map sq !! key) ∨ resolve lk row = Some key).
Proof.
  intros H%process_stop_time_row_resolve. unfold observed. simpl.
  destruct (resolve lk row) as [key0|].
  - destruct H as (next & Hnext & ->).
    rewrite get_sequence_update, is_Some_update, Hnext.
    destruct (decide (key0 = key)) as [->|Hne].
    + rewrite decide_True by done. split; [|tauto].
      destruct next as [n|]; simpl; [done|]. by rewrite min_seq_None_r.
    + rewrite decide_False by congruence. simpl. rewrite min_seq_None_r.
      split; [done|]. split; [intros [?|?]; [done|by left] | intros [?|?]; [by right|congruence]].
  - rewrite H, decide_False by done. simpl. rewrite min_seq_None_r.
    split; [done|]. split; [by left | by intros [?|?]].
Qed.

(** C3: when the stop-time loop returns, the sequence stored for a key is
    the minimum of what was stored before and of the concrete sequences
    the rows brought for that key (null when there is none), and the keys
    of the map are the earlier keys and the keys some row resolved to; an
    incoming null leaves a stored value, an incoming value replaces a
    stored null. *)
Theorem sequence_is_minimum (lk : lookups) (sq sq' : sequencer)
    (rows : list stop_time_tuple) :
  stop_times_loop lk sq rows = Ok sq' →
  (∀ key, get_sequence (route_stop_map sq') key
          = min_seq (get_sequence (route_stop_map sq) key)
                    (minimum (observed lk key rows)))
  ∧ (∀ key, is_Some (route_stop_map sq' !! key)
            ↔ is_Some (route_stop_map sq !! key)
              ∨ ∃ row, row ∈ rows ∧ resolve lk row = Some key)
  ∧ (∀ rsm key x, get_sequence rsm key = Some x →
                  get_sequence (update_sequence rsm key None) key = Some x)
  ∧ (∀ rsm key n, get_sequence rsm key = None →
                  get_sequence (update_sequence rsm key (Some n)) key = Some n).
Proof.
  intros Hloop. split; [|split; [|split]].
  - intros key. revert sq Hloop.
    induction rows as [|row rows IH]; intros sq Hloop; simpl in Hloop.
    + injection Hloop as <-. simpl. by rewrite min_seq_None_r.
    + apply bind_Ok in Hloop as (sq1 & Hrow & Hloop).
      rewrite (IH _ Hloop), observed_cons, minimum_app, <- min_seq_assoc.
      by destruct (process_stop_time_row_sequence _ _ _ _ key Hrow) as [-> _].
  - intros key. revert sq Hloop.
    induction rows as [|row rows IH]; intros sq Hloop; simpl in Hloop.
    + injection Hloop as <-. split; [by left|].
      intros [?|(row & []%elem_of_nil & _)]. done.
    + apply bind_Ok in Hloop as (sq1 & Hrow & Hloop).
      rewrite (IH _ Hloop).
      destruct (process_stop_time_row_sequence _ _ _ _ key Hrow) as [_ ->].
      split.
      * intros [[?|?]|(r & Hr & ?)]; [by left | right; exists row; split; [left|done]
                                       | right; exists r; split; [by right|done]].
      * intros [?|(r & [->|Hr]%elem_of_cons & ?)];
          [by left; left | by left; right | right; by exists r].
  - intros rsm key x Hget. rewrite get_sequence_update, decide_True, Hget; done.
  - intros rsm key n Hget. rewrite get_sequence_update, decide_True, Hget; done.
Qed.

(** A stop-time row without a trip id or without a stop id is dropped
    before any lookup. *)
Lemma process_stop_time_row_blank lk sq tid sid sseq :
  normalize_text tid = "" ∨ normalize_text sid = "" →
  process_stop_time_row lk sq (tid, sid, sseq) = Ok sq.
Proof. unfold process_stop_time_row. by intros [-> | ->]; rewrite ?orb_true_r. Qed.

Lemma length_sample missing_trip_refs (missing : gset string) :
  (length (sampleMissingStopIds (report_warnings missing_trip_refs missing)) ≤ 50)%nat.
Proof. simpl. rewrite length_take. lia. Qed.

Lemma elem_of_sample missing_trip_refs (missing : gset string) x :
  x ∈ sampleMissingStopIds (report_warnings missing_trip_refs missing) → x ∈ missing.
Proof.
  simpl. intros H%subseteq_take. by rewrite elem_of_sorted, elem_of_elements in H.
Qed.

(** C7 (as amended): a stop-time row whose trip id or stop id is blank
    is dropped without being counted: it changes neither the counter, nor
    the set of missing stop ids, nor the assignments; a row that has a trip
    id and a stop id and whose trip id is absent from the trip table adds
    exactly one to the missing-trip counter and changes nothing else; a row
    that has both ids, whose trip resolves and whose station id is absent
    from the station map adds its raw stop id to the set of missing stop
    ids and changes nothing else; the report of the pass carries the
    counter, the size of the set and at most 50 members of the set. *)
Theorem missing_references_reported (lk : lookups) (sq : sequencer)
    (tid sid sseq : value) (mode : string) (p : pass) :
  let trip := normalize_text tid in
  let raw := normalize_text sid in
  (trip = "" ∨ raw = "" → process_stop_time_row lk sq (tid, sid, sseq) = Ok sq)
  ∧ (trip ≠ "" → raw ≠ "" → lk_trip_map lk !! trip = None →
     process_stop_time_row lk sq (tid, sid, sseq)
     = Ok {| route_stop_map := route_stop_map sq;
             missing_trip_refs := S (missing_trip_refs sq);
             missing_stop_ids := missing_stop_ids sq |})
  ∧ (trip ≠ "" → raw ≠ "" → is_Some (lk_trip_map lk !! trip) →
     lk_station_map lk !! default raw (lk_raw_stop_to_station lk !! raw) = None →
     process_stop_time_row lk sq (tid, sid, sseq)
     = Ok {| route_stop_map := route_stop_map sq;
             missing_trip_refs := missing_trip_refs sq;
             missing_stop_ids := {[raw]} ∪ missing_stop_ids sq |})
  ∧ missingTripRefs (res_warnings (emit mode p)) = missing_trip_refs (seq_state p)
  ∧ missingStopRefs (res_warnings (emit mode p)) = size (missing_stop_ids (seq_state p))
  ∧ (length (sampleMissingStopIds (res_warnings (emit mode p))) ≤ 50)%nat
  ∧ ∀ x, x ∈ sampleMissingStopIds (res_warnings (emit mode p)) →
         x ∈ missing_stop_ids (seq_state p).
Proof.
  intros trip raw. split; [|split; [|split; [|split; [|split; [|split]]]]].
  - apply process_stop_time_row_blank.
  - intros Htrip%truthy_str_true Hraw%truthy_str_true Hnone.
    unfold process_stop_time_row. fold trip raw. by rewrite Htrip, Hraw, Hnone.
  - intros Htrip%truthy_str_true Hraw%truthy_str_true [[r d] Hsome] Hnone.
    unfold process_stop_time_row. fold trip raw. by rewrite Htrip, Hraw, Hsome, Hnone.
  - done.
  - done.
  - apply length_sample.
  - apply elem_of_sample.
Qed.

(** ** The sink *)

Lemma table_insert_rows {A : Type} (mode : string) (rows : list A)
    (tables : gmap string (list A)) (m : string) :
  table (insert_rows mode rows tables) m =
  if decide (m = mode) then (table tables m ++ rows)%list else table tables m.
Proof.
  unfold insert_rows, table at 1. rewrite lookup_insert.
  destruct (decide (mode = m)) as [->|Hne].
  - by rewrite decide_True.
  - by rewrite decide_False by congruence.
Qed.

Lemma table_upsert_rows {A : Type} conflict resolve (news : list A)
    (tables : gmap string (list A)) (m : string) :
  m ≠ "bus" → table (upsert_rows conflict resolve news tables) m = table tables m.
Proof. intros Hne. unfold upsert_rows, table at 1. by rewrite lookup_insert_ne. Qed.

Lemma table_cleared {A : Type} (m : string) :
  table (list_to_map ((., @nil A) <$> MODES)) m = [].
Proof.
  unfold table. destruct (_ !! m) as [l|] eqn:H; [|done].
  apply elem_of_list_to_map_2, list_elem_of_fmap in H as (x & [= _ ->] & _). done.
Qed.

Section SinkProperties.
Variable fails : nat → string → bool.

Lemma execute_Ok target effect c c' :
  execute fails target effect c = Ok c' → working c' = effect (working c).
Proof. unfold execute. destruct (fails _ _); [done|]. by intros [= <-]. Qed.

Lemma execute_values_if_rows_Ok {R : Type} target (rows : list R) effect c c' :
  execute_values_if_rows fails target rows effect c = Ok c' →
  working c' = match rows with [] => working c | _ => effect (working c) end.
Proof.
  destruct rows; simpl; [by intros [= <-]|]. apply execute_Ok.
Qed.

Lemma clear_mta_tables_view c c' m :
  clear_mta_tables fails c = Ok c' → view (working c') m = ([], [], []).
Proof.
  intros ->%execute_Ok. unfold view.
  cbn [working db_stations db_routes db_route_stops]. by rewrite !table_cleared.
Qed.

(** A successful insert of a mode appends its rows to the mode's three
    tables and leaves the other modes' tables as they were. *)
Lemma insert_non_bus_mode_view mode res c c' m :
  insert_non_bus_mode fails mode res c = Ok c' →
  view (working c') m =
  if decide (m = mode)
  then ((view (working c) m).1.1 ++ stations_rows res,
        (view (working c) m).1.2 ++ routes_rows res,
        (view (working c) m).2 ++ route_stops_rows res)%list
  else view (working c) m.
Proof.
  unfold insert_non_bus_mode. intros H.
  apply bind_Ok in H as (c1 & H1%execute_values_if_rows_Ok & H).
  apply bind_Ok in H as (c2 & H2%execute_values_if_rows_Ok & H3%execute_values_if_rows_Ok).
  unfold view. rewrite H3.
  assert (∀ A (t : gmap string (list A)) rows,
            table (match rows with [] => t | _ => insert_rows mode rows t end) m
            = if decide (m = mode) then (table t m ++ rows)%list else table t m) as Hins.
  { intros A t [|x rows]; [|apply table_insert_rows].
    case_decide; [by rewrite app_nil_r | done]. }
  specialize (Hins _ (db_stations (working c)) (stations_rows res)) as Hs.
  specialize (Hins _ (db_routes (working c1)) (routes_rows res)) as Hr.
  specialize (Hins _ (db_route_stops (working c2)) (route_stops_rows res)) as Hrs.
  assert (db_route_stops (working c2) = db_route_stops (working c)) as E1.
  { rewrite H2. destruct (routes_rows res); simpl; rewrite H1;
      by destruct (stations_rows res). }
  assert (db_routes (working c1) = db_routes (working c)) as E2.
  { rewrite H1. by destruct (stations_rows res). }
  rewrite E1 in Hrs. rewrite E2 in Hr. simpl.
  replace (table (db_stations _) m)
    with (table (match stations_rows res with
                 | [] => db_stations (working c)
                 | _ => insert_rows mode (stations_rows res) (db_stations (working c))
                 end) m).
  2:{ destruct (route_stops_rows res); simpl; rewrite H2;
        destruct (routes_rows res); simpl; rewrite H1;
        by destruct (stations_rows res). }
  replace (table (db_routes _) m)
    with (table (match routes_rows res with
                 | [] => db_routes (working c)
                 | _ => insert_rows mode (routes_rows res) (db_routes (working c))
                 end) m).
  2:{ destruct (route_stops_rows res); simpl; rewrite H2;
        destruct (routes_rows res); simpl; rewrite H1;
        by destruct (stations_rows res). }
  replace (table (db_route_stops _) m)
    with (table (match route_stops_rows res with
                 | [] => db_route_stops (working c)
                 | _ => insert_rows mode (route_stops_rows res)
                          (db_route_stops (working c))
                 end) m).
  2:{ destruct (route_stops_rows res); simpl; rewrite H2;
        destruct (routes_rows res); simpl; rewrite H1;
        by destruct (stations_rows res). }
  rewrite Hs, Hr, Hrs. by case_decide.
Qed.

Lemma upsert_bus_mode_view res c c' m :
  m ≠ "bus" → upsert_bus_mode fails res c = Ok c' →
  view (working c') m = view (working c) m.
Proof.
  intros Hm. unfold upsert_bus_mode. intros H.
  apply bind_Ok in H as (c1 & H1%execute_values_if_rows_Ok & H).
  apply bind_Ok in H as (c2 & H2%execute_values_if_rows_Ok & H3%execute_values_if_rows_Ok).
  unfold view. rewrite H3.
  destruct (route_stops_rows res); simpl; rewrite H2;
    destruct (routes_rows res); simpl; rewrite H1;
    destruct (stations_rows res); simpl;
    by rewrite ?table_upsert_rows.
Qed.

Lemma bus_loop_view bus_feeds acc acc' m :
  m ≠ "bus" → for_each (bus_step fails) bus_feeds acc = Ok acc' →
  view (working acc'.1) m = view (working acc.1) m.
Proof.
  intros Hm.
  apply (for_each_invariant _ (λ a, view (working a.1) m = view (working acc.1) m));
    [|done].
  intros [c t] feed [c' t'] _ Hview Hstep. simpl in *.
  apply bind_Ok in Hstep as (bus & _ & Hstep).
  apply bind_Ok in Hstep as (c1 & Hc1 & [= <- _]).
  by rewrite (upsert_bus_mode_view _ _ _ _ Hm Hc1).
Qed.

(** What a run that reaches its end has written for the three
    single-dataset modes. *)
Lemma main_body_Ok subway lirr mnr bus_feeds c c' rep :
  main_body fails subway lirr mnr bus_feeds c = Ok (c', rep) →
  ∃ r_subway r_lirr r_mnr,
    process_mode "subway" [subway] = Ok r_subway
    ∧ process_mode "lirr" [lirr] = Ok r_lirr
    ∧ process_mode "mnr" [mnr] = Ok r_mnr
    ∧ view (working c') "subway" = rows_of r_subway
    ∧ view (working c') "lirr" = rows_of r_lirr
    ∧ view (working c') "mnr" = rows_of r_mnr.
Proof.
  unfold main_body. intros H.
  apply bind_Ok in H as (c0 & Hclear & H).
  apply bind_Ok in H as (r_subway & Hsubway & H).
  apply bind_Ok in H as (c1 & H1 & H).
  apply bind_Ok in H as (r_lirr & Hlirr & H).
  apply bind_Ok in H as (c2 & H2 & H).
  apply bind_Ok in H as (r_mnr & Hmnr & H).
  apply bind_Ok in H as (c3 & H3 & H).
  apply bind_Ok in H as ([c4 t] & Hbus & [= <- _]).
  exists r_subway, r_lirr, r_mnr. split; [done|]. split; [done|]. split; [done|].
  assert (∀ m, m ≠ "bus" → view (working c4) m = view (working c3) m) as Hframe.
  { intros m Hm. apply (bus_loop_view _ _ _ _ Hm Hbus). }
  pose proof (λ m, clear_mta_tables_view _ _ m Hclear) as V0.
  pose proof (λ m, insert_non_bus_mode_view _ _ _ _ m H1) as V1.
  pose proof (λ m, insert_non_bus_mode_view _ _ _ _ m H2) as V2.
  pose proof (λ m, insert_non_bus_mode_view _ _ _ _ m H3) as V3.
  rewrite !Hframe by done.
  rewrite (V3 "subway"), (V3 "lirr"), (V3 "mnr").
  rewrite (V2 "subway"), (V2 "lirr"). rewrite (V1 "subway"), (V1 "lirr"), (V2 "mnr").
  rewrite (V1 "mnr"). rewrite !V0. done.
Qed.
End SinkProperties.

(** C9 (as amended): the clearing of the tables and the writes of all the
    modes of a run form one transaction. A run that fails at any point
    leaves the database exactly as it found it, earlier modes' writes
    included; a run that reaches its end leaves, for each single-dataset
    mode, exactly the rows emitted for that mode. No other state is ever
    committed. *)
Theorem run_is_one_transaction (fails : nat → string → bool)
    (subway lirr mnr : Feed) (bus_feeds : list Feed) (db : database) :
  (∀ e, (main fails subway lirr mnr bus_feeds db).2 = Raise e →
        (main fails subway lirr mnr bus_feeds db).1 = db)
  ∧ (∀ rep, (main fails subway lirr mnr bus_feeds db).2 = Ok rep →
       ∃ r_subway r_lirr r_mnr,
         process_mode "subway" [subway] = Ok r_subway
         ∧ process_mode "lirr" [lirr] = Ok r_lirr
         ∧ process_mode "mnr" [mnr] = Ok r_mnr
         ∧ view (main fails subway lirr mnr bus_feeds db).1 "subway" = rows_of r_subway
         ∧ view (main fails subway lirr mnr bus_feeds db).1 "lirr" = rows_of r_lirr
         ∧ view (main fails subway lirr mnr bus_feeds db).1 "mnr" = rows_of r_mnr).
Proof.
  unfold main, with_conn. destruct bus_feeds as [|feed bus_feeds]; [split; done|].
  destruct (main_body _ _ _ _ _ _) as [[c rep]|e] eqn:Hbody; simpl; split; try done.
  intros _ _. by eapply main_body_Ok.
Qed.

(** ** Row normalizer *)

Lemma float_of_str_Raise s e : float_of_str s = Raise e → e = ValueError.
Proof.
  unfold float_of_str. destruct (drop_underscores false s) as [t|]; [|by intros [= <-]].
  destruct (take_sign t) as [neg body].
  destruct (_ || _); [done|]. destruct (String.eqb _ _); [done|].
  destruct (read_decimal neg body); [done | by intros [= <-]].
Qed.

(** Integer parsing raises exactly on the texts that read as an infinite
    float, and then with [OverflowError]. *)
Lemma parse_int_or_none_Raise v e :
  parse_int_or_none v = Raise e ↔
  e = OverflowError ∧ ∃ neg, float_of_str (normalize_text v) = Ok (FInf neg).
Proof.
  unfold parse_int_or_none. destruct (normalize_text v) as [|c s] eqn:Hv; simpl.
  { split; [done|]. by intros [_ [neg H]]. }
  destruct (float_of_str (String c s)) as [f|e'] eqn:Hf; simpl.
  - destruct f as [|neg|neg m x]; simpl; split; try done.
    + by intros [_ [neg [=]]].
    + intros [= <-]. eauto.
    + by intros [-> _].
    + by intros [_ [neg' [=]]].
  - apply float_of_str_Raise in Hf as ->. simpl. split; [done|]. by intros [_ [neg H]].
Qed.

(** Where direction parsing returns, it returns 0 or 1. *)
Lemma parse_direction_id_range v d : parse_direction_id v = Ok d → d = 0 ∨ d = 1.
Proof.
  unfold parse_direction_id.
  destruct (negb _); [intros [= <-]; by left|].
  destruct (String.eqb _ "N"); [intros [= <-]; by left|].
  destruct (String.eqb _ "S"); [intros [= <-]; by right|].
  intros H. apply bind_Ok in H as (parsed & _ & H).
  destruct parsed as [[|[| |]|]|]; injection H as <-; auto.
Qed.

Lemma parse_direction_id_letters v :
  (upper (normalize_text v) = "N" → parse_direction_id v = Ok 0)
  ∧ (upper (normalize_text v) = "S" → parse_direction_id v = Ok 1)
  ∧ (normalize_text v = "" → parse_direction_id v = Ok 0).
Proof.
  unfold parse_direction_id. split; [|split]; by intros ->.
Qed.

(** ** Totals of the stop-time loop *)

Lemma process_stop_time_row_warnings lk sq row sq' :
  process_stop_time_row lk sq row = Ok sq' →
  missing_trip_refs sq'
  = (missing_trip_refs sq + if missing_trip lk row then 1 else 0)%nat
  ∧ missing_stop_ids sq'
    = list_to_set (option_list (missing_stop lk row)) ∪ missing_stop_ids sq.
Proof.
  destruct row as [[tid sid] sseq]. unfold process_stop_time_row, missing_trip, missing_stop.
  destruct (truthy_str (normalize_text tid)); simpl;
    [|intros [= <-]; split; [lia | set_solver]].
  destruct (truthy_str (normalize_text sid)); simpl;
    [|intros [= <-]; split; [lia | set_solver]].
  destruct (lk_trip_map lk !! _) as [[r d]|] eqn:Htrip.
  - rewrite bool_decide_eq_false_2 by done.
    rewrite bool_decide_eq_true_2 by eauto.
    destruct (lk_station_map lk !! _) as [st|] eqn:Hst.
    + rewrite bool_decide_eq_false_2 by done. simpl.
      intros H. apply bind_Ok in H as (next & _ & [= <-]). simpl.
      split; [lia | set_solver].
    + rewrite bool_decide_eq_true_2 by done. simpl. intros [= <-]. simpl.
      split; [lia | set_solver].
  - rewrite bool_decide_eq_true_2 by done.
    rewrite bool_decide_eq_false_2 by (by intros [? ?]). simpl.
    intros [= <-]. simpl. split; [lia | set_solver].
Qed.

(** When the loop returns, the counter has grown by the number of rows
    with an unknown trip id, and the set by the stop ids of the rows with
    an unknown station. *)
Lemma stop_times_loop_warnings lk rows sq sq' :
  stop_times_loop lk sq rows = Ok sq' →
  missing_trip_refs sq'
  = (missing_trip_refs sq + length (filter (λ row, missing_trip lk row = true) rows))%nat
  ∧ missing_stop_ids sq'
    = list_to_set (omap (missing_stop lk) rows) ∪ missing_stop_ids sq.
Proof.
  revert sq. induction rows as [|row rows IH]; intros sq Hloop; simpl in Hloop.
  - injection Hloop as <-. simpl. split; [lia | set_solver].
  - apply bind_Ok in Hloop as (sq1 & Hrow & Hloop).
    destruct (IH _ Hloop) as [-> ->].
    destruct (process_stop_time_row_warnings _ _ _ _ Hrow) as [-> ->].
    split.
    + rewrite filter_cons.
      destruct (missing_trip lk row);
        [rewrite decide_True by done | rewrite decide_False by done]; simpl; lia.
    + change (omap (missing_stop lk) (row :: rows))
        with (match missing_stop lk row with
              | Some y => y :: omap (missing_stop lk) rows
              | None => omap (missing_stop lk) rows
              end).
      destruct (missing_stop lk row); simpl; set_solver.
Qed.

(** * Concrete runs *)

Lemma station_clustering_witness :
  (∃ srow, srow ∈ stations_rows demo_result ∧ sr_stop_id srow = "101"
           ∧ "101N" ∈ sr_child_stop_ids_json srow)
  ∧ station_id_of "subway" "101N" "101" = "101".
Proof.
  destruct (station_clustering "subway" [demo_feed] demo_result demo_feed
              (PyObj "101N") (PyObj "Times Sq") PyNone PyNone (PyObj "101"))
    as [Hsubway _].
  - vm_compute. reflexivity.
  - left.
  - vm_compute. left.
  - vm_compute. discriminate.
  - destruct Hsubway as [Hid Hrow]; [vm_compute; discriminate..|].
    split; [exact Hrow | exact Hid].
Defined.

Lemma route_merge_precedence_witness :
  ∃ merged, merged_route_map = <["A" := merged]> {[ "A" := stored_route ]}
            ∧ agency_id merged = Some "MTA NYCT"
            ∧ route_short_name merged = "A"
            ∧ route_color merged = Some "0039A6"
            ∧ route_sort_order merged = Some 0
            ∧ route_type merged = 1.
Proof.
  destruct (route_merge_precedence "subway" {[ "A" := stored_route ]} merged_route_map
              stored_route (PyObj " a ") (PyObj "other") (PyObj "A8")
              (PyObj "8 Avenue Express") PyNaN (PyObj "0.0") PyNone (PyObj "FFFFFF")
              (PyObj "FFFFFF") (PyObj "7"))
    as (incoming & d & merged & Hincoming & Hd & Hmap & _ & Hagency & Hshort & _ & _ & _
        & Hcolor & _ & Hsort & _ & Htype).
  - vm_compute. discriminate.
  - vm_compute. reflexivity.
  - vm_compute. reflexivity.
  - exists merged. split; [exact Hmap|].
    split; [apply Hagency; vm_compute; intros [H|H]; discriminate H|].
    split; [apply Hshort; vm_compute; discriminate|].
    split; [apply Hcolor; vm_compute; intros [H|H]; discriminate H|].
    split; [apply Hsort; vm_compute; discriminate|].
    rewrite Htype; [reflexivity|].
    injection Hd as <-. vm_compute in Hincoming. injection Hincoming as <-.
    vm_compute. intros [_ H]. apply H. reflexivity.
Defined.

Lemma sequence_is_minimum_witness :
  stop_times_loop demo_lookups (seq_state initial_pass) demo_rows = Ok demo_sequencer
  ∧ get_sequence (route_stop_map demo_sequencer) ("A", 0, "101") = Some 1.
Proof.
  assert (stop_times_loop demo_lookups (seq_state initial_pass) demo_rows
          = Ok demo_sequencer) as Hloop by (vm_compute; reflexivity).
  split; [exact Hloop|].
  destruct (sequence_is_minimum _ _ _ _ Hloop) as [Hmin _].
  rewrite Hmin. vm_compute. reflexivity.
Defined.

Lemma assignments_reference_emitted_stations_witness :
  ∃ s, s ∈ stations_rows demo_result ∧ sr_stop_id s = "101".
Proof.
  apply (assignments_reference_emitted_stations "subway" [demo_feed] demo_result)
    with (r := {| rs_route_id := "A"; rs_direction_id := 0; rs_stop_id := "101";
                  rs_route_stop_sort_order := Some 1 |}).
  - vm_compute. reflexivity.
  - vm_compute. left.
Defined.

(** C4, counterexample: with the stop sequences [""] and ["3000000000"]
    on one route and direction, the row without a sequence is emitted
    before the row with sequence 3000000000. *)
Lemma absent_sequence_before_concrete_one :
  ∃ res, process_mode "subway" [large_sequence_feed] = Ok res
         ∧ route_stops_rows res
           = [ {| rs_route_id := "A"; rs_direction_id := 0; rs_stop_id := "X";
                  rs_route_stop_sort_order := None |};
               {| rs_route_id := "A"; rs_direction_id := 0; rs_stop_id := "Y";
                  rs_route_stop_sort_order := Some 3000000000 |} ]
         ∧ ¬ StronglySorted assignment_lt_inf (route_stops_rows res).
Proof.
  destruct (process_mode "subway" [large_sequence_feed]) as [res|e] eqn:Hres;
    [|vm_compute in Hres; discriminate Hres].
  exists res. split; [reflexivity|].
  assert (route_stops_rows res
          = [ {| rs_route_id := "A"; rs_direction_id := 0; rs_stop_id := "X";
                 rs_route_stop_sort_order := None |};
              {| rs_route_id := "A"; rs_direction_id := 0; rs_stop_id := "Y";
                 rs_route_stop_sort_order := Some 3000000000 |} ]) as Hrows.
  { vm_compute in Hres. injection Hres as <-. reflexivity. }
  split; [exact Hrows|]. rewrite Hrows.
  intros [_ Hhd]%StronglySorted_inv.
  apply Forall_cons in Hhd as [Hlt _].
  unfold assignment_lt_inf, assignment_lt, str_lt in Hlt. simpl in Hlt.
  destruct Hlt as [H|[_ [H|[_ [H|[H _]]]]]]; try discriminate H; try lia; done.
Qed.

(** C5, at the failing input: the text ["inf"] reads as a float, the
    float has no integer value, and the [OverflowError] of the conversion
    is not caught. The same happens for a decimal literal beyond the
    range of doubles. *)
Theorem parse_int_or_none_raises_on_infinity :
  parse_int_or_none (PyObj "inf") = Raise OverflowError
  ∧ parse_int_or_none (PyObj "1e999") = Raise OverflowError.
Proof. split; vm_compute; reflexivity. Qed.

(** C6, at the failing input: a route row with route type 0 in subway
    mode is stored with the mode default 1, while its sort order 0 is
    stored as 0. *)
Theorem route_type_zero_read_as_absent :
  ∃ stored, process_route_row "subway" ∅ tram_route_row = Ok {[ "T" := stored ]}
            ∧ route_type stored = 1
            ∧ route_sort_order stored = Some 0.
Proof.
  eexists {| route_id := "T"; agency_id := None; route_short_name := "T";
             route_long_name := "Tram"; route_desc := None; route_type := 1;
             route_url := None; route_color := None; route_text_color := None;
             route_sort_order := Some 0 |}.
  split; [vm_compute; reflexivity|]. split; reflexivity.
Qed.

(** C7, counterexample: a stop-time row with an unknown trip id and a
    blank stop id leaves the missing-trip counter where it was. *)
Lemma unknown_trip_with_blank_stop_not_counted :
  ¬ counts_unknown_trip empty_lookups (seq_state initial_pass)
      (PyObj "T9", PyObj " ", PyObj "1").
Proof.
  intros H. destruct H as (sq' & Hrow & Hcount & _); [reflexivity|].
  vm_compute in Hrow. injection Hrow as <-. discriminate Hcount.
Qed.

Lemma missing_references_reported_witness :
  process_stop_time_row demo_lookups (seq_state initial_pass)
    (PyObj "T9", PyObj " ", PyObj "1")
  = Ok (seq_state initial_pass)
  ∧ process_stop_time_row demo_lookups (seq_state initial_pass)
      (PyObj "T9", PyObj "201", PyObj "4")
    = Ok {| route_stop_map := ∅; missing_trip_refs := 1; missing_stop_ids := ∅ |}
  ∧ process_stop_time_row demo_lookups (seq_state initial_pass)
      (PyObj "T1", PyObj "999", PyObj "5")
    = Ok {| route_stop_map := ∅; missing_trip_refs := 0;
            missing_stop_ids := {[ "999" ]} ∪ ∅ |}.
Proof.
  split; [|split].
  - destruct (missing_references_reported demo_lookups (seq_state initial_pass)
                (PyObj "T9") (PyObj " ") (PyObj "1") "subway" initial_pass)
      as (Hblank & _).
    apply Hblank. right. vm_compute. reflexivity.
  - destruct (missing_references_reported demo_lookups (seq_state initial_pass)
                (PyObj "T9") (PyObj "201") (PyObj "4") "subway" initial_pass)
      as (_ & Htrip & _).
    apply Htrip.
    + vm_compute. discriminate.
    + vm_compute. discriminate.
    + vm_compute. reflexivity.
  - destruct (missing_references_reported demo_lookups (seq_state initial_pass)
                (PyObj "T1") (PyObj "999") (PyObj "5") "subway" initial_pass)
      as (_ & _ & Hstop & _).
    apply Hstop.
    + vm_compute. discriminate.
    + vm_compute. discriminate.
    + vm_compute. eexists. reflexivity.
    + vm_compute. reflexivity.
Defined.

(** C8, at the failing input: the direction ["inf"] is neither N nor S,
    and the integer parse that should classify it raises. *)
Theorem parse_direction_id_raises_on_infinity :
  parse_direction_id (PyObj "inf") = Raise OverflowError.
Proof. vm_compute. reflexivity. Qed.

(** C9, counterexample: the subway write succeeds, the first LIRR write
    is rejected, and the run leaves the database without the subway
    rows. *)
Lemma subway_write_rolled_back :
  ¬ subway_write_survives lirr_rejected demo_feed demo_feed demo_feed [demo_feed]
      empty_database.
Proof.
  intros H.
  assert (process_mode "subway" [demo_feed] = Ok demo_result) as Hres
    by (vm_compute; reflexivity).
  destruct (clear_mta_tables lirr_rejected {| working := empty_database; executed := 0%nat |}
              ≫= insert_non_bus_mode lirr_rejected "subway" demo_result)
    as [c|e] eqn:Hwrite; [|vm_compute in Hwrite; discriminate Hwrite].
  specialize (H demo_result c Hres Hwrite).
  assert ((main lirr_rejected demo_feed demo_feed demo_feed [demo_feed] empty_database).2
          = Raise DatabaseError) as Hfail by (vm_compute; reflexivity).
  specialize (H Hfail). vm_compute in H. discriminate H.
Qed.

Lemma run_is_one_transaction_witness :
  (main lirr_rejected demo_feed demo_feed demo_feed [demo_feed] empty_database).1
  = empty_database
  ∧ view (main accepting demo_feed demo_feed demo_feed [demo_feed] empty_database).1
      "subway"
    = rows_of demo_result.
Proof.
  split.
  - apply (run_is_one_transaction lirr_rejected demo_feed demo_feed demo_feed
             [demo_feed] empty_database) with (e := DatabaseError).
    vm_compute. reflexivity.
  - destruct (main accepting demo_feed demo_feed demo_feed [demo_feed] empty_database).2
      as [rep|e] eqn:Hout; [|vm_compute in Hout; discriminate Hout].
    destruct (proj2 (run_is_one_transaction accepting demo_feed demo_feed demo_feed
                       [demo_feed] empty_database) rep Hout)
      as (r_subway & _ & _ & Hsubway & _ & _ & Hview & _).
    rewrite Hview. f_equal.
    assert (process_mode "subway" [demo_feed] = Ok demo_result) as Hres
      by (vm_compute; reflexivity).
    congruence.
Defined.

Lemma emitted_assignments_sorted_witness :
  StronglySorted assignment_lt_inf (route_stops_rows (emit "subway" demo_pass)).
Proof.
  apply (emitted_assignments_sorted "subway" demo_pass).
  intros r n Hr Hn. vm_compute in Hr.
  apply elem_of_cons in Hr as [->|Hr]; [injection Hn as <-; lia|].
  apply elem_of_cons in Hr as [->|Hr]; [discriminate Hn|].
  by apply elem_of_nil in Hr.
Defined.

(** * Further properties *)

(** ** Text normalization *)



Lemma first_char_lstrip s c : first_char (lstrip s) = Some c → isspace c = false.
Proof.
  induction s as [|d s IH]; simpl; [done|].
  destruct (isspace d) eqn:Hd; [done|]. simpl. by intros [= <-].
Qed.

Lemma first_char_rstrip s c :
  first_char s = Some c → isspace c = false → first_char (rstrip s) = Some c.
Proof.
  destruct s as [|d s]; simpl; [done|]. intros [= ->] Hc.
  destruct (rstrip s); [by rewrite Hc | done].
Qed.

Lemma first_char_rstrip_inv s c : first_char (rstrip s) = Some c → first_char s = Some c.
Proof.
  destruct s as [|d s]; simpl; [done|].
  destruct (rstrip s); [by destruct (isspace d) | done].
Qed.

Lemma last_char_rstrip s c : last_char (rstrip s) = Some c → isspace c = false.
Proof.
  induction s as [|d s IH]; simpl; [done|].
  destruct (rstrip s) as [|e t] eqn:Ht.
  - destruct (isspace d) eqn:Hd; simpl; [done|]. by intros [= <-].
  - intros H. apply IH. exact H.
Qed.

Lemma lstrip_id s : (∀ c, first_char s = Some c → isspace c = false) → lstrip s = s.
Proof. destruct s as [|d s]; simpl; [done|]. intros H. by rewrite (H d). Qed.

Lemma rstrip_id s : (∀ c, last_char s = Some c → isspace c = false) → rstrip s = s.
Proof.
  induction s as [|d s IH]; simpl; [done|]. intros H.
  destruct s as [|e t].
  - simpl. by rewrite (H d).
  - rewrite IH by exact H. done.
Qed.

Lemma strip_trimmed s : trimmed (strip s).
Proof.
  unfold strip. split.
  - intros c H%first_char_rstrip_inv. by eapply first_char_lstrip.
  - apply last_char_rstrip.
Qed.

Lemma strip_id s : trimmed s → strip s = s.
Proof. intros [Hf Hl]. unfold strip. by rewrite lstrip_id, rstrip_id. Qed.


(** ** Route id normalization *)

Lemma isspace_upper_char c : isspace (upper_char c) = isspace c.
Proof. destruct c as [[] [] [] [] [] [] [] []]; reflexivity. Qed.


Lemma upper_char_idemp c : upper_char (upper_char c) = upper_char c.
Proof. destruct c as [[] [] [] [] [] [] [] []]; reflexivity. Qed.


Lemma upper_idemp s : upper (upper s) = upper s.
Proof. induction s as [|c s IH]; simpl; [done|]. by rewrite upper_char_idemp, IH. Qed.


(** Stripping commutes with a change of case that keeps whitespace. *)
Section StripMap.
Variable f : ascii → ascii.
Hypothesis isspace_f : ∀ c, isspace (f c) = isspace c.

Let map_string := fix go (s : string) : string :=
  match s with
  | EmptyString => EmptyString
  | String c s' => String (f c) (go s')
  end.

Lemma lstrip_map s : lstrip (map_string s) = map_string (lstrip s).
Proof.
  induction s as [|c s IH]; simpl; [done|]. rewrite isspace_f.
  by destruct (isspace c).
Qed.

Lemma rstrip_map s : rstrip (map_string s) = map_string (rstrip s).
Proof.
  induction s as [|c s IH]; simpl; [done|]. rewrite IH, isspace_f.
  destruct (rstrip s); simpl; [by destruct (isspace c) | done].
Qed.

Lemma strip_map s : strip (map_string s) = map_string (strip s).
Proof. unfold strip. by rewrite lstrip_map, rstrip_map. Qed.
End StripMap.

Lemma strip_upper s : strip (upper s) = upper (strip s).
Proof. apply (strip_map upper_char isspace_upper_char). Qed.



(** ** Integer parsing of plain decimal texts *)

Lemma digit_char_facts c s :
  isdigit c = true →
  isspace c = false ∧ is_underscore c = false
  ∧ 0 ≤ digit_val c ≤ 9
  ∧ take_sign (String c s) = (false, String c s)
  ∧ String.eqb (lower (String c s)) "inf" = false
  ∧ String.eqb (lower (String c s)) "infinity" = false
  ∧ String.eqb (lower (String c s)) "nan" = false.
Proof.
  destruct c as [[] [] [] [] [] [] [] []]; intros H; try discriminate H;
    (split; [reflexivity|]); (split; [reflexivity|]);
    (split; [unfold digit_val; simpl; lia|]); repeat split; reflexivity.
Qed.

Lemma all_digits_trimmed s : all_digits s → trimmed s.
Proof.
  intros Hs. split.
  - destruct s as [|c s]; simpl; [done|]. intros d [= <-].
    by apply (digit_char_facts c s), Hs.
  - induction s as [|c s IH]; simpl; [done|]. destruct Hs as [Hc Hs].
    destruct s as [|d t]; [|by apply IH].
    intros ? [= <-]. by apply (digit_char_facts c "").
Qed.

Lemma drop_underscores_digits prev s : all_digits s → drop_underscores prev s = Some s.
Proof.
  revert prev. induction s as [|c s IH]; intros prev Hs; simpl; [done|].
  destruct Hs as [Hc Hs].
  destruct (digit_char_facts c s Hc) as (_ & -> & _). by rewrite IH.
Qed.

Lemma span_digits_digits s : all_digits s → span_digits s = (list_ascii_of_string s, "").
Proof.
  induction s as [|c s IH]; simpl; [done|]. intros [-> Hs]. by rewrite IH.
Qed.

Lemma digits_val_nonneg ds acc :
  Forall (λ c, isdigit c = true) ds → 0 ≤ acc →
  0 ≤ fold_left (λ acc c, 10 * acc + digit_val c) ds acc.
Proof.
  revert acc. induction ds as [|c ds IH]; intros acc Hds Hacc; simpl; [done|].
  apply Forall_cons in Hds as [Hc Hds]. apply IH; [done|].
  destruct (digit_char_facts c "" Hc) as (_ & _ & ? & _). lia.
Qed.

Lemma decimal_value_nonneg s : all_digits s → 0 ≤ decimal_value s.
Proof.
  intros Hs. apply digits_val_nonneg; [|done].
  induction s as [|c s IH]; simpl; [constructor|]. destruct Hs. by constructor; auto.
Qed.

(** An integer below [2^53] is a double, and comes back from it. *)
Lemma int_of_round_double n :
  0 ≤ n < 2 ^ 53 → int_of_float (round_double false n 1) = Ok n.
Proof.
  intros Hn. unfold round_double.
  destruct (Z.eqb_spec n 0) as [->|Hn0]; [done|].
  assert (0 < n) as Hpos by lia.
  pose proof (Z.log2_nonneg n) as Hl0.
  assert (Z.log2 n < 53) as Hl by (apply Z.log2_lt_pow2; lia).
  pose proof (Z.log2_spec n Hpos) as [Hlow _].
  assert (binade n 1 = Z.log2 n) as ->.
  { unfold binade. change (Z.log2 1) with 0. rewrite Z.sub_0_r.
    rewrite (Z.max_r 0 (Z.log2 n)), (Z.max_l 0 (- Z.log2 n)) by lia.
    change (2 ^ 0) with 1. by rewrite Z.mul_1_l, Z.mul_1_r, (proj2 (Z.leb_le _ _) Hlow). }
  rewrite (Z.max_l (Z.log2 n) (-1022)) by lia.
  rewrite (Z.max_r 0 (- (Z.log2 n - 52))), (Z.max_l 0 (Z.log2 n - 52)) by lia.
  change (1 * 2 ^ 0) with 1.
  set (k := - (Z.log2 n - 52)). assert (0 ≤ k) as Hk by (unfold k; lia).
  assert (0 < 2 ^ k) as Hpow by (apply Z.pow_pos_nonneg; lia).
  assert (div_half_even (n * 2 ^ k) 1 = n * 2 ^ k) as ->.
  { unfold div_half_even. by rewrite Z.div_1_r, Z.mod_1_r. }
  destruct (Z.eqb_spec (n * 2 ^ k) 0) as [H0|_]; [nia|].
  rewrite Z.log2_mul_pow2 by lia.
  rewrite (proj2 (Z.leb_gt 1024 _)) by (unfold k; lia).
  simpl. f_equal. destruct (Z.leb_spec 0 (Z.log2 n - 52)).
  - assert (k = 0) as -> by (unfold k; lia).
    replace (Z.log2 n - 52) with 0 by lia. change (2 ^ 0) with 1. lia.
  - fold k. apply Z.div_mul. lia.
Qed.

(** X3: a text made of decimal digits whose value is below [2^53] parses
    to exactly that value. *)
Theorem parse_int_or_none_decimal (s : string) :
  s ≠ "" → all_digits s → decimal_value s < 2 ^ 53 →
  parse_int_or_none (PyObj s) = Ok (Some (decimal_value s)).
Proof.
  intros Hne Hs Hsmall. unfold parse_int_or_none. simpl.
  rewrite (strip_id s) by by apply all_digits_trimmed.
  destruct s as [|c s'] eqn:Es; [done|]. rewrite <- Es in *. simpl.
  assert (isdigit c = true) as Hc by (subst s; apply Hs).
  assert (float_of_str s = Ok (round_double false (decimal_value s) 1)) as ->.
  { unfold float_of_str. rewrite drop_underscores_digits by done.
    subst s. destruct (digit_char_facts c s' Hc) as (_ & _ & _ & -> & -> & -> & ->).
    simpl. unfold read_decimal. rewrite span_digits_digits by done.
    rewrite app_nil_r. simpl. change (10 ^ (0 - Z.of_nat 0)) with 1.
    by rewrite Z.mul_1_r. }
  rewrite (proj2 (truthy_str_true s) Hne). simpl.
  rewrite int_of_round_double; [done|].
  split; [by apply decimal_value_nonneg | done].
Qed.

(** ** Errors of a dataset *)

Lemma require_columns_Ok df required :
  require_columns df required = Ok tt ↔ required ⊆ df_columns df.
Proof.
  unfold require_columns.
  destruct (filter _ required) as [|c missing] eqn:Hf; split; try done.
  - intros _ c Hc. destruct (decide (c ∈ df_columns df)) as [|Hn]; [done|].
    assert (c ∈ filter (λ column, column ∉ df_columns df) required) as Hin
      by by apply list_elem_of_filter.
    rewrite Hf in Hin. by apply elem_of_nil in Hin.
  - intros Hsub. assert (c ∈ filter (λ column, column ∉ df_columns df) required) as Hin
      by (rewrite Hf; left).
    apply list_elem_of_filter in Hin as [Hn Hc]. exfalso. by apply Hn, Hsub.
Qed.

Lemma require_columns_Raise df required e :
  require_columns df required = Raise e →
  e = RuntimeError ∧ ¬ required ⊆ df_columns df.
Proof.
  intros H. split.
  - unfold require_columns in H. destruct (filter _ _); [done|]. by injection H as <-.
  - intros Hsub%require_columns_Ok. congruence.
Qed.

Lemma for_each_Raise {S R : Type} (body : S → R → result S) rows s e :
  for_each body rows s = Raise e → ∃ s' row, row ∈ rows ∧ body s' row = Raise e.
Proof.
  revert s. induction rows as [|row rows IH]; intros s; simpl; [done|].
  destruct (body s row) as [s1|e1] eqn:Hrow; simpl.
  - intros (s' & row' & Hin & H)%IH. exists s', row'. split; [by right | done].
  - intros [= ->]. exists s, row. split; [by left | done].
Qed.

Lemma parse_int_or_none_overflow v e : parse_int_or_none v = Raise e → e = OverflowError.
Proof.
  unfold parse_int_or_none. destruct (negb _); [done|].
  destruct (float_of_str _) as [f|e'] eqn:Hf; simpl.
  - destruct f; simpl; [done | by intros [= <-] | done].
  - apply float_of_str_Raise in Hf as ->. done.
Qed.

Lemma parse_direction_id_overflow v e : parse_direction_id v = Raise e → e = OverflowError.
Proof.
  unfold parse_direction_id. destruct (negb _); [done|].
  destruct (String.eqb _ "N"); [done|]. destruct (String.eqb _ "S"); [done|].
  destruct (parse_int_or_none _) as [parsed|e'] eqn:Hp; simpl.
  - by destruct parsed as [[|[| |]|]|].
  - intros [= <-]. by eapply parse_int_or_none_overflow.
Qed.

Lemma default_route_type_Raise mode e : default_route_type mode = Raise e → e = KeyError.
Proof.
  unfold default_route_type. destruct (list_find _ _) as [[? [? ?]]|]; [done|].
  by intros [= <-].
Qed.

Lemma process_route_row_Raise mode route_map row e :
  process_route_row mode route_map row = Raise e →
  e = OverflowError ∨ e = KeyError ∧ default_route_type mode = Raise KeyError.
Proof.
  unfold process_route_row. destruct (negb _); [done|].
  destruct (incoming_route _ _ _) as [incoming|e'] eqn:Hin; simpl.
  - destruct (route_map !! _); [|done]. unfold merge_route.
    destruct (default_route_type mode) as [d|e'] eqn:Hd; simpl; [done|].
    intros [= <-]. right. by rewrite (default_route_type_Raise _ _ Hd).
  - intros [= <-]. unfold incoming_route in Hin.
    destruct row as [[[[[[[[[? ?] ?] ?] ?] rtype] ?] ?] ?] sort_order].
    destruct (parse_int_or_none rtype) as [pt|e1] eqn:H1; simpl in Hin.
    + destruct (truthy_opt_int pt); simpl in Hin.
      * destruct (parse_int_or_none sort_order) as [so|e2] eqn:H2; simpl in Hin; [done|].
        injection Hin as <-. left. by eapply parse_int_or_none_overflow.
      * destruct (default_route_type mode) as [d|e2] eqn:Hd; simpl in Hin.
        -- destruct (parse_int_or_none sort_order) as [so|e3] eqn:H3; simpl in Hin; [done|].
           injection Hin as <-. left. by eapply parse_int_or_none_overflow.
        -- injection Hin as <-. right. by rewrite (default_route_type_Raise _ _ Hd).
    + injection Hin as <-. left. by eapply parse_int_or_none_overflow.
Qed.

Lemma process_trip_row_Raise trip_map row e :
  process_trip_row trip_map row = Raise e → e = OverflowError.
Proof.
  destruct row as [[tid rid] direction]. unfold process_trip_row.
  destruct (_ || _); [done|].
  destruct (parse_direction_id direction) as [d|e'] eqn:Hd; simpl; [done|].
  intros [= <-]. by eapply parse_direction_id_overflow.
Qed.

Lemma process_stop_time_row_Raise lk sq row e :
  process_stop_time_row lk sq row = Raise e → e = OverflowError.
Proof.
  destruct row as [[tid sid] sseq]. unfold process_stop_time_row.
  destruct (_ || _); [done|]. destruct (lk_trip_map lk !! _) as [[r d]|]; [|done].
  destruct (lk_station_map lk !! _); [|done].
  destruct (parse_int_or_none sseq) as [next|e'] eqn:Hn; simpl; [done|].
  intros [= <-]. by eapply parse_int_or_none_overflow.
Qed.

Lemma routes_loop_Raise mode route_map rows e :
  routes_loop mode route_map rows = Raise e →
  e = OverflowError ∨ e = KeyError ∧ default_route_type mode = Raise KeyError.
Proof.
  unfold routes_loop. intros (? & ? & _ & H)%for_each_Raise.
  by eapply process_route_row_Raise.
Qed.

Lemma trips_loop_Raise rows e : trips_loop rows = Raise e → e = OverflowError.
Proof.
  unfold trips_loop. intros (? & ? & _ & H)%for_each_Raise.
  by eapply process_trip_row_Raise.
Qed.

Lemma stop_times_loop_Raise lk sq rows e :
  stop_times_loop lk sq rows = Raise e → e = OverflowError.
Proof.
  unfold stop_times_loop. intros (? & ? & _ & H)%for_each_Raise.
  by eapply process_stop_time_row_Raise.
Qed.

(** X4: a dataset raises [RuntimeError] exactly when one of its frames
    lacks a required column; every other exception of a dataset is the
    [KeyError] of a mode without a default route type or an
    [OverflowError]. *)
Theorem process_dataset_errors (mode : string) (p : pass) (feed : Feed) :
  (process_dataset mode p feed = Raise RuntimeError ↔ ¬ has_required_columns feed)
  ∧ ∀ e, process_dataset mode p feed = Raise e →
         e = RuntimeError
         ∨ e = KeyError ∧ default_route_type mode = Raise KeyError
         ∨ e = OverflowError.
Proof.
  assert (∀ e, process_dataset mode p feed = Raise e →
            e = RuntimeError ∧ ¬ has_required_columns feed
            ∨ has_required_columns feed
              ∧ (e = KeyError ∧ default_route_type mode = Raise KeyError
                 ∨ e = OverflowError)) as Hcases.
  { intros e H. unfold process_dataset in H. unfold has_required_columns.
    apply bind_Raise in H as [H1|([] & H1%require_columns_Ok & H)];
      [apply require_columns_Raise in H1 as [-> ?]; left; tauto|].
    apply bind_Raise in H as [H2|([] & H2%require_columns_Ok & H)];
      [apply require_columns_Raise in H2 as [-> ?]; left; tauto|].
    apply bind_Raise in H as [H3|([] & H3%require_columns_Ok & H)];
      [apply require_columns_Raise in H3 as [-> ?]; left; tauto|].
    apply bind_Raise in H as [H4|([] & H4%require_columns_Ok & H)];
      [apply require_columns_Raise in H4 as [-> ?]; left; tauto|].
    right. split; [tauto|]. clear H1 H2 H3 H4. cbv zeta in H.
    destruct (stops_loop _ _ _) as [sm lk].
    apply bind_Raise in H as [Hr|(rm & _ & H)].
    { apply routes_loop_Raise in Hr. clear -Hr. tauto. }
    apply bind_Raise in H as [Ht|(tm & _ & H)].
    { right. exact (trips_loop_Raise _ _ Ht). }
    apply bind_Raise in H as [Hs|(sq & _ & [=])].
    right. exact (stop_times_loop_Raise _ _ _ _ Hs). }
  split; [split|].
  - intros [[_ H]|[_ [[[=] _]|[=]]]]%Hcases. exact H.
  - intros Hmissing. destruct (process_dataset mode p feed) as [p'|e] eqn:H.
    + exfalso. apply Hmissing. unfold process_dataset in H.
      apply bind_Ok in H as ([] & H1%require_columns_Ok & H).
      apply bind_Ok in H as ([] & H2%require_columns_Ok & H).
      apply bind_Ok in H as ([] & H3%require_columns_Ok & H).
      apply bind_Ok in H as ([] & H4%require_columns_Ok & H).
      clear H. repeat split; assumption.
    + destruct (Hcases e) as [[-> _]|[? _]]; [reflexivity | reflexivity | contradiction].
  - intros e [[-> _]|[_ H]]%Hcases; tauto.
Qed.

(** ** Optional columns *)

Lemma default_column_columns c df x :
  x ∈ df_columns (default_column c df) ↔ x ∈ df_columns df ∨ x = c.
Proof.
  unfold default_column. destruct (decide (c ∈ df_columns df)) as [Hc|Hc]; simpl.
  - split; [by left | by intros [?| ->]].
  - rewrite elem_of_app, list_elem_of_singleton. done.
Qed.

Lemma default_column_rows c df i row :
  df_rows df !! i = Some row →
  ∃ row', df_rows (default_column c df) !! i = Some row'
          ∧ ∀ x, cell row' x = if decide (x = c ∧ c ∉ df_columns df) then PyNone
                                else cell row x.
Proof.
  intros Hi. unfold default_column.
  destruct (decide (c ∈ df_columns df)) as [Hc|Hc]; simpl.
  - exists row. split; [done|]. intros x. by rewrite decide_False by tauto.
  - exists (<[c := PyNone]> row). rewrite list_lookup_fmap, Hi. split; [done|].
    intros x. unfold cell. destruct (decide (x = c)) as [->|Hx].
    + by rewrite lookup_insert_eq, decide_True.
    + rewrite lookup_insert_ne by done. by rewrite decide_False by tauto.
Qed.

Lemma default_column_length c df :
  length (df_rows (default_column c df)) = length (df_rows df).
Proof.
  unfold default_column. destruct (decide _); simpl; [done|]. apply length_fmap.
Qed.

(** X5: giving a frame its optional columns adds exactly the columns it
    lacks, keeps the number of rows, leaves every cell of a column the
    frame had as it was, and makes every cell of an added column [None]. *)
Theorem default_columns_fill (columns : list string) (df : DataFrame) :
  (∀ x, x ∈ df_columns (default_columns columns df) ↔ x ∈ df_columns df ∨ x ∈ columns)
  ∧ length (df_rows (default_columns columns df)) = length (df_rows df)
  ∧ ∀ i row, df_rows df !! i = Some row →
      ∃ row', df_rows (default_columns columns df) !! i = Some row'
              ∧ ∀ x, (x ∈ df_columns df → cell row' x = cell row x)
                     ∧ (x ∉ df_columns df → x ∈ columns → cell row' x = PyNone).
Proof.
  unfold default_columns. revert df.
  induction columns as [|c columns IH]; intros df; simpl.
  - split; [|split; [done|]].
    + intros x. split; [by left | by intros [?|?%elem_of_nil]].
    + intros i row Hi. exists row. split; [done|]. intros x.
      split; [done | by intros _ ?%elem_of_nil].
  - destruct (IH (default_column c df)) as (Hcols & Hlen & Hrows).
    split; [|split].
    + intros x. rewrite Hcols, default_column_columns, elem_of_cons. tauto.
    + by rewrite Hlen, default_column_length.
    + intros i row Hi.
      destruct (default_column_rows c df i row Hi) as (row1 & Hi1 & Hcell1).
      destruct (Hrows i row1 Hi1) as (row' & Hi' & Hcell').
      exists row'. split; [done|]. intros x.
      destruct (Hcell' x) as [Hkeep Hnew]. split.
      * intros Hx. rewrite Hkeep by (apply default_column_columns; by left).
        rewrite Hcell1. apply decide_False. intros [-> ?]. done.
      * intros Hx [->|Hin]%elem_of_cons.
        -- rewrite Hkeep by (apply default_column_columns; by right).
           rewrite Hcell1. by apply decide_True.
        -- destruct (decide (x = c)) as [->|Hne].
           ++ rewrite Hkeep by (apply default_column_columns; by right).
              rewrite Hcell1. by apply decide_True.
           ++ apply Hnew; [|done]. rewrite default_column_columns. tauto.
Qed.

(** ** Station clusterer: the lookup and the kept fields *)

Lemma station_id_of_nonblank mode raw parent : raw ≠ "" → station_id_of mode raw parent ≠ "".
Proof.
  intros Hraw. unfold station_id_of, str_or. destruct (String.eqb mode "bus"); [done|].
  destruct (truthy_str parent) eqn:Hp; [by apply truthy_str_true | done].
Qed.

Lemma process_stop_row_lookup mode sm lk row :
  lookup_ok sm lk → nonblank_keys sm → nonblank_keys lk →
  let acc := process_stop_row mode (sm, lk) row in
  lookup_ok acc.1 acc.2 ∧ nonblank_keys acc.1 ∧ nonblank_keys acc.2
  ∧ (normalize_text row.1.1.1.1 ≠ "" → is_Some (acc.2 !! normalize_text row.1.1.1.1))
  ∧ (∀ raw, is_Some (lk !! raw) → is_Some (acc.2 !! raw)).
Proof.
  destruct row as [[[[sid sname] slat] slon] sparent]. intros Hok Hsm Hlk. cbv zeta.
  destruct (decide (normalize_text sid = "")) as [Hblank|Hraw].
  - rewrite process_stop_row_blank by done. simpl. tauto.
  - destruct (process_stop_row_present mode sm lk sid sname slat slon sparent Hraw)
      as (st & _ & -> & -> & _).
    simpl. split; [|split; [|split; [|split]]].
    + intros raw sid'. rewrite lookup_insert. case_decide.
      * intros [= <-]. rewrite lookup_insert_eq. eauto.
      * intros [st' Hst']%Hok. rewrite lookup_insert. case_decide; eauto.
    + intros k. rewrite lookup_insert. case_decide.
      * subst k. intros _. by apply station_id_of_nonblank.
      * apply Hsm.
    + intros k. rewrite lookup_insert. case_decide; [by subst k | apply Hlk].
    + intros _. rewrite lookup_insert_eq. eauto.
    + intros raw Hraw'. rewrite lookup_insert. case_decide; eauto.
Qed.

Lemma fold_stop_rows_lookup mode rows sm lk :
  lookup_ok sm lk → nonblank_keys sm → nonblank_keys lk →
  let acc := fold_left (process_stop_row mode) rows (sm, lk) in
  lookup_ok acc.1 acc.2 ∧ nonblank_keys acc.1 ∧ nonblank_keys acc.2
  ∧ (∀ row, row ∈ rows → normalize_text row.1.1.1.1 ≠ "" →
            is_Some (acc.2 !! normalize_text row.1.1.1.1))
  ∧ (∀ raw, is_Some (lk !! raw) → is_Some (acc.2 !! raw)).
Proof.
  revert sm lk. induction rows as [|row rows IH]; intros sm lk Hok Hsm Hlk; cbv zeta.
  - cbn [fold_left fst snd]. split; [done|]. split; [done|]. split; [done|].
    split; [|done]. by intros row ?%elem_of_nil.
  - cbn [fold_left].
    pose proof (process_stop_row_lookup mode sm lk row Hok Hsm Hlk) as H1.
    cbv zeta in H1. destruct (process_stop_row mode (sm, lk) row) as [sm1 lk1].
    cbn [fst snd] in H1. destruct H1 as (Hok1 & Hsm1 & Hlk1 & Hrow1 & Hmono1).
    destruct (IH sm1 lk1 Hok1 Hsm1 Hlk1) as (Hok2 & Hsm2 & Hlk2 & Hrows2 & Hmono2).
    split; [done|]. split; [done|]. split; [done|]. split.
    + intros r [->|Hr]%elem_of_cons Hne; [apply Hmono2, Hrow1, Hne | by apply Hrows2].
    + intros raw Hraw. by apply Hmono2, Hmono1.
Qed.

Lemma stops_loop_facts mode sm rows :
  nonblank_keys sm →
  let acc := stops_loop mode sm rows in
  lookup_ok acc.1 acc.2 ∧ nonblank_keys acc.1 ∧ nonblank_keys acc.2
  ∧ ∀ row, row ∈ rows → normalize_text row.1.1.1.1 ≠ "" →
           is_Some (acc.2 !! normalize_text row.1.1.1.1).
Proof.
  intros Hsm. cbv zeta. unfold stops_loop.
  destruct (fold_stop_rows_lookup mode rows sm ∅) as (Hok & Hsm' & Hlk' & Hrows & _);
    [by intros ? ? ?%lookup_empty_Some | done | by intros ? [? ?%lookup_empty_Some] |].
  done.
Qed.

(** X6: when the loop over a dataset's stops ends, every stop id that
    had a row is in the raw-stop lookup, the lookup only names stations
    that are in the station map, and nothing is stored under an empty
    id. *)
Theorem stops_loop_lookup (mode : string) (sm : gmap string station)
    (rows : list stop_tuple) :
  nonblank_keys sm →
  (∀ row, row ∈ rows → normalize_text row.1.1.1.1 ≠ "" →
     ∃ sid, (stops_loop mode sm rows).2 !! normalize_text row.1.1.1.1 = Some sid
            ∧ is_Some ((stops_loop mode sm rows).1 !! sid))
  ∧ lookup_ok (stops_loop mode sm rows).1 (stops_loop mode sm rows).2
  ∧ nonblank_keys (stops_loop mode sm rows).1
  ∧ nonblank_keys (stops_loop mode sm rows).2.
Proof.
  intros Hsm. destruct (stops_loop_facts mode sm rows Hsm) as (Hok & Hsm' & Hlk' & Hrows).
  split; [|done]. intros row Hrow Hne.
  destruct (Hrows row Hrow Hne) as [sid Hsid]. exists sid. split; [done|].
  by eapply Hok.
Qed.

#[global] Instance station_kept_preorder : PreOrder station_kept.
Proof.
  split.
  - intros st. unfold station_kept. by repeat split.
  - intros a b c (Hid1 & Hp1 & Hlat1 & Hlon1 & Hn1 & Hc1) (Hid2 & Hp2 & Hlat2 & Hlon2 & Hn2 & Hc2).
    unfold station_kept. split; [congruence|]. split; [congruence|].
    split; [|split; [|split]].
    + intros H. rewrite <- (Hlat1 H). apply Hlat2. by rewrite (Hlat1 H).
    + intros H. rewrite <- (Hlon1 H). apply Hlon2. by rewrite (Hlon1 H).
    + intros H H'. rewrite <- (Hn1 H H'). apply Hn2; rewrite (Hn1 H H'); congruence.
    + set_solver.
Qed.

Lemma refresh_station_kept st name lat lon :
  station_kept st (refresh_station st name lat lon).
Proof.
  unfold station_kept, refresh_station. simpl.
  split; [done|]. split; [done|]. split; [by destruct (stop_lat st)|].
  split; [by destruct (stop_lon st)|]. split; [|done].
  intros Hname Hid. rewrite (proj2 (truthy_str_true _) Hname). simpl.
  by rewrite (proj2 (String.eqb_neq _ _) Hid).
Qed.

Lemma add_child_kept mode raw st : station_kept st (add_child mode raw st).
Proof.
  unfold station_kept, add_child. destruct (String.eqb mode "bus"); simpl;
    repeat split; try done. set_solver.
Qed.

Lemma process_stop_row_kept mode sm lk row k st :
  sm !! k = Some st →
  ∃ st', (process_stop_row mode (sm, lk) row).1 !! k = Some st' ∧ station_kept st st'.
Proof.
  destruct row as [[[[sid sname] slat] slon] sparent]. intros Hk.
  unfold process_stop_row.
  destruct (negb (truthy_str (normalize_text sid))); [by exists st|]. simpl.
  set (canonical := station_id_of mode (normalize_text sid) (normalize_text sparent)).
  destruct (decide (canonical = k)) as [Heq|Hne].
  - rewrite Heq, Hk, lookup_insert_eq. eexists. split; [done|].
    etrans; [apply refresh_station_kept | apply add_child_kept].
  - rewrite lookup_insert_ne by done. by exists st.
Qed.

Lemma fold_stop_rows_kept mode rows acc k st :
  acc.1 !! k = Some st →
  ∃ st', (fold_left (process_stop_row mode) rows acc).1 !! k = Some st'
         ∧ station_kept st st'.
Proof.
  revert acc st. induction rows as [|row rows IH]; intros [sm lk] st Hk; simpl in *.
  - by exists st.
  - destruct (process_stop_row_kept mode sm lk row k st Hk) as (st1 & Hk1 & Hkept1).
    destruct (IH _ _ Hk1) as (st2 & Hk2 & Hkept2).
    exists st2. split; [done | by etrans].
Qed.

(** X7: through the rest of a pass a station keeps its id, its parent
    reference, every coordinate it has, and its name unless the name is
    empty or equal to the id; its child set only grows. *)
Theorem station_fields_kept (mode : string) (datasets : list Feed) (p p' : pass)
    (k : string) (st : station) :
  for_each (process_dataset mode) datasets p = Ok p' →
  station_map p !! k = Some st →
  ∃ st', station_map p' !! k = Some st' ∧ station_kept st st'.
Proof.
  intros Hloop Hk.
  revert Hloop. apply (for_each_invariant _
    (λ q, ∃ st', station_map q !! k = Some st' ∧ station_kept st st')).
  - intros p1 feed p2 _ (st1 & Hk1 & Hkept1) (Hsm & _)%process_dataset_Ok.
    rewrite Hsm. unfold stops_loop.
    destruct (fold_stop_rows_kept mode
                (stop_tuples (default_columns optional_stop_columns (stops feed)))
                (station_map p1, ∅) k st1 Hk1) as (st2 & Hk2 & Hkept2).
    exists st2. split; [done | by etrans].
  - by exists st.
Qed.

(** ** Missing stop ids and the stops of a dataset *)

Lemma missing_stop_Some lk row x :
  missing_stop lk row = Some x →
  x = normalize_text row.1.2 ∧ x ≠ ""
  ∧ lk_station_map lk !! default x (lk_raw_stop_to_station lk !! x) = None.
Proof.
  destruct row as [[tid sid] sseq]. unfold missing_stop. simpl.
  destruct (truthy_str (normalize_text tid)); [|done].
  destruct (truthy_str (normalize_text sid)) eqn:Hsid; [|done]. simpl.
  destruct (bool_decide (is_Some _)); [|done]. simpl.
  case_bool_decide as Hnone; [|done]. intros [= <-].
  split; [done|]. split; [by apply truthy_str_true | done].
Qed.

Lemma stop_times_loop_missing lk rows sq sq' x :
  stop_times_loop lk sq rows = Ok sq' →
  x ∈ missing_stop_ids sq' →
  x ∈ missing_stop_ids sq
  ∨ x ≠ "" ∧ lk_station_map lk !! default x (lk_raw_stop_to_station lk !! x) = None.
Proof.
  intros Hloop. revert Hloop. apply (for_each_invariant _
    (λ q, x ∈ missing_stop_ids q →
          x ∈ missing_stop_ids sq
          ∨ x ≠ "" ∧ lk_station_map lk
                       !! default x (lk_raw_stop_to_station lk !! x) = None)).
  - intros q row q' _ IH [_ Hq]%process_stop_time_row_warnings. rewrite Hq.
    intros [Hx|Hx]%elem_of_union; [|by apply IH].
    destruct (missing_stop lk row) as [y|] eqn:Hy; simpl in Hx; [|set_solver].
    assert (x = y) as -> by set_solver.
    apply missing_stop_Some in Hy as (_ & ? & ?). by right.
  - by left.
Qed.

Lemma process_dataset_nonblank mode p feed p' :
  process_dataset mode p feed = Ok p' →
  nonblank_keys (station_map p) → nonblank_keys (station_map p').
Proof.
  intros (-> & _)%process_dataset_Ok Hsm.
  by apply (stops_loop_facts mode (station_map p)).
Qed.

(** X8: a stop id reported missing by a pass is not blank, and some
    dataset of the pass does not list it among its stops. *)
Theorem missing_stop_ids_are_unlisted (mode : string) (datasets : list Feed)
    (res : mode_result) (x : string) :
  process_mode mode datasets = Ok res →
  x ∈ res_missing_stop_ids res →
  x ≠ ""
  ∧ ∃ feed, feed ∈ datasets
            ∧ ∀ row, row ∈ stop_tuples (default_columns optional_stop_columns (stops feed)) →
                     normalize_text row.1.1.1.1 ≠ x.
Proof.
  intros (p & Hp & ->)%process_mode_Ok. simpl.
  cut (nonblank_keys (station_map p)
       ∧ (x ∈ missing_stop_ids (seq_state p) →
          x ≠ "" ∧ ∃ feed, feed ∈ datasets
            ∧ ∀ row, row ∈ stop_tuples (default_columns optional_stop_columns (stops feed)) →
                     normalize_text row.1.1.1.1 ≠ x)); [tauto|].
  revert Hp. apply (for_each_invariant _
    (λ q, nonblank_keys (station_map q)
          ∧ (x ∈ missing_stop_ids (seq_state q) →
             x ≠ "" ∧ ∃ feed, feed ∈ datasets
               ∧ ∀ row, row ∈ stop_tuples
                                (default_columns optional_stop_columns (stops feed)) →
                        normalize_text row.1.1.1.1 ≠ x))).
  - intros q feed q' Hfeed [Hsm IH] Hstep.
    split; [by eapply process_dataset_nonblank|].
    apply process_dataset_Ok in Hstep as (_ & _ & trip_map & _ & Hloop).
    intros Hx. destruct (stop_times_loop_missing _ _ _ _ x Hloop Hx) as [Hold|[Hne Hnone]];
      [by apply IH|].
    split; [done|]. exists feed. split; [done|]. intros row Hrow Heq.
    cbn [lk_station_map lk_raw_stop_to_station] in Hnone.
    destruct (stops_loop_facts mode (station_map q)
                (stop_tuples (default_columns optional_stop_columns (stops feed))) Hsm)
      as (Hok & _ & _ & Hrows).
    destruct (Hrows row Hrow) as [sid Hsid]; [congruence|].
    destruct (Hok _ _ Hsid) as [st Hst].
    rewrite Heq in Hsid. rewrite Hsid in Hnone.
    change (default x (Some sid)) with sid in Hnone. congruence.
  - split; [intros k [? H]; simpl in H; by apply lookup_empty_Some in H | set_solver].
Qed.

(** ** Emitted station and route rows *)

(** Sorting by a key without repetitions gives a strictly ascending
    list. *)
Lemma sorted_by_key_strict {A K : Type} (cmp : K → K → comparison) `{!CmpOrder cmp}
    (key : A → K) (l : list A) :
  NoDup (key <$> l) →
  StronglySorted (λ a b, cmp (key a) (key b) = Lt)
    (sorted (λ a b, cmp_leb cmp (key a) (key b)) l).
Proof.
  intros Hnd.
  assert (NoDup l) as Hl by by eapply NoDup_fmap_1.
  eapply (StronglySorted_strict (λ a b, cmp_leb cmp (key a) (key b) = true)).
  - intros a b Ha%elem_of_sorted Hb%elem_of_sorted Hle Hne.
    apply (cmp_leb_lt cmp); [done|]. intros Heq. apply Hne.
    apply list_elem_of_lookup in Ha as [i Hi]. apply list_elem_of_lookup in Hb as [j Hj].
    assert (i = j) as ->; [|congruence].
    eapply NoDup_lookup; [exact Hnd | |]; rewrite list_lookup_fmap.
    + by rewrite Hi.
    + by rewrite Hj, Heq.
  - by rewrite sorted_Permutation.
  - apply sorted_StronglySorted.
    + intros a b. apply (cmp_leb_total cmp).
    + intros a b c. apply (cmp_leb_trans cmp).
Qed.

Lemma keyed_values_NoDup (sm : gmap string station) :
  keyed sm → NoDup (stop_id <$> (map_to_list sm).*2).
Proof.
  intros Hkeyed.
  assert (stop_id <$> (map_to_list sm).*2 = (map_to_list sm).*1) as ->.
  { rewrite <- list_fmap_compose. apply list_fmap_ext.
    intros i [k st] Hi. simpl. apply Hkeyed.
    apply list_elem_of_lookup_2 in Hi. by apply elem_of_map_to_list in Hi. }
  apply NoDup_fst_map_to_list.
Qed.

Lemma pass_nonblank mode datasets p :
  for_each (process_dataset mode) datasets initial_pass = Ok p →
  nonblank_keys (station_map p).
Proof.
  apply (for_each_invariant _ (λ q, nonblank_keys (station_map q))).
  - intros q feed q' _ Hq Hstep. by eapply process_dataset_nonblank.
  - intros k [? H]. simpl in H. by apply lookup_empty_Some in H.
Qed.

(** X9: the emitted station rows are strictly ascending by stop id, so
    no id is emitted twice, and no emitted station row has an empty id or
    an empty name. *)
Theorem emitted_stations_sorted (mode : string) (datasets : list Feed)
    (res : mode_result) :
  process_mode mode datasets = Ok res →
  StronglySorted (λ a b, str_lt (sr_stop_id a) (sr_stop_id b)) (stations_rows res)
  ∧ ∀ r, r ∈ stations_rows res → sr_stop_id r ≠ "" ∧ sr_stop_name r ≠ "".
Proof.
  intros (p & Hp & ->)%process_mode_Ok. simpl.
  destruct (pass_invariant _ _ _ Hp) as [Hkeyed _].
  pose proof (pass_nonblank _ _ _ Hp) as Hnonblank.
  split.
  - unfold emit_stations.
    eapply StronglySorted_fmap_2;
      [|apply (sorted_by_key_strict String.compare stop_id), keyed_values_NoDup, Hkeyed].
    intros a b H. exact H.
  - intros r (k & st & Hk & ->)%elem_of_emit_stations. simpl.
    assert (stop_id st ≠ "") as Hid.
    { rewrite (Hkeyed _ _ Hk). apply Hnonblank. eauto. }
    split; [done|]. unfold str_or. by destruct (stop_name st).
Qed.

Lemma sorted_strings_strict (l : list string) :
  NoDup l → StronglySorted str_lt (sorted String.leb l).
Proof.
  intros Hnd. apply (sorted_by_key_strict String.compare id). by rewrite list_fmap_id.
Qed.

(** X10: outside bus mode the child list of every emitted station row
    is not empty and strictly ascending; it lists the children the
    station accumulated, or the station's own id when it has none. *)
Theorem emitted_children_sorted (mode : string) (st : station) :
  mode ≠ "bus" →
  sr_child_stop_ids_json (emit_station mode st) ≠ []
  ∧ StronglySorted str_lt (sr_child_stop_ids_json (emit_station mode st))
  ∧ (child_stop_ids st ≠ ∅ →
     ∀ x, x ∈ sr_child_stop_ids_json (emit_station mode st) ↔ x ∈ child_stop_ids st)
  ∧ (child_stop_ids st = ∅ → sr_child_stop_ids_json (emit_station mode st) = [stop_id st]).
Proof.
  intros Hmode. unfold emit_station. simpl.
  rewrite eqb_bus, bool_decide_eq_false_2 by done.
  pose proof (sorted_strings_strict (elements (child_stop_ids st)) (NoDup_elements _))
    as Hsorted.
  pose proof (λ x, elem_of_sorted String.leb x (elements (child_stop_ids st))) as Helem.
  destruct (sorted String.leb (elements (child_stop_ids st))) as [|y ys] eqn:Hs.
  - assert (child_stop_ids st = ∅) as Hempty.
    { apply set_eq. intros x. rewrite <- elem_of_elements, <- Helem. set_solver. }
    split; [done|]. split; [repeat constructor|]. split; [done|]. done.
  - split; [done|]. split; [done|]. split.
    + intros _ x. by rewrite Helem, elem_of_elements.
    + intros Hempty. rewrite Hempty, elements_empty in Hs. done.
Qed.

Lemma normalize_route_id_idemp v :
  normalize_route_id (PyObj (normalize_route_id v)) = normalize_route_id v.
Proof.
  unfold normalize_route_id. destruct v as [| |s]; simpl; [done..|].
  rewrite (strip_upper (strip s)), upper_idemp.
  by rewrite (strip_id (strip s)) by apply strip_trimmed.
Qed.

Lemma incoming_route_id mode k row incoming :
  incoming_route mode k row = Ok incoming → route_id incoming = k.
Proof.
  destruct row as [[[[[[[[[? ?] ?] ?] ?] ?] ?] ?] ?] ?]. unfold incoming_route.
  intros H. apply bind_Ok in H as (? & _ & H). apply bind_Ok in H as (? & _ & H).
  apply bind_Ok in H as (? & _ & H). by injection H as <-.
Qed.

Lemma process_route_row_keyed mode rm row rm' :
  process_route_row mode rm row = Ok rm' → route_keyed rm → route_keyed rm'.
Proof.
  unfold process_route_row.
  set (k := normalize_route_id row.1.1.1.1.1.1.1.1.1).
  destruct (truthy_str k) eqn:Hk; simpl; [|by intros [= <-]].
  apply truthy_str_true in Hk. intros H Hkeyed.
  apply bind_Ok in H as (incoming & Hin%incoming_route_id & H).
  assert (normalize_route_id (PyObj k) = k) as Hnorm by apply normalize_route_id_idemp.
  destruct (rm !! k) as [existing|] eqn:Hex.
  - apply bind_Ok in H as (merged & Hm & [= <-]). unfold merge_route in Hm.
    apply bind_Ok in Hm as (d & _ & [= <-]).
    intros k' r. rewrite lookup_insert. case_decide; [|apply Hkeyed].
    subst k'. intros [= <-]. simpl. split; [by apply (Hkeyed _ _ Hex) | done].
  - injection H as <-. intros k' r. rewrite lookup_insert. case_decide; [|apply Hkeyed].
    subst k'. by intros [= <-].
Qed.

Lemma routes_loop_keyed mode rm rows rm' :
  route_keyed rm → routes_loop mode rm rows = Ok rm' → route_keyed rm'.
Proof.
  unfold routes_loop. apply (for_each_invariant _ route_keyed).
  intros rm1 row rm2 _ Hrm Hrow. by eapply process_route_row_keyed.
Qed.

Lemma pass_route_keyed mode datasets p :
  for_each (process_dataset mode) datasets initial_pass = Ok p → route_keyed (route_map p).
Proof.
  apply (for_each_invariant _ (λ q, route_keyed (route_map q))).
  - intros q feed q' _ Hq Hstep. apply process_dataset_Ok in Hstep as (_ & Hroutes & _).
    exact (routes_loop_keyed _ _ _ _ Hq Hroutes).
  - intros k r H. simpl in H. by apply lookup_empty_Some in H.
Qed.

Lemma route_keyed_values_NoDup (rm : gmap string route) :
  route_keyed rm → NoDup (route_id <$> (map_to_list rm).*2).
Proof.
  intros Hkeyed.
  assert (route_id <$> (map_to_list rm).*2 = (map_to_list rm).*1) as ->.
  { rewrite <- list_fmap_compose. apply list_fmap_ext.
    intros i [k r] Hi. simpl.
    apply list_elem_of_lookup_2 in Hi. apply elem_of_map_to_list in Hi.
    by apply (Hkeyed _ _ Hi). }
  apply NoDup_fst_map_to_list.
Qed.

(** X11: the emitted route rows are strictly ascending by route id, so
    no id is emitted twice; every emitted route id is non-empty and is its
    own normalization (upper case, no surrounding whitespace). *)
Theorem emitted_routes_sorted (mode : string) (datasets : list Feed)
    (res : mode_result) :
  process_mode mode datasets = Ok res →
  StronglySorted (λ a b, str_lt (route_id a) (route_id b)) (routes_rows res)
  ∧ ∀ r, r ∈ routes_rows res →
         route_id r ≠ "" ∧ normalize_route_id (PyObj (route_id r)) = route_id r.
Proof.
  intros (p & Hp & ->)%process_mode_Ok. simpl.
  pose proof (pass_route_keyed _ _ _ Hp) as Hkeyed. unfold emit_routes. split.
  - apply (sorted_by_key_strict String.compare route_id), route_keyed_values_NoDup, Hkeyed.
  - intros r Hr. rewrite elem_of_sorted in Hr.
    apply list_elem_of_fmap in Hr as ([k r'] & -> & Hk%elem_of_map_to_list). simpl.
    destruct (Hkeyed _ _ Hk) as (-> & ? & ?). done.
Qed.

(** ** Route merger: what a pass keeps *)

#[global] Instance route_kept_preorder d : PreOrder (route_kept d).
Proof.
  split.
  - intros r. unfold route_kept. by repeat split.
  - intros a b c (Ai & Aa & As & Al & Ad & At & Au & Ac & Ax & Ao)
                 (Bi & Ba & Bs & Bl & Bd & Bt & Bu & Bc & Bx & Bo).
    unfold route_kept.
    split; [congruence|].
    split; [intros H; rewrite <- (Aa H); apply Ba; by rewrite (Aa H)|].
    split; [intros H; rewrite <- (As H); apply Bs; by rewrite (As H)|].
    split; [intros H; rewrite <- (Al H); apply Bl; by rewrite (Al H)|].
    split; [intros H; rewrite <- (Ad H); apply Bd; by rewrite (Ad H)|].
    split; [intros H; rewrite <- (At H); apply Bt; by rewrite (At H)|].
    split; [intros H; rewrite <- (Au H); apply Bu; by rewrite (Au H)|].
    split; [intros H; rewrite <- (Ac H); apply Bc; by rewrite (Ac H)|].
    split; [intros H; rewrite <- (Ax H); apply Bx; by rewrite (Ax H)|].
    intros H; rewrite <- (Ao H); apply Bo; by rewrite (Ao H).
Qed.

Lemma merge_fields_kept d existing incoming :
  route_kept d existing (merge_fields d existing incoming).
Proof.
  unfold route_kept, merge_fields. simpl.
  split; [done|].
  split; [apply keep_opt_populated|]. split; [apply keep_str_populated|].
  split; [apply keep_str_populated|]. split; [apply keep_opt_populated|].
  split; [intros H; by rewrite (proj2 (Z.eqb_neq _ _) H)|].
  split; [apply keep_opt_populated|]. split; [apply keep_opt_populated|].
  split; [apply keep_opt_populated|]. by destruct (route_sort_order existing).
Qed.

Lemma process_route_row_kept mode d rm row rm' k r :
  default_route_type mode = Ok d →
  process_route_row mode rm row = Ok rm' →
  rm !! k = Some r →
  ∃ r', rm' !! k = Some r' ∧ route_kept d r r'.
Proof.
  intros Hd. unfold process_route_row.
  set (k0 := normalize_route_id row.1.1.1.1.1.1.1.1.1).
  destruct (negb (truthy_str k0)); simpl; [intros [= <-]; by exists r|].
  intros H Hk. apply bind_Ok in H as (incoming & _ & H).
  destruct (decide (k0 = k)) as [->|Hne].
  - rewrite Hk in H. apply bind_Ok in H as (merged & Hm & [= <-]).
    unfold merge_route in Hm. rewrite Hd in Hm. injection Hm as <-.
    rewrite lookup_insert_eq. eexists. split; [done|]. apply merge_fields_kept.
  - exists r. split; [|done].
    destruct (rm !! k0).
    + apply bind_Ok in H as (merged & _ & [= <-]). by rewrite lookup_insert_ne.
    + injection H as <-. by rewrite lookup_insert_ne.
Qed.

Lemma routes_loop_kept mode d rm rows rm' k r :
  default_route_type mode = Ok d →
  routes_loop mode rm rows = Ok rm' →
  rm !! k = Some r →
  ∃ r', rm' !! k = Some r' ∧ route_kept d r r'.
Proof.
  intros Hd Hloop Hk. revert Hloop. unfold routes_loop.
  apply (for_each_invariant _ (λ rm, ∃ r', rm !! k = Some r' ∧ route_kept d r r')).
  - intros rm1 row rm2 _ (r2 & Hk2 & Hkept2) Hrow.
    destruct (process_route_row_kept _ _ _ _ _ _ _ Hd Hrow Hk2) as (r3 & Hk3 & Hkept3).
    exists r3. split; [done | by etrans].
  - by exists r.
Qed.

(** X12: through the rest of a pass a stored route keeps its id, every
    text field that is not empty, a sort order that is present, and a
    route type that differs from the mode default. *)
Theorem route_fields_kept (mode : string) (d : Z) (datasets : list Feed) (p p' : pass)
    (k : string) (r : route) :
  default_route_type mode = Ok d →
  for_each (process_dataset mode) datasets p = Ok p' →
  route_map p !! k = Some r →
  ∃ r', route_map p' !! k = Some r' ∧ route_kept d r r'.
Proof.
  intros Hd Hloop Hk. revert Hloop.
  apply (for_each_invariant _ (λ q, ∃ r', route_map q !! k = Some r' ∧ route_kept d r r')).
  - intros q feed q' _ (r1 & Hk1 & Hkept1) Hstep.
    apply process_dataset_Ok in Hstep as (_ & Hroutes & _).
    destruct (routes_loop_kept _ _ _ _ _ _ _ Hd Hroutes Hk1) as (r2 & Hk2 & Hkept2).
    exists r2. split; [done | by etrans].
  - by exists r.
Qed.

(** ** Well-formed assignment rows *)

Lemma process_trip_row_ok tm row tm' :
  process_trip_row tm row = Ok tm' → trips_ok tm → trips_ok tm'.
Proof.
  destruct row as [[tid rid] direction]. unfold process_trip_row.
  destruct (truthy_str (normalize_text tid)) eqn:Ht; simpl; [|by intros [= <-]].
  destruct (truthy_str (normalize_route_id rid)) eqn:Hr; simpl; [|by intros [= <-]].
  intros H Hok. apply bind_Ok in H as (d & Hd%parse_direction_id_range & [= <-]).
  intros t r d'. rewrite lookup_insert. case_decide; [|apply Hok].
  subst t. intros [= <- <-]. by rewrite <- !truthy_str_true.
Qed.

Lemma trips_loop_ok rows tm : trips_loop rows = Ok tm → trips_ok tm.
Proof.
  apply (for_each_invariant _ trips_ok).
  - intros s row s' _ Hs Hrow. by eapply process_trip_row_ok.
  - by intros t r d ?%lookup_empty_Some.
Qed.

Lemma process_stop_time_row_keys_ok lk sq row sq' :
  trips_ok (lk_trip_map lk) →
  process_stop_time_row lk sq row = Ok sq' →
  assignment_keys_ok (route_stop_map sq) → assignment_keys_ok (route_stop_map sq').
Proof.
  destruct row as [[tid sid] sseq]. intros Htrips. unfold process_stop_time_row.
  destruct (negb _ || negb _); [by intros [= <-]|].
  destruct (lk_trip_map lk !! _) as [[r d]|] eqn:Htrip; [|by intros [= <-]].
  destruct (lk_station_map lk !! _) as [st|]; [|by intros [= <-]].
  intros H Hok. apply bind_Ok in H as (next & _ & [= <-]). simpl.
  intros r' d' s' v [[= -> -> ->]|Hold]%update_sequence_lookup; [|by eapply Hok].
  by destruct (Htrips _ _ _ Htrip) as (_ & ? & ?).
Qed.

Lemma pass_assignment_keys_ok mode datasets p :
  for_each (process_dataset mode) datasets initial_pass = Ok p →
  assignment_keys_ok (route_stop_map (seq_state p)).
Proof.
  apply (for_each_invariant _ (λ q, assignment_keys_ok (route_stop_map (seq_state q)))).
  - intros q feed q' _ Hq (_ & _ & tm & Htm%trips_loop_ok & Hloop)%process_dataset_Ok.
    revert Hloop.
    apply (for_each_invariant _ (λ sq, assignment_keys_ok (route_stop_map sq))); [|done].
    intros sq row sq' _ Hsq Hrow.
    eapply process_stop_time_row_keys_ok; [|exact Hrow|exact Hsq]. exact Htm.
  - intros r d s v H. simpl in H. by apply lookup_empty_Some in H.
Qed.

(** X13: every emitted assignment row has a non-empty route id, a
    direction that is 0 or 1 and a non-empty station id, and no two
    emitted rows share (route id, direction, station id). *)
Theorem emitted_assignments_well_formed (mode : string) (datasets : list Feed)
    (res : mode_result) :
  process_mode mode datasets = Ok res →
  (∀ r, r ∈ route_stops_rows res →
        rs_route_id r ≠ ""
        ∧ (rs_direction_id r = 0 ∨ rs_direction_id r = 1)
        ∧ rs_stop_id r ≠ "")
  ∧ NoDup ((λ r, (rs_route_id r, rs_direction_id r, rs_stop_id r))
             <$> route_stops_rows res).
Proof.
  intros (p & Hp & ->)%process_mode_Ok. simpl. split.
  - intros r ([[rid d] sid] & v & Hkey & ->)%elem_of_emit_route_stops. simpl.
    destruct (pass_assignment_keys_ok _ _ _ Hp _ _ _ _ Hkey) as [? ?].
    split; [done|]. split; [done|].
    destruct (pass_invariant _ _ _ Hp) as [_ Href].
    apply (pass_nonblank _ _ _ Hp). apply (Href _ _ Hkey).
  - unfold emit_route_stops, sorted_route_stops.
    rewrite <- list_fmap_compose.
    assert (∀ l : list (route_stop_key * option Z),
              ((λ r, (rs_route_id r, rs_direction_id r, rs_stop_id r)) ∘ emit_route_stop)
                <$> l = l.*1) as ->.
    { intros l. apply list_fmap_ext. by intros i [[[rid d] sid] v] _. }
    rewrite sorted_Permutation. apply NoDup_fst_map_to_list.
Qed.

(** ** The order of the stop-time rows *)

Lemma process_stop_time_row_effect lk sq row :
  process_stop_time_row lk sq row = (e ← row_effect lk row; Ok (apply_effect e sq)).
Proof.
  destruct row as [[tid sid] sseq]. unfold process_stop_time_row, row_effect.
  destruct (negb _ || negb _); [done|].
  destruct (lk_trip_map lk !! _) as [[r d]|]; [|done].
  destruct (lk_station_map lk !! _); [|done].
  by destruct (parse_int_or_none sseq).
Qed.

Lemma row_effect_Raise lk row e : row_effect lk row = Raise e → e = OverflowError.
Proof.
  intros H. apply (process_stop_time_row_Raise lk (seq_state initial_pass) row).
  by rewrite process_stop_time_row_effect, H.
Qed.

Lemma min_seq_comm a b : min_seq a b = min_seq b a.
Proof. destruct a, b; simpl; try done. f_equal. lia. Qed.

Lemma lookup_update_sequence rsm key next key' :
  update_sequence rsm key next !! key' =
  if decide (key = key') then Some (min_seq (get_sequence rsm key) next)
  else rsm !! key'.
Proof.
  unfold update_sequence.
  destruct (get_sequence rsm key) as [existing|] eqn:Hget.
  - apply get_sequence_Some in Hget as Hlookup.
    destruct next as [n|]; simpl.
    + destruct (Z.ltb_spec n existing).
      * rewrite lookup_insert. case_decide; [|done]. do 2 f_equal. lia.
      * case_decide; [subst key'; rewrite Hlookup; do 2 f_equal; lia | done].
    + case_decide; [by subst key' | done].
  - rewrite lookup_insert. by case_decide.
Qed.

Lemma update_sequence_comm rsm k1 n1 k2 n2 :
  update_sequence (update_sequence rsm k1 n1) k2 n2
  = update_sequence (update_sequence rsm k2 n2) k1 n1.
Proof.
  apply map_eq. intros k. rewrite !lookup_update_sequence, !get_sequence_update.
  repeat case_decide; subst; try congruence.
  by rewrite !min_seq_assoc, (min_seq_comm n1 n2).
Qed.

Lemma apply_effect_comm e1 e2 sq :
  apply_effect e1 (apply_effect e2 sq) = apply_effect e2 (apply_effect e1 sq).
Proof.
  destruct e1, e2; simpl; try done.
  - f_equal. set_solver.
  - by rewrite update_sequence_comm.
Qed.

(** X14: the result of the stop-time loop, the exception included, does
    not depend on the order of the rows. *)
Theorem stop_times_order_irrelevant (lk : lookups) (sq : sequencer)
    (rows rows' : list stop_time_tuple) :
  rows ≡ₚ rows' → stop_times_loop lk sq rows = stop_times_loop lk sq rows'.
Proof.
  unfold stop_times_loop. intros Hperm. revert sq.
  induction Hperm as [|row rows rows' _ IH|x y rows|rows1 rows2 rows3 _ IH1 _ IH2];
    intros sq.
  - done.
  - simpl. destruct (process_stop_time_row lk sq row); simpl; [apply IH | done].
  - simpl. rewrite !process_stop_time_row_effect.
    destruct (row_effect lk y) as [ey|e1] eqn:Hy, (row_effect lk x) as [ex|e2] eqn:Hx;
      simpl; rewrite ?process_stop_time_row_effect, ?Hx, ?Hy; simpl.
    + by rewrite apply_effect_comm.
    + done.
    + done.
    + by rewrite (row_effect_Raise _ _ _ Hx), (row_effect_Raise _ _ _ Hy).
  - by rewrite IH1, IH2.
Qed.

(** ** The sample of missing stop ids *)

(** X15: the sample of the report is strictly ascending, holds
    [min 50 n] of the [n] missing stop ids, and these are the smallest:
    every missing id left out is greater than every sampled one. *)
Theorem sample_is_smallest (missing_trip_refs : nat) (missing : gset string) :
  let sample := sampleMissingStopIds (report_warnings missing_trip_refs missing) in
  StronglySorted str_lt sample
  ∧ length sample = (50 `min` size missing)%nat
  ∧ (∀ x, x ∈ sample → x ∈ missing)
  ∧ ∀ x y, x ∈ sample → y ∈ missing → y ∉ sample → str_lt x y.
Proof.
  cbv zeta. unfold report_warnings. cbn [sampleMissingStopIds].
  pose proof (sorted_strings_strict (elements missing) (NoDup_elements _)) as Hsorted.
  set (l := sorted String.leb (elements missing)) in *.
  assert (∀ x, x ∈ l ↔ x ∈ missing) as Hl.
  { intros x. unfold l. by rewrite elem_of_sorted, elem_of_elements. }
  rewrite <- (take_drop 50 l) in Hsorted.
  apply StronglySorted_app in Hsorted as (Hlt & Htake & _).
  split; [done|].
  split; [|split].
  - rewrite length_take. unfold l. rewrite (Permutation_length (sorted_Permutation _ _)).
    done.
  - intros x Hx%subseteq_take. by apply Hl.
  - intros x y Hx Hy Hny. apply Hl in Hy.
    rewrite <- (take_drop 50 l), elem_of_app in Hy. destruct Hy as [?|Hy]; [done|].
    by apply Hlt.
Qed.

(** ** Upserts *)

Section Upsert.
Context {A K : Type} (key : A → K) (conflict : A → A → bool) (resolve : A → A → A).
Hypothesis conflict_key : ∀ a b, conflict a b = true ↔ key a = key b.
Hypothesis resolve_key : ∀ old new, key (resolve old new) = key old.
Hypothesis resolve_again : ∀ old new, resolve (resolve old new) new = resolve old new.
Hypothesis resolve_self : ∀ new, resolve new new = new.

Lemma upsert_again new rows :
  upsert conflict resolve new (upsert conflict resolve new rows)
  = upsert conflict resolve new rows.
Proof.
  induction rows as [|old rows IH]; simpl.
  - by rewrite (proj2 (conflict_key new new) eq_refl), resolve_self.
  - destruct (conflict old new) eqn:Hc; simpl.
    + assert (conflict (resolve old new) new = true) as ->.
      { apply conflict_key. rewrite resolve_key. by apply conflict_key. }
      by rewrite resolve_again.
    + by rewrite Hc, IH.
Qed.

Lemma upsert_settled_other new new' rows :
  key new ≠ key new' →
  upsert conflict resolve new rows = rows →
  upsert conflict resolve new (upsert conflict resolve new' rows)
  = upsert conflict resolve new' rows.
Proof.
  intros Hne. induction rows as [|old rows IH]; simpl; [done|].
  destruct (conflict old new) eqn:Hc; simpl.
  - intros [= Hold]. apply conflict_key in Hc.
    assert (conflict old new' = false) as ->.
    { apply not_true_is_false. rewrite conflict_key. congruence. }
    simpl. rewrite (proj2 (conflict_key old new) Hc). by rewrite Hold.
  - intros [= Hrows]. destruct (conflict old new') eqn:Hc'; simpl.
    + assert (conflict (resolve old new') new = false) as ->.
      { apply not_true_is_false. rewrite conflict_key, resolve_key.
        by rewrite <- conflict_key, Hc. }
      by rewrite Hrows.
    + by rewrite Hc, IH.
Qed.

Lemma upsert_all_settled new news rows :
  (∀ new', new' ∈ news → key new ≠ key new') →
  upsert conflict resolve new rows = rows →
  upsert conflict resolve new (upsert_all conflict resolve news rows)
  = upsert_all conflict resolve news rows.
Proof.
  unfold upsert_all. revert rows.
  induction news as [|new' news IH]; intros rows Hne Hrows; simpl; [done|].
  apply IH.
  - intros n Hn. apply Hne. by right.
  - apply upsert_settled_other; [apply Hne; by left | done].
Qed.

Lemma upsert_all_settles news rows new :
  NoDup (key <$> news) → new ∈ news →
  upsert conflict resolve new (upsert_all conflict resolve news rows)
  = upsert_all conflict resolve news rows.
Proof.
  revert rows. induction news as [|n news IH]; intros rows Hnd Hin.
  - by apply elem_of_nil in Hin.
  - rewrite fmap_cons in Hnd. apply NoDup_cons in Hnd as [Hn Hnd].
    apply elem_of_cons in Hin as [->|Hin].
    + change (upsert_all conflict resolve (n :: news) rows)
        with (upsert_all conflict resolve news (upsert conflict resolve n rows)).
      apply upsert_all_settled; [|apply upsert_again].
      intros n' Hn' Heq. apply Hn. rewrite Heq. apply list_elem_of_fmap. eauto.
    + by apply (IH (upsert conflict resolve n rows)).
Qed.

(** Upserting a batch with distinct keys a second time changes nothing. *)
Lemma upsert_all_idempotent news rows :
  NoDup (key <$> news) →
  upsert_all conflict resolve news (upsert_all conflict resolve news rows)
  = upsert_all conflict resolve news rows.
Proof.
  intros Hnd.
  assert (∀ l t, (∀ n, n ∈ l → upsert conflict resolve n t = t) →
                 upsert_all conflict resolve l t = t) as Hfix.
  { induction l as [|n l IH]; intros t Ht; [done|].
    change (upsert_all conflict resolve (n :: l) t)
      with (upsert_all conflict resolve l (upsert conflict resolve n t)).
    rewrite Ht by by left. apply IH. intros n' Hn'. apply Ht. by right. }
  apply Hfix. intros n Hn. by apply upsert_all_settles.
Qed.
End Upsert.

Lemma coalesce_again {A : Type} (new old : option A) :
  coalesce new (coalesce new old) = coalesce new old.
Proof. by destruct new. Qed.

Lemma coalesce_self {A : Type} (new : option A) : coalesce new new = new.
Proof. by destruct new. Qed.

Lemma coalesce_nullif_again new old :
  coalesce_nullif new (coalesce_nullif new old) = coalesce_nullif new old.
Proof. by destruct new. Qed.

Lemma coalesce_nullif_self new : coalesce_nullif new new = new.
Proof. by destruct new. Qed.

Lemma upsert_stations_idempotent news rows :
  NoDup (sr_stop_id <$> news) →
  let up := upsert_all (λ old new, String.eqb (sr_stop_id old) (sr_stop_id new))
              upsert_station news in
  up (up rows) = up rows.
Proof.
  intros Hnd. apply (upsert_all_idempotent sr_stop_id); [| | | |done].
  - intros a b. apply String.eqb_eq.
  - done.
  - intros old new. unfold upsert_station. simpl. by rewrite !coalesce_again.
  - intros [? ? ? ? ? ?]. unfold upsert_station. simpl. by rewrite !coalesce_self.
Qed.

Lemma upsert_routes_idempotent news rows :
  NoDup (route_id <$> news) →
  let up := upsert_all (λ old new, String.eqb (route_id old) (route_id new))
              upsert_route news in
  up (up rows) = up rows.
Proof.
  intros Hnd. apply (upsert_all_idempotent route_id); [| | | |done].
  - intros a b. apply String.eqb_eq.
  - done.
  - intros old new. unfold upsert_route. simpl.
    by rewrite !coalesce_again, !coalesce_nullif_again.
  - intros [? ? ? ? ? ? ? ? ? ?]. unfold upsert_route. simpl.
    by rewrite !coalesce_self, !coalesce_nullif_self.
Qed.

Lemma same_assignment_key old new :
  same_assignment old new = true ↔ assignment_key old = assignment_key new.
Proof.
  unfold same_assignment, assignment_key.
  rewrite !andb_true_iff, !String.eqb_eq, Z.eqb_eq. split.
  - by intros [[-> ->] ->].
  - intros [= -> -> ->]. done.
Qed.

Lemma upsert_route_stops_idempotent news rows :
  NoDup (assignment_key <$> news) →
  let up := upsert_all same_assignment (λ old _, old) news in
  up (up rows) = up rows.
Proof.
  intros Hnd. apply (upsert_all_idempotent assignment_key); [| | | |done]; try done.
  apply same_assignment_key.
Qed.

Lemma emitted_keys_NoDup mode datasets res :
  process_mode mode datasets = Ok res →
  NoDup (sr_stop_id <$> stations_rows res)
  ∧ NoDup (route_id <$> routes_rows res)
  ∧ NoDup (assignment_key <$> route_stops_rows res).
Proof.
  intros (p & Hp & ->)%process_mode_Ok. simpl. split; [|split].
  - unfold emit_stations. rewrite <- list_fmap_compose.
    change (sr_stop_id ∘ emit_station mode) with stop_id.
    rewrite sorted_Permutation. apply keyed_values_NoDup.
    by destruct (pass_invariant _ _ _ Hp).
  - unfold emit_routes. rewrite sorted_Permutation.
    by apply route_keyed_values_NoDup, (pass_route_keyed mode datasets).
  - unfold emit_route_stops, sorted_route_stops. rewrite <- list_fmap_compose.
    assert (∀ l : list (route_stop_key * option Z),
              (assignment_key ∘ emit_route_stop) <$> l = l.*1) as ->.
    { intros l. apply list_fmap_ext. by intros i [[[rid d] sid] v] _. }
    rewrite sorted_Permutation. apply NoDup_fst_map_to_list.
Qed.

Lemma upsert_bus_mode_Ok fails res c c' :
  upsert_bus_mode fails res c = Ok c' → working c' = bus_upserted res (working c).
Proof.
  unfold upsert_bus_mode. intros H.
  apply bind_Ok in H as (c1 & H1%execute_values_if_rows_Ok & H).
  apply bind_Ok in H as (c2 & H2%execute_values_if_rows_Ok & H3%execute_values_if_rows_Ok).
  rewrite H3. unfold bus_upserted.
  destruct (route_stops_rows res); simpl; rewrite H2;
    destruct (routes_rows res); simpl; rewrite H1;
    destruct (stations_rows res); simpl; by destruct (working c).
Qed.

Lemma upsert_rows_idempotent {A : Type} conflict resolve (news : list A)
    (tables : gmap string (list A)) :
  (∀ rows, upsert_all conflict resolve news (upsert_all conflict resolve news rows)
           = upsert_all conflict resolve news rows) →
  upsert_rows conflict resolve news (upsert_rows conflict resolve news tables)
  = upsert_rows conflict resolve news tables.
Proof.
  intros Hidem. unfold upsert_rows, table. rewrite lookup_insert_eq. simpl.
  fold (upsert_all conflict resolve news (default [] (tables !! "bus"))).
  fold (upsert_all conflict resolve news
          (upsert_all conflict resolve news (default [] (tables !! "bus")))).
  by rewrite Hidem, insert_insert_eq.
Qed.

(** X16: writing the rows of one pass to the bus tables a second time
    changes nothing: no row is added and none is modified. *)
Theorem upsert_bus_mode_idempotent (fails : nat → string → bool) (mode : string)
    (datasets : list Feed) (res : mode_result) (c c1 c2 : cursor) :
  process_mode mode datasets = Ok res →
  upsert_bus_mode fails res c = Ok c1 →
  upsert_bus_mode fails res c1 = Ok c2 →
  working c2 = working c1.
Proof.
  intros (Hst & Hrt & Hrs)%emitted_keys_NoDup
         H1%upsert_bus_mode_Ok H2%upsert_bus_mode_Ok.
  rewrite H2, H1. unfold bus_upserted. simpl. f_equal.
  - destruct (stations_rows res); [done|].
    apply upsert_rows_idempotent. intros rows. by apply upsert_stations_idempotent.
  - destruct (routes_rows res); [done|].
    apply upsert_rows_idempotent. intros rows. by apply upsert_routes_idempotent.
  - destruct (route_stops_rows res); [done|].
    apply upsert_rows_idempotent. intros rows. by apply upsert_route_stops_idempotent.
Qed.



Section UpsertKept.
Context {A : Type} (conflict : A → A → bool) (resolve : A → A → A) (R : relation A).
Context `{!PreOrder R}.
Hypothesis resolve_R : ∀ old new, R old (resolve old new).

Lemma upsert_kept new rows i old :
  rows !! i = Some old →
  ∃ new', upsert conflict resolve new rows !! i = Some new' ∧ R old new'.
Proof.
  revert i. induction rows as [|x rows IH]; intros i Hi; [done|]. simpl.
  destruct (conflict x new).
  - destruct i as [|i]; simpl in *; [|by exists old].
    injection Hi as ->. by exists (resolve old new).
  - destruct i as [|i]; simpl in *; [by exists old | by apply IH].
Qed.

Lemma upsert_all_kept news rows i old :
  rows !! i = Some old →
  ∃ new', upsert_all conflict resolve news rows !! i = Some new' ∧ R old new'.
Proof.
  unfold upsert_all. revert rows old.
  induction news as [|new news IH]; intros rows old Hi; simpl; [by exists old|].
  destruct (upsert_kept new rows i old Hi) as (x & Hx & Hox).
  destruct (IH _ _ Hx) as (y & Hy & Hxy). exists y. split; [done | by etrans].
Qed.
End UpsertKept.

#[global] Instance station_row_kept_preorder : PreOrder station_row_kept.
Proof.
  split; [by intros r|].
  intros a b c (? & ? & ? & ?) (? & ? & ? & ?). unfold station_row_kept.
  split; [congruence|]. auto.
Qed.

#[global] Instance route_row_kept_preorder : PreOrder route_row_kept.
Proof.
  split; [by intros r|].
  intros a b c (? & ? & ? & ? & ? & ? & ? & ? & ?) (? & ? & ? & ? & ? & ? & ? & ? & ?).
  unfold route_row_kept. split; [congruence|]. repeat split; auto.
Qed.

Lemma coalesce_is_Some {A : Type} (new old : option A) :
  is_Some old → is_Some (coalesce new old).
Proof. destruct new; simpl; eauto. Qed.

Lemma coalesce_nullif_nonempty new old : old ≠ "" → coalesce_nullif new old ≠ "".
Proof. by destruct new. Qed.

Lemma upsert_station_kept old new : station_row_kept old (upsert_station old new).
Proof.
  unfold station_row_kept, upsert_station. simpl.
  split; [done|]. repeat split; apply coalesce_is_Some.
Qed.

Lemma upsert_route_kept old new : route_row_kept old (upsert_route old new).
Proof.
  unfold route_row_kept, upsert_route. simpl. split; [done|].
  repeat split; first [apply coalesce_is_Some | apply coalesce_nullif_nonempty].
Qed.

(** X18: the station and route upserts never remove or move a row of
    the bus tables: the row at each position keeps its id, and a nullable
    column that held a value (a non-empty name for the route names) still
    holds one. *)
Theorem upsert_keeps_known_values (fails : nat → string → bool) (res : mode_result)
    (c c' : cursor) :
  upsert_bus_mode fails res c = Ok c' →
  (∀ i old, table (db_stations (working c)) "bus" !! i = Some old →
     ∃ new, table (db_stations (working c')) "bus" !! i = Some new
            ∧ station_row_kept old new)
  ∧ (∀ i old, table (db_routes (working c)) "bus" !! i = Some old →
       ∃ new, table (db_routes (working c')) "bus" !! i = Some new
              ∧ route_row_kept old new).
Proof.
  intros ->%upsert_bus_mode_Ok. unfold bus_upserted. simpl. split.
  - intros i old Hi. destruct (stations_rows res) as [|r0 rs]; [by exists old|].
    unfold upsert_rows. unfold table at 1. rewrite lookup_insert_eq. simpl.
    apply (upsert_all_kept _ _ station_row_kept upsert_station_kept (r0 :: rs) _ _ _ Hi).
  - intros i old Hi. destruct (routes_rows res) as [|r0 rs]; [by exists old|].
    unfold upsert_rows. unfold table at 1. rewrite lookup_insert_eq. simpl.
    apply (upsert_all_kept _ _ route_row_kept upsert_route_kept (r0 :: rs) _ _ _ Hi).
Qed.

(** ** Inserts and the report of a run *)

(** X19: a successful insert of a single-dataset mode appends the
    emitted rows to the three tables of that mode and leaves the tables of
    every other mode as they were. *)
Theorem insert_non_bus_mode_appends (fails : nat → string → bool) (mode : string)
    (res : mode_result) (c c' : cursor) :
  insert_non_bus_mode fails mode res c = Ok c' →
  table (db_stations (working c')) mode
  = (table (db_stations (working c)) mode ++ stations_rows res)%list
  ∧ table (db_routes (working c')) mode
    = (table (db_routes (working c)) mode ++ routes_rows res)%list
  ∧ table (db_route_stops (working c')) mode
    = (table (db_route_stops (working c)) mode ++ route_stops_rows res)%list
  ∧ ∀ m, m ≠ mode → view (working c') m = view (working c) m.
Proof.
  intros H. pose proof (λ m, insert_non_bus_mode_view fails mode res c c' m H) as Hview.
  pose proof (Hview mode) as Hmode. rewrite decide_True in Hmode by done.
  unfold view in Hmode. simpl in Hmode. injection Hmode as -> -> ->.
  repeat split. intros m Hm. by rewrite Hview, decide_False.
Qed.

Section UpsertKeys.
Context {A K : Type} `{Countable K} (key : A → K).
Context (conflict : A → A → bool) (resolve : A → A → A).
Hypothesis conflict_key : ∀ a b, conflict a b = true ↔ key a = key b.
Hypothesis resolve_key : ∀ old new, key (resolve old new) = key old.

Lemma upsert_keys new rows :
  key <$> upsert conflict resolve new rows
  = if decide (key new ∈ key <$> rows) then key <$> rows
    else ((key <$> rows) ++ [key new])%list.
Proof.
  induction rows as [|old rows IH]; cbn [upsert].
  - destruct (decide _) as [Hin|]; [by apply elem_of_nil in Hin | done].
  - assert (key new ∈ key <$> old :: rows ↔ key new = key old ∨ key new ∈ key <$> rows)
      as Hcons by (rewrite fmap_cons; apply elem_of_cons).
    destruct (conflict old new) eqn:Hc.
    + apply conflict_key in Hc. rewrite decide_True by (apply Hcons; by left).
      by rewrite !fmap_cons, resolve_key.
    + assert (key old ≠ key new) as Hne.
      { intros Heq%conflict_key. congruence. }
      rewrite fmap_cons, IH.
      destruct (decide (key new ∈ key <$> rows)) as [Hin|Hnin].
      * by rewrite decide_True by (apply Hcons; by right).
      * rewrite decide_False; [done|]. rewrite Hcons. by intros [?|?].
Qed.

Lemma upsert_all_keys news rows :
  NoDup (key <$> rows) →
  NoDup (key <$> upsert_all conflict resolve news rows)
  ∧ list_to_set (C := gset K) (key <$> upsert_all conflict resolve news rows)
    = list_to_set (key <$> news) ∪ list_to_set (key <$> rows).
Proof.
  unfold upsert_all. revert rows.
  induction news as [|new news IH]; intros rows Hnd; simpl.
  - split; [done | set_solver].
  - destruct (IH (upsert conflict resolve new rows)) as [Hnd' Hset].
    + rewrite upsert_keys. case_decide; [done|].
      apply NoDup_app. split; [done|]. split; [|apply NoDup_singleton].
      intros x Hx ->%list_elem_of_singleton. done.
    + split; [done|]. rewrite Hset, upsert_keys. case_decide.
      * set_solver.
      * rewrite list_to_set_app_L. set_solver.
Qed.
End UpsertKeys.

(** ** The stop-time reducer *)

Lemma truthy_str_nonblank (s : string) : truthy_str s = true ↔ s ≠ "".
Proof. destruct s; simpl; split; congruence. Qed.

Lemma reduce_row_plain st row :
  reduce_row false st row
  = {| seen := seen st; rows_in := S (rows_in st);
       rows_out := (rows_out st + length (List.filter nonblank_key [row_key row]))%nat;
       written := (written st ++ List.filter nonblank_key [row_key row])%list |}.
Proof.
  unfold reduce_row, row_key, nonblank_key. cbn [List.filter fst snd seen rows_in rows_out written].
  destruct (truthy_str (strip (or_empty (row_get row "trip_id"))));
    destruct (truthy_str (strip (or_empty (row_get row "stop_id"))));
    cbn [negb orb andb length app];
    rewrite ?app_nil_r, ?Nat.add_0_r, ?Nat.add_1_r; reflexivity.
Qed.

Lemma reduce_row_dedupe st row :
  let fo := first_occurrences (seen st) (List.filter nonblank_key [row_key row]) in
  reduce_row true st row
  = {| seen := list_to_set fo ∪ seen st; rows_in := S (rows_in st);
       rows_out := (rows_out st + length fo)%nat;
       written := (written st ++ fo)%list |}.
Proof.
  cbv zeta. unfold reduce_row, row_key, nonblank_key.
  cbn [List.filter fst snd seen rows_in rows_out written].
  destruct (truthy_str (strip (or_empty (row_get row "trip_id"))));
    destruct (truthy_str (strip (or_empty (row_get row "stop_id"))));
    cbn [negb orb andb first_occurrences length app list_to_set];
    rewrite ?app_nil_r, ?Nat.add_0_r, ?(left_id_L ∅ (∪)); try reflexivity.
  destruct (bool_decide _);
    cbn [negb orb andb first_occurrences length app list_to_set];
    rewrite ?app_nil_r, ?Nat.add_0_r, ?Nat.add_1_r, ?(left_id_L ∅ (∪)); try reflexivity.
  f_equal. set_solver.
Qed.

Lemma filter_keys_cons row rows :
  List.filter nonblank_key (row_key <$> row :: rows)
  = (List.filter nonblank_key [row_key row]
       ++ List.filter nonblank_key (row_key <$> rows))%list.
Proof. change (row_key <$> row :: rows) with ([row_key row] ++ (row_key <$> rows))%list.
  apply List.filter_app. Qed.

Lemma first_occurrences_app known keys1 keys2 :
  first_occurrences known (keys1 ++ keys2)
  = (first_occurrences known keys1
       ++ first_occurrences (list_to_set (first_occurrences known keys1) ∪ known) keys2)%list.
Proof.
  revert known. induction keys1 as [|k keys1 IH]; intros known.
  - cbn [app first_occurrences list_to_set]. by rewrite (left_id_L ∅ (∪)).
  - cbn [app first_occurrences]. destruct (bool_decide (k ∈ known)).
    + apply IH.
    + cbn [app list_to_set]. rewrite IH. do 2 f_equal. f_equal. set_solver.
Qed.

Lemma fold_reduce_plain rows st :
  fold_left (reduce_row false) rows st
  = {| seen := seen st; rows_in := (rows_in st + length rows)%nat;
       rows_out := (rows_out st
                    + length (List.filter nonblank_key (row_key <$> rows)))%nat;
       written := (written st ++ List.filter nonblank_key (row_key <$> rows))%list |}.
Proof.
  revert st. induction rows as [|row rows IH]; intros st.
  - cbn [fold_left fmap list_fmap List.filter length]. destruct st.
    cbn [seen rows_in rows_out written]. by rewrite app_nil_r, !Nat.add_0_r.
  - cbn [fold_left]. rewrite IH, reduce_row_plain, filter_keys_cons.
    cbn [seen rows_in rows_out written]. rewrite length_app, <- !app_assoc.
    f_equal; cbn [length]; lia.
Qed.

Lemma fold_reduce_dedupe rows st :
  let fo := first_occurrences (seen st) (List.filter nonblank_key (row_key <$> rows)) in
  fold_left (reduce_row true) rows st
  = {| seen := list_to_set fo ∪ seen st; rows_in := (rows_in st + length rows)%nat;
       rows_out := (rows_out st + length fo)%nat;
       written := (written st ++ fo)%list |}.
Proof.
  cbv zeta. revert st. induction rows as [|row rows IH]; intros st.
  - cbn [fold_left fmap list_fmap List.filter length first_occurrences list_to_set].
    destruct st. cbn [seen rows_in rows_out written].
    by rewrite app_nil_r, !Nat.add_0_r, (left_id_L ∅ (∪)).
  - cbn [fold_left]. rewrite IH. pose proof (reduce_row_dedupe st row) as Hrow.
    cbv zeta in Hrow. rewrite Hrow. clear Hrow.
    rewrite filter_keys_cons, first_occurrences_app.
    cbn [seen rows_in rows_out written]. rewrite length_app, <- !app_assoc.
    f_equal; [rewrite list_to_set_app_L; set_solver | cbn [length]; lia | lia].
Qed.

Lemma first_occurrences_elem_of known keys k :
  k ∈ first_occurrences known keys ↔ k ∈ keys ∧ k ∉ known.
Proof.
  revert known. induction keys as [|k' keys IH]; intros known; cbn [first_occurrences].
  - set_solver.
  - destruct (bool_decide (k' ∈ known)) eqn:Hk.
    + apply bool_decide_eq_true in Hk. rewrite IH. set_solver.
    + apply bool_decide_eq_false in Hk. rewrite elem_of_cons, IH.
      destruct (decide (k = k')) as [->|Hne]; set_solver.
Qed.

Lemma first_occurrences_NoDup known keys : NoDup (first_occurrences known keys).
Proof.
  revert known. induction keys as [|k keys IH]; intros known; cbn [first_occurrences].
  - constructor.
  - destruct (bool_decide (k ∈ known)); [apply IH|].
    constructor; [|apply IH]. rewrite first_occurrences_elem_of. set_solver.
Qed.

Lemma first_occurrences_sublist known keys : sublist (first_occurrences known keys) keys.
Proof.
  revert known. induction keys as [|k keys IH]; intros known; cbn [first_occurrences].
  - constructor.
  - destruct (bool_decide (k ∈ known)); [by apply sublist_cons | by apply sublist_skip].
Qed.

Lemma first_occurrences_id known keys :
  NoDup keys → (∀ k, k ∈ keys → k ∉ known) → first_occurrences known keys = keys.
Proof.
  revert known. induction keys as [|k keys IH]; intros known Hnd Hnew;
    cbn [first_occurrences]; [done|].
  apply NoDup_cons in Hnd as [Hk Hnd].
  rewrite bool_decide_eq_false_2 by (apply Hnew; left). f_equal. apply IH; [done|].
  intros k' Hk'. specialize (Hnew k' ltac:(by right)). set_solver.
Qed.

Lemma reduce_stop_times_Ok dedupe fieldnames rows st :
  reduce_stop_times dedupe fieldnames rows = Ok st ↔
  has_header fieldnames
  ∧ st = fold_left (reduce_row dedupe) rows
           {| seen := ∅; rows_in := 0; rows_out := 0; written := [] |}.
Proof.
  unfold reduce_stop_times, has_header. destruct fieldnames as [names|].
  - destruct (bool_decide ("trip_id" ∈ names)) eqn:Ht;
      [apply bool_decide_eq_true in Ht | apply bool_decide_eq_false in Ht];
      (destruct (bool_decide ("stop_id" ∈ names)) eqn:Hs;
       [apply bool_decide_eq_true in Hs | apply bool_decide_eq_false in Hs]);
      cbn [negb orb].
    + split; [intros [= <-]; split; [by exists names | done] | by intros [_ ->]].
    + split; [done | intros [(? & [= <-] & _ & ?) _]; done].
    + split; [done | intros [(? & [= <-] & ? & _) _]; done].
    + split; [done | intros [(? & [= <-] & ? & _) _]; done].
  - split; [done | intros [(? & [=] & _) _]].
Qed.

Lemma nonblank_key_filter keys k :
  k ∈ List.filter nonblank_key keys ↔ k ∈ keys ∧ k.1 ≠ "" ∧ k.2 ≠ "".
Proof.
  rewrite !list_elem_of_In, List.filter_In. unfold nonblank_key.
  rewrite andb_true_iff, !truthy_str_nonblank. done.
Qed.

Lemma row_key_trimmed row : trimmed (row_key row).1 ∧ trimmed (row_key row).2.
Proof. split; apply strip_trimmed. Qed.

Lemma row_key_key_row k :
  k.1 ≠ "" → k.2 ≠ "" → trimmed k.1 → trimmed k.2 → row_key (key_row k) = k.
Proof.
  destruct k as [t s]. cbn [fst snd]. intros Ht Hs Htt Hts.
  unfold row_key, key_row, row_get. cbn [fst snd].
  rewrite lookup_insert_eq, lookup_insert_ne, lookup_singleton_eq by done.
  cbn [mbind option_bind id or_empty].
  apply truthy_str_nonblank in Ht, Hs. rewrite Ht, Hs. by rewrite !strip_id.
Qed.

Lemma filter_keys_written keys :
  (∀ k, k ∈ keys → k.1 ≠ "" ∧ k.2 ≠ "" ∧ trimmed k.1 ∧ trimmed k.2) →
  List.filter nonblank_key (row_key <$> (key_row <$> keys)) = keys.
Proof.
  induction keys as [|k keys IH]; intros Hkeys; [done|].
  destruct (Hkeys k ltac:(left)) as (Ht & Hs & Htt & Hts).
  cbn [fmap list_fmap]. rewrite row_key_key_row by done. cbn [List.filter].
  unfold nonblank_key at 1. apply truthy_str_nonblank in Ht as Ht', Hs as Hs'.
  rewrite Ht', Hs'. cbn [andb]. f_equal. apply IH.
  intros k' Hk'. apply Hkeys. by right.
Qed.


(** X21: without [--dedupe] the reducer writes, in the order of the
    input, the pair of stripped ids of every row whose two ids are not
    blank, and nothing else; it counts every row read and every row
    written, and every written id is free of surrounding whitespace. *)
Theorem reduce_stop_times_plain (fieldnames : option (list string))
    (rows : list csv_row) (st : reducer) :
  reduce_stop_times false fieldnames rows = Ok st →
  written st = List.filter nonblank_key (row_key <$> rows)
  ∧ rows_in st = length rows
  ∧ rows_out st = length (written st)
  ∧ (rows_out st ≤ rows_in st)%nat
  ∧ ∀ k, k ∈ written st → k.1 ≠ "" ∧ k.2 ≠ "" ∧ trimmed k.1 ∧ trimmed k.2.
Proof.
  intros [_ ->]%reduce_stop_times_Ok. rewrite fold_reduce_plain.
  cbn [seen rows_in rows_out written app Nat.add].
  split; [done|]. split; [done|]. split; [done|]. split.
  - etrans; [apply List.filter_length_le|]. by rewrite length_fmap.
  - intros k [Hk [Ht Hs]]%nonblank_key_filter. split; [done|]. split; [done|].
    apply list_elem_of_fmap in Hk as (row & -> & _). apply row_key_trimmed.
Qed.

(** X22: with [--dedupe] the reducer writes the first occurrence of
    every pair the plain run writes, in the same order: no pair is
    written twice, none is lost, and the set [seen] holds exactly the
    written pairs. *)
Theorem reduce_stop_times_dedupe (fieldnames : option (list string))
    (rows : list csv_row) (st st' : reducer) :
  reduce_stop_times true fieldnames rows = Ok st →
  reduce_stop_times false fieldnames rows = Ok st' →
  written st = first_occurrences ∅ (written st')
  ∧ NoDup (written st)
  ∧ sublist (written st) (written st')
  ∧ (∀ k, k ∈ written st ↔ k ∈ written st')
  ∧ (∀ k, k ∈ seen st ↔ k ∈ written st)
  ∧ rows_in st = rows_in st'
  ∧ rows_out st = length (written st).
Proof.
  intros [_ ->]%reduce_stop_times_Ok [_ ->]%reduce_stop_times_Ok.
  rewrite fold_reduce_plain. pose proof (fold_reduce_dedupe rows
    {| seen := ∅; rows_in := 0; rows_out := 0; written := [] |}) as Hd.
  cbv zeta in Hd. rewrite Hd. clear Hd.
  cbn [seen rows_in rows_out written app Nat.add].
  split; [done|]. split; [apply first_occurrences_NoDup|].
  split; [apply first_occurrences_sublist|].
  split; [intros k; rewrite first_occurrences_elem_of; set_solver|].
  split; [set_solver | done].
Qed.

(** X23: the reducer run on its own output, with the same flag, writes
    that output again: every row read is written. *)
Theorem reduce_stop_times_again (dedupe : bool) (fieldnames : option (list string))
    (rows : list csv_row) (st : reducer) :
  reduce_stop_times dedupe fieldnames rows = Ok st →
  ∃ st', reduce_stop_times dedupe (Some ["trip_id"; "stop_id"]) (key_row <$> written st)
         = Ok st'
         ∧ written st' = written st
         ∧ rows_in st' = rows_out st
         ∧ rows_out st' = rows_out st.
Proof.
  intros Hrun.
  assert (has_header (Some ["trip_id"; "stop_id"])) as Hh.
  { exists ["trip_id"; "stop_id"]. split; [done|]. split; set_solver. }
  assert (∃ keys, written st = keys ∧ rows_out st = length keys
                  ∧ (dedupe = true → NoDup keys)
                  ∧ ∀ k, k ∈ keys → k.1 ≠ "" ∧ k.2 ≠ "" ∧ trimmed k.1 ∧ trimmed k.2)
    as (keys & Hw & Hout & Hnd & Hkeys).
  { assert (∀ k, k ∈ List.filter nonblank_key (row_key <$> rows) →
                 k.1 ≠ "" ∧ k.2 ≠ "" ∧ trimmed k.1 ∧ trimmed k.2) as Hall.
    { intros k [Hk [Ht Hs]]%nonblank_key_filter. split; [done|]. split; [done|].
      apply list_elem_of_fmap in Hk as (row & -> & _). apply row_key_trimmed. }
    apply reduce_stop_times_Ok in Hrun as [_ ->]. destruct dedupe.
    - pose proof (fold_reduce_dedupe rows
        {| seen := ∅; rows_in := 0; rows_out := 0; written := [] |}) as Hd.
      cbv zeta in Hd. rewrite Hd. clear Hd. cbn [seen rows_in rows_out written app Nat.add].
      eexists. split; [done|]. split; [done|]. split; [intros _; apply first_occurrences_NoDup|].
      intros k [Hk _]%first_occurrences_elem_of. by apply Hall.
    - rewrite fold_reduce_plain. cbn [seen rows_in rows_out written app Nat.add].
      eexists. split; [done|]. split; [done|]. split; [done|]. exact Hall. }
  eexists. split; [apply reduce_stop_times_Ok; split; [exact Hh | reflexivity]|].
  rewrite Hw, Hout. destruct dedupe.
  - pose proof (fold_reduce_dedupe (key_row <$> keys)
      {| seen := ∅; rows_in := 0; rows_out := 0; written := [] |}) as Hd.
    cbv zeta in Hd. rewrite Hd. clear Hd. cbn [seen rows_in rows_out written app Nat.add].
    rewrite filter_keys_written by done.
    rewrite first_occurrences_id by (auto; set_solver).
    by rewrite length_fmap.
  - rewrite fold_reduce_plain. cbn [seen rows_in rows_out written app Nat.add].
    rewrite filter_keys_written by done. by rewrite length_fmap.
Qed.

(** X24: the reducer only appends: the rows written for a prefix of the
    input are a prefix of the rows written for the whole input. *)
Theorem reduce_stop_times_streams (dedupe : bool) (fieldnames : option (list string))
    (rows1 rows2 : list csv_row) (st1 st2 : reducer) :
  reduce_stop_times dedupe fieldnames rows1 = Ok st1 →
  reduce_stop_times dedupe fieldnames (rows1 ++ rows2) = Ok st2 →
  written st1 `prefix_of` written st2
  ∧ (rows_in st2 = rows_in st1 + length rows2)%nat.
Proof.
  intros [_ ->]%reduce_stop_times_Ok [_ ->]%reduce_stop_times_Ok.
  rewrite fold_left_app.
  set (st := fold_left (reduce_row dedupe) rows1 _). destruct dedupe.
  - pose proof (fold_reduce_dedupe rows2 st) as Hd. cbv zeta in Hd. rewrite Hd.
    cbn [seen rows_in rows_out written]. split; [by eexists | done].
  - rewrite (fold_reduce_plain rows2 st).
    cbn [seen rows_in rows_out written]. split; [by eexists | done].
Qed.

(** * Runs on the example data *)

Lemma parse_int_or_none_decimal_witness :
  parse_int_or_none (PyObj "2147483647") = Ok (Some 2147483647).
Proof.
  apply (parse_int_or_none_decimal "2147483647").
  - discriminate.
  - vm_compute. repeat split.
  - vm_compute. reflexivity.
Defined.

Lemma stops_loop_lookup_witness :
  ∃ sid,
    (stops_loop "subway" ∅
       (stop_tuples (default_columns optional_stop_columns (stops demo_feed)))).2
      !! "101N" = Some sid
    ∧ is_Some
        ((stops_loop "subway" ∅
            (stop_tuples (default_columns optional_stop_columns (stops demo_feed)))).1
           !! sid).
Proof.
  destruct (stops_loop_lookup "subway" ∅
              (stop_tuples (default_columns optional_stop_columns (stops demo_feed))))
    as (Hrows & _).
  - intros k [st Hk]. rewrite lookup_empty in Hk. discriminate Hk.
  - apply (Hrows (PyObj "101N", PyObj "Times Sq", PyNone, PyNone, PyObj "101")).
    + vm_compute. left.
    + vm_compute. discriminate.
Defined.

Lemma station_fields_kept_witness :
  ∃ p' st st',
    for_each (process_dataset "subway") [demo_feed] demo_pass = Ok p'
    ∧ station_map demo_pass !! "101" = Some st
    ∧ station_map p' !! "101" = Some st'
    ∧ station_kept st st'.
Proof.
  destruct (for_each (process_dataset "subway") [demo_feed] demo_pass) as [p'|e] eqn:Hp;
    [|vm_compute in Hp; discriminate Hp].
  destruct (station_map demo_pass !! "101") as [st|] eqn:Hst;
    [|vm_compute in Hst; discriminate Hst].
  destruct (station_fields_kept "subway" [demo_feed] demo_pass p' "101" st Hp Hst)
    as (st' & Hst' & Hkept).
  exists p', st, st'. split; [reflexivity|]. split; [reflexivity|].
  split; [exact Hst' | exact Hkept].
Defined.

Lemma missing_stop_ids_are_unlisted_witness :
  "999" ≠ ""
  ∧ ∃ feed, feed ∈ [demo_feed]
            ∧ ∀ row, row ∈ stop_tuples (default_columns optional_stop_columns (stops feed)) →
                     normalize_text row.1.1.1.1 ≠ "999".
Proof.
  apply (missing_stop_ids_are_unlisted "subway" [demo_feed] demo_result "999").
  - vm_compute. reflexivity.
  - apply (bool_decide_unpack _). vm_compute. exact I.
Defined.

Lemma emitted_stations_sorted_witness :
  StronglySorted (λ a b, str_lt (sr_stop_id a) (sr_stop_id b)) (stations_rows demo_result)
  ∧ ∀ r, r ∈ stations_rows demo_result → sr_stop_id r ≠ "" ∧ sr_stop_name r ≠ "".
Proof.
  apply (emitted_stations_sorted "subway" [demo_feed] demo_result).
  vm_compute. reflexivity.
Defined.

Lemma emitted_children_sorted_witness :
  ∃ st, station_map demo_pass !! "101" = Some st
        ∧ sr_child_stop_ids_json (emit_station "subway" st) ≠ []
        ∧ StronglySorted str_lt (sr_child_stop_ids_json (emit_station "subway" st)).
Proof.
  destruct (station_map demo_pass !! "101") as [st|] eqn:Hst;
    [|vm_compute in Hst; discriminate Hst].
  exists st. split; [reflexivity|].
  destruct (emitted_children_sorted "subway" st) as (Hne & Hsorted & _).
  - discriminate.
  - split; [exact Hne | exact Hsorted].
Defined.

Lemma emitted_routes_sorted_witness :
  StronglySorted (λ a b, str_lt (route_id a) (route_id b)) (routes_rows demo_result)
  ∧ ∀ r, r ∈ routes_rows demo_result →
         route_id r ≠ "" ∧ normalize_route_id (PyObj (route_id r)) = route_id r.
Proof.
  apply (emitted_routes_sorted "subway" [demo_feed] demo_result).
  vm_compute. reflexivity.
Defined.

Lemma route_fields_kept_witness :
  ∃ p' r r',
    for_each (process_dataset "subway") [demo_feed] demo_pass = Ok p'
    ∧ route_map demo_pass !! "A" = Some r
    ∧ route_map p' !! "A" = Some r'
    ∧ route_kept 1 r r'.
Proof.
  destruct (for_each (process_dataset "subway") [demo_feed] demo_pass) as [p'|e] eqn:Hp;
    [|vm_compute in Hp; discriminate Hp].
  destruct (route_map demo_pass !! "A") as [r|] eqn:Hr;
    [|vm_compute in Hr; discriminate Hr].
  destruct (route_fields_kept "subway" 1 [demo_feed] demo_pass p' "A" r) as (r' & Hr' & Hkept).
  - vm_compute. reflexivity.
  - exact Hp.
  - exact Hr.
  - exists p', r, r'. split; [reflexivity|]. split; [reflexivity|].
    split; [exact Hr' | exact Hkept].
Defined.

Lemma emitted_assignments_well_formed_witness :
  (∀ r, r ∈ route_stops_rows demo_result →
        rs_route_id r ≠ ""
        ∧ (rs_direction_id r = 0 ∨ rs_direction_id r = 1)
        ∧ rs_stop_id r ≠ "")
  ∧ NoDup ((λ r, (rs_route_id r, rs_direction_id r, rs_stop_id r))
             <$> route_stops_rows demo_result).
Proof.
  apply (emitted_assignments_well_formed "subway" [demo_feed] demo_result).
  vm_compute. reflexivity.
Defined.

Lemma stop_times_order_irrelevant_witness :
  stop_times_loop demo_lookups (seq_state initial_pass) (reverse demo_rows)
  = stop_times_loop demo_lookups (seq_state initial_pass) demo_rows.
Proof.
  apply (stop_times_order_irrelevant demo_lookups (seq_state initial_pass)
           (reverse demo_rows) demo_rows).
  apply reverse_Permutation.
Defined.

Lemma upsert_bus_mode_idempotent_witness :
  ∃ res c1 c2,
    process_mode "bus" [demo_feed] = Ok res
    ∧ upsert_bus_mode accepting res {| working := empty_database; executed := 0%nat |}
      = Ok c1
    ∧ upsert_bus_mode accepting res c1 = Ok c2
    ∧ table (db_stations (working c1)) "bus" = stations_rows res
    ∧ working c2 = working c1.
Proof.
  destruct (process_mode "bus" [demo_feed]) as [res|e] eqn:Hres;
    [|vm_compute in Hres; discriminate Hres].
  destruct (upsert_bus_mode accepting res {| working := empty_database; executed := 0%nat |})
    as [c1|e] eqn:H1;
    [|vm_compute in Hres; injection Hres as <-; vm_compute in H1; discriminate H1].
  destruct (upsert_bus_mode accepting res c1) as [c2|e] eqn:H2;
    [|vm_compute in Hres; injection Hres as <-; vm_compute in H1; injection H1 as <-;
      vm_compute in H2; discriminate H2].
  exists res, c1, c2. split; [reflexivity|]. split; [exact H1|]. split; [exact H2|].
  split.
  - vm_compute in Hres. injection Hres as <-. vm_compute in H1. injection H1 as <-.
    vm_compute. reflexivity.
  - exact (upsert_bus_mode_idempotent accepting "bus" [demo_feed] res _ c1 c2 Hres H1 H2).
Defined.


Lemma upsert_keeps_known_values_witness :
  ∃ c1 c2,
    upsert_bus_mode accepting demo_result
      {| working := empty_database; executed := 0%nat |} = Ok c1
    ∧ upsert_bus_mode accepting demo_result c1 = Ok c2
    ∧ (∀ i old, table (db_stations (working c1)) "bus" !! i = Some old →
         ∃ new, table (db_stations (working c2)) "bus" !! i = Some new
                ∧ station_row_kept old new)
    ∧ (∀ i old, table (db_routes (working c1)) "bus" !! i = Some old →
         ∃ new, table (db_routes (working c2)) "bus" !! i = Some new
                ∧ route_row_kept old new).
Proof.
  destruct (upsert_bus_mode accepting demo_result
              {| working := empty_database; executed := 0%nat |}) as [c1|e] eqn:H1;
    [|vm_compute in H1; discriminate H1].
  destruct (upsert_bus_mode accepting demo_result c1) as [c2|e] eqn:H2;
    [|vm_compute in H1; injection H1 as <-; vm_compute in H2; discriminate H2].
  exists c1, c2. split; [reflexivity|]. split; [exact H2|].
  exact (upsert_keeps_known_values accepting demo_result c1 c2 H2).
Defined.

Lemma insert_non_bus_mode_appends_witness :
  ∃ c',
    insert_non_bus_mode accepting "subway" demo_result
      {| working := empty_database; executed := 0%nat |} = Ok c'
    ∧ table (db_stations (working c')) "subway"
      = (table (db_stations empty_database) "subway" ++ stations_rows demo_result)%list
    ∧ table (db_routes (working c')) "subway"
      = (table (db_routes empty_database) "subway" ++ routes_rows demo_result)%list
    ∧ table (db_route_stops (working c')) "subway"
      = (table (db_route_stops empty_database) "subway"
           ++ route_stops_rows demo_result)%list
    ∧ ∀ m, m ≠ "subway" → view (working c') m = view empty_database m.
Proof.
  destruct (insert_non_bus_mode accepting "subway" demo_result
              {| working := empty_database; executed := 0%nat |}) as [c'|e] eqn:H1;
    [|vm_compute in H1; discriminate H1].
  exists c'. split; [reflexivity|].
  exact (insert_non_bus_mode_appends accepting "subway" demo_result _ c' H1).
Defined.

Lemma reduce_stop_times_plain_witness :
  ∃ st, reduce_stop_times false (Some ["trip_id"; "arrival_time"; "stop_id"]) demo_csv_rows
        = Ok st
        ∧ written st = [("T1", "101N"); ("T2", "201"); ("T1", "101N")]
        ∧ rows_in st = 5%nat
        ∧ rows_out st = 3%nat.
Proof.
  destruct (reduce_stop_times false (Some ["trip_id"; "arrival_time"; "stop_id"])
              demo_csv_rows) as [st|e] eqn:Hrun; [|vm_compute in Hrun; discriminate Hrun].
  destruct (reduce_stop_times_plain _ _ _ Hrun) as (Hw & Hin & Hout & _).
  exists st. split; [reflexivity|]. rewrite Hout, Hin, Hw.
  split; [vm_compute; reflexivity|]. split; vm_compute; reflexivity.
Defined.

Lemma reduce_stop_times_dedupe_witness :
  ∃ st st',
    reduce_stop_times true (Some ["trip_id"; "arrival_time"; "stop_id"]) demo_csv_rows
    = Ok st
    ∧ reduce_stop_times false (Some ["trip_id"; "arrival_time"; "stop_id"]) demo_csv_rows
      = Ok st'
    ∧ written st = [("T1", "101N"); ("T2", "201")]
    ∧ NoDup (written st).
Proof.
  destruct (reduce_stop_times true (Some ["trip_id"; "arrival_time"; "stop_id"])
              demo_csv_rows) as [st|e] eqn:Hrun; [|vm_compute in Hrun; discriminate Hrun].
  destruct (reduce_stop_times false (Some ["trip_id"; "arrival_time"; "stop_id"])
              demo_csv_rows) as [st'|e] eqn:Hrun'; [|vm_compute in Hrun'; discriminate Hrun'].
  destruct (reduce_stop_times_dedupe _ _ _ _ Hrun Hrun') as (Hw & Hnd & _).
  exists st, st'. split; [reflexivity|]. split; [reflexivity|]. split; [|exact Hnd].
  rewrite Hw. vm_compute in Hrun'. injection Hrun' as <-. vm_compute. reflexivity.
Defined.

Lemma reduce_stop_times_again_witness :
  ∃ st st',
    reduce_stop_times true (Some ["trip_id"; "arrival_time"; "stop_id"]) demo_csv_rows
    = Ok st
    ∧ reduce_stop_times true (Some ["trip_id"; "stop_id"]) (key_row <$> written st) = Ok st'
    ∧ written st' = written st
    ∧ rows_in st' = rows_out st
    ∧ rows_out st' = rows_out st.
Proof.
  destruct (reduce_stop_times true (Some ["trip_id"; "arrival_time"; "stop_id"])
              demo_csv_rows) as [st|e] eqn:Hrun; [|vm_compute in Hrun; discriminate Hrun].
  destruct (reduce_stop_times_again _ _ _ _ Hrun) as (st' & Hagain).
  exists st, st'. split; [reflexivity | exact Hagain].
Defined.

Lemma reduce_stop_times_streams_witness :
  ∃ st1 st2,
    reduce_stop_times true (Some ["trip_id"; "stop_id"]) (take 2 demo_csv_rows) = Ok st1
    ∧ reduce_stop_times true (Some ["trip_id"; "stop_id"]) demo_csv_rows = Ok st2
    ∧ written st1 `prefix_of` written st2
    ∧ rows_in st2 = (rows_in st1 + 3)%nat.
Proof.
  destruct (reduce_stop_times true (Some ["trip_id"; "stop_id"]) (take 2 demo_csv_rows))
    as [st1|e] eqn:Hrun1; [|vm_compute in Hrun1; discriminate Hrun1].
  destruct (reduce_stop_times true (Some ["trip_id"; "stop_id"]) demo_csv_rows)
    as [st2|e] eqn:Hrun2; [|vm_compute in Hrun2; discriminate Hrun2].
  exists st1, st2. split; [reflexivity|]. split; [reflexivity|].
  exact (reduce_stop_times_streams true (Some ["trip_id"; "stop_id"])
           (take 2 demo_csv_rows) (drop 2 demo_csv_rows) st1 st2 Hrun1 Hrun2).
Defined.
